(** * devito/stencilkernel.py: operator construction, argument binding,
      autotuning and performance accounting

    A shallow embedding of [OperatorBasic], [OperatorCore] and
    [PerformanceSummary].  Python dictionaries that are iterated in
    insertion order ([OrderedDict]) are association lists with in-place
    update; exceptions are an error type; the native routine, the profiler
    structure it fills and the numpy buffers it writes live in an explicit
    state that is threaded through every call. *)

From Stdlib Require Import ZArith Bool.
From Stdlib Require Import Floats.SpecFloat.
From Stdlib Require Import DecimalString DecimalNat.
From stdpp Require Import base option list strings gmap.

Local Open Scope string_scope.
Local Open Scope list_scope.
Local Open Scope Z_scope.
Set Warnings "-register-all".

(** ** Exceptions and the error monad *)

Inductive exn : Set :=
| InvalidArgument      (* devito.exceptions.InvalidArgument *)
| AssertionError
| RuntimeError
| ValueError
| KeyError
| IndexError
| TypeError
| AttributeError
| ZeroDivisionError
| OverflowError.

#[global] Instance exn_eq_dec : EqDecision exn.
Proof. solve_decision. Defined.

Inductive result (A : Type) : Type :=
| Ok (a : A)
| Err (e : exn).
Arguments Ok {A} a.
Arguments Err {A} e.

#[global] Instance result_ret : MRet result := fun _ a => Ok a.
#[global] Instance result_bind : MBind result := fun _ _ f r =>
  match r with
  | Ok a => f a
  | Err e => Err e
  end.

(** [assert c] raises [AssertionError] when [c] is false. *)
Definition py_assert (c : bool) : result unit :=
  if c then Ok tt else Err AssertionError.

(** ** OrderedDict

    Keys are unique; assigning to a present key keeps its position,
    assigning to a fresh key appends it. *)

Section OrderedDict.
Context {K V : Type} `{EqDecision K}.

Fixpoint od_get (k : K) (d : list (K * V)) : option V :=
  match d with
  | [] => None
  | (k', v) :: d' => if decide (k = k') then Some v else od_get k d'
  end.

Fixpoint od_set (k : K) (v : V) (d : list (K * V)) : list (K * V) :=
  match d with
  | [] => [(k, v)]
  | (k', v') :: d' =>
      if decide (k = k') then (k, v) :: d' else (k', v') :: od_set k v d'
  end.

Definition od_contains (k : K) (d : list (K * V)) : bool :=
  match od_get k d with Some _ => true | None => false end.

Definition od_keys (d : list (K * V)) : list K := d.*1.
Definition od_values (d : list (K * V)) : list V := d.*2.

(** [d.update(items)], also the constructor [OrderedDict(items)] from the
    empty dictionary. *)
Definition od_update (d items : list (K * V)) : list (K * V) :=
  fold_left (fun acc kv => od_set kv.1 kv.2 acc) items d.

Definition od_of_items (items : list (K * V)) : list (K * V) :=
  od_update [] items.

Fixpoint od_remove (k : K) (d : list (K * V)) : list (K * V) :=
  match d with
  | [] => []
  | (k', v) :: d' => if decide (k = k') then d' else (k', v) :: od_remove k d'
  end.

(** [d.pop(k)] *)
Definition od_pop (k : K) (d : list (K * V)) : result (V * list (K * V)) :=
  match od_get k d with
  | Some v => Ok (v, od_remove k d)
  | None => Err KeyError
  end.

(** [d[k]] *)
Definition od_item (k : K) (d : list (K * V)) : result V :=
  match od_get k d with
  | Some v => Ok v
  | None => Err KeyError
  end.
End OrderedDict.

(** ** [min] and [max] with a [key] function

    CPython keeps the first item and replaces it only by an item whose key
    compares strictly smaller (for [min]) or strictly greater (for [max]);
    an empty sequence raises [ValueError]. *)

Section MinMax.
Context {A B : Type}.
Variable better : B -> B -> bool.   (* [better new old]: replace [old] *)
Variable key : A -> B.

Definition py_select_step (best x : A) : A :=
  if better (key x) (key best) then x else best.

Definition py_select (l : list A) : result A :=
  match l with
  | [] => Err ValueError
  | x :: l' => Ok (fold_left py_select_step l' x)
  end.
End MinMax.

(** ** numpy element types *)

Inductive dtype : Set := np_float32 | np_float64 | np_int32 | np_int64.

#[global] Instance dtype_eq_dec : EqDecision dtype.
Proof. solve_decision. Defined.

(** [dtype().itemsize] *)
Definition itemsize (t : dtype) : Z :=
  match t with
  | np_float32 | np_int32 => 4
  | np_float64 | np_int64 => 8
  end.

(** ** [OperatorBasic._retrieve_dtype] and the head of [__init__] *)

Section RetrieveDtype.
(** The user's equations become stencils by [indexify] and
    [xreplace(subs)], which belong to other modules; [lhs_dtype s] is
    [s.lhs.base.function.dtype]. *)
Context {equation stencil : Type}.
Variable indexify : equation -> stencil.
Variable xreplace : stencil -> stencil.
Variable lhs_dtype : stencil -> dtype.

(** [set([...])]: the distinct elements. *)
Definition py_set (l : list dtype) : list dtype := remove_dups l.

Definition _retrieve_dtype (stencils : list stencil) : result dtype :=
  let lhss := py_set (map lhs_dtype stencils) in
  if negb (length lhss =? 1)%nat then Err RuntimeError
  else match lhss with
       | d :: _ => Ok d
       | [] => Err KeyError          (* [pop] from an empty set *)
       end.

(** "Normalize the collection of stencils" *)
Definition normalize (stencils : list equation) : list stencil :=
  map xreplace (map indexify stencils).

(** The constructor: [build] stands for everything after the dtype
    retrieval (symbolic rewriting, scheduling, loop transformation,
    declarations), which may fail on its own. *)
Context {operator_body : Type}.
Variable build : dtype -> list stencil -> result operator_body.

Record BuiltOperator := { built_dtype : dtype; built_body : operator_body }.

Definition OperatorBasic_init (stencils : list equation) : result BuiltOperator :=
  let stencils := normalize stencils in
  d ← _retrieve_dtype stencils;
  body ← build d stencils;
  Ok {| built_dtype := d; built_body := body |}.
End RetrieveDtype.

(** ** Dimensions *)

(** [Dimension] and its subclass [BufferedDimension] (which has a [parent]);
    [size] is [None] for an open dimension. *)
Inductive Dimension : Set :=
| Dim (name : string) (size : option Z)
| BufferedDim (name : string) (size : option Z) (parent : Dimension).

#[global] Instance Dimension_eq_dec : EqDecision Dimension.
Proof. solve_decision. Defined.

Definition dim_name (d : Dimension) : string :=
  match d with Dim n _ | BufferedDim n _ _ => n end.

Definition dim_size (d : Dimension) : option Z :=
  match d with Dim _ s | BufferedDim _ s _ => s end.

Definition is_Buffered (d : Dimension) : bool :=
  match d with Dim _ _ => false | BufferedDim _ _ _ => true end.

(** ** The tail of [OperatorBasic._schedule_expressions]: removal of the
       expressions that became redundant after merging *)

Module Scheduler.
Section Schedule.
Context {stencil : Type} `{EqDecision stencil}.

(** [Iteration(nodes, dimension=..., limits=..., offsets=...)]: the frozen
    arguments are everything but the body. *)
Record IterationArgs := {
  dimension : Dimension;
  limits : option Z;
  offsets : list Z
}.

(** The nodes of the Iteration/Expression tree that this pass meets:
    [Expression(stencil, dtype)], [Iteration] and any other node. *)
Inductive Node :=
| Expression (s : stencil) (t : dtype)
| Iteration (nodes : list Node) (args_frozen : IterationArgs)
| OtherNode (label : string).

Definition is_Expression (n : Node) : bool :=
  match n with Expression _ _ => true | _ => false end.

(** The inner loop: [found] is the set of stencils met so far, [trimmed]
    the nodes kept so far (in order). *)
Fixpoint trim_loop (v : list Node) (found : list stencil) (trimmed : list Node)
  : list Node :=
  match v with
  | [] => trimmed
  | n :: v' =>
      match n with
      | Expression s _ =>
          if bool_decide (s ∈ found) then trim_loop v' found trimmed
          else trim_loop v' (s :: found) (trimmed ++ [n])
      | _ => trim_loop v' found (trimmed ++ [n])
      end
  end.

Definition trim (v : list Node) : list Node := trim_loop v [] [].

(** [k[-1]] *)
Definition py_last {A} (k : list A) : result A :=
  match last k with Some x => Ok x | None => Err IndexError end.

(** The loop over [FindSections().visit(processed).items()].  The visitors
    [FindSections] and [IsPerfectIteration] are defined elsewhere in the
    package: the sections are given, and [IsPerfectIteration] is a
    parameter.  [mapper] is keyed by node identity and every section has
    its own innermost iteration, so each assignment adds an entry; the
    entries are listed in the order they are written. *)
Variable IsPerfectIteration : Node -> bool.

Fixpoint redundancy_mapper (sections : list (list Node * list Node))
    (mapper : list (Node * Node)) : result (list (Node * Node)) :=
  match sections with
  | [] => Ok mapper
  | (k, v) :: rest =>
      candidate ← py_last k;
      if negb (IsPerfectIteration candidate) then redundancy_mapper rest mapper
      else
        match candidate with
        | Iteration _ args =>
            redundancy_mapper rest (mapper ++ [(candidate, Iteration (trim v) args)])
        | _ => Err AttributeError   (* no [args_frozen] *)
        end
  end.

(** In the words of the specification: a node is dropped exactly when it
    is an expression whose stencil already occurs in an expression before
    it. *)
Definition has_stencil (s : stencil) (n : Node) : bool :=
  match n with Expression s' _ => bool_decide (s' = s) | _ => false end.

Definition duplicates_earlier (before : list Node) (n : Node) : bool :=
  match n with
  | Expression s _ => existsb (has_stencil s) before
  | _ => false
  end.

Fixpoint drop_later_duplicates (before v : list Node) : list Node :=
  match v with
  | [] => []
  | n :: v' =>
      if duplicates_earlier before n then drop_later_duplicates (before ++ [n]) v'
      else n :: drop_later_duplicates (before ++ [n]) v'
  end.

Definition expression_stencils (v : list Node) : list stencil :=
  omap (fun n => match n with Expression s _ => Some s | _ => None end) v.
End Schedule.

Arguments Node stencil : clear implicits.
End Scheduler.

(** ** Binary64 arithmetic as Python performs it *)

Definition f64_of_Z (z : Z) : spec_float := binary_normalize 53 1024 z 0 false.
Definition f64_add : spec_float -> spec_float -> spec_float := SFadd 53 1024.
Definition f64_div : spec_float -> spec_float -> spec_float := SFdiv 53 1024.
Definition f64_zero : spec_float := S754_zero false.

Definition f64_is_zero (x : spec_float) : bool :=
  match x with S754_zero _ => true | _ => false end.

Definition f64_is_nan (x : spec_float) : bool :=
  match x with S754_nan => true | _ => false end.

(** [float(n)] for an integer [n]: correctly rounded, [OverflowError] when
    the integer is too large. *)
Definition py_float (z : Z) : result spec_float :=
  match f64_of_Z z with
  | S754_infinity _ => Err OverflowError
  | x => Ok x
  end.

(** [x / y] on floats. *)
Definition py_truediv (x y : spec_float) : result spec_float :=
  if f64_is_zero y then Err ZeroDivisionError else Ok (f64_div x y).

(** [x / n] for a float [x] and an integer [n]: [n] is converted first. *)
Definition py_truediv_int (x : spec_float) (n : Z) : result spec_float :=
  y ← py_float n; py_truediv x y.

(** [sum(values)], which starts from the integer [0]. *)
Definition py_sum (l : list spec_float) : spec_float := fold_left f64_add l f64_zero.

(** [reduce(operator.mul, l)]: no initial value, [TypeError] on an empty
    sequence. *)
Definition reduce_mul (l : list Z) : result Z :=
  match l with
  | [] => Err TypeError
  | x :: l' => Ok (fold_left Z.mul l' x)
  end.

(** [l[i]] for [i >= 0]. *)
Definition py_index {A} (l : list A) (i : nat) : result A :=
  match l !! i with Some x => Ok x | None => Err IndexError end.

(** ** Run-time values *)

(** A numpy array is a reference to a buffer together with its shape. *)
Record ndarray : Set := { arr_loc : nat; arr_shape : list Z }.

#[global] Instance ndarray_eq_dec : EqDecision ndarray.
Proof. solve_decision. Defined.

(** [SymbolicData]: the symbolic object of a data parameter.  [sd_shape] is
    its [shape], [sd_indices] its [indices] and [sd_data] its [data], an
    array or nothing. *)
Record SymbolicData : Set := {
  sd_name : string;
  sd_shape : list Z;
  sd_indices : list Dimension;
  sd_data : option ndarray
}.

#[global] Instance SymbolicData_eq_dec : EqDecision SymbolicData.
Proof. solve_decision. Defined.

(** What an argument mapping or a keyword can hold. *)
Inductive value : Set :=
| VSymbolic (f : SymbolicData)
| VDimension (d : Dimension)
| VArray (a : ndarray)
| VInt (n : Z)
| VBool (b : bool)
| VNone
| VProfiler.        (* the ctypes pointer to the profiler structure *)

#[global] Instance value_eq_dec : EqDecision value.
Proof. solve_decision. Defined.

(** The formal parameters of an operator, and the objects passed
    positionally: symbolic data or dimensions. *)
Inductive Param : Set :=
| PData (f : SymbolicData)
| PDim (d : Dimension).

Definition param_name (p : Param) : string :=
  match p with PData f => sd_name f | PDim d => dim_name d end.

Definition param_value (p : Param) : value :=
  match p with PData f => VSymbolic f | PDim d => VDimension d end.

(** [v.shape] *)
Definition value_shape (v : value) : result (list Z) :=
  match v with
  | VSymbolic f => Ok (sd_shape f)
  | VArray a => Ok (arr_shape a)
  | _ => Err AttributeError
  end.

(** A keyword read as an integer size ([bool] is a subclass of [int]).
    The source stores the keyword's object itself in [dim_sizes], whatever
    its class; the binding below computes with integer sizes, reads a
    [bool] as the integer it equals and rejects a keyword of another class
    with [TypeError].  [infer_dimension_obj] follows the same loops on the
    objects, and the two traversals agree when the keywords are integers
    ([bind_positional_agrees]). *)
Definition value_as_int (v : value) : result Z :=
  match v with
  | VInt n => Ok n
  | VBool b => Ok (if b then 1 else 0)
  | _ => Err TypeError
  end.

(** Truth value, as [if v:] computes it. *)
Definition truthy (v : value) : bool :=
  match v with
  | VInt n => negb (n =? 0)
  | VBool b => b
  | VNone => false
  | _ => true
  end.

(** ** The state: buffers, profiler and invocation log *)

Record State := {
  heap : gmap nat (list spec_float);        (* the buffers of the arrays *)
  profiler_timings : list (string * spec_float);  (* [self.profiler.timings] *)
  invocations : list (list (string * value))
    (* the argument mapping of every native call so far, oldest first;
       kept for the statements, not read by the program *)
}.

Definition M (A : Type) : Type := State -> result A * State.

#[global] Instance M_ret : MRet M := fun _ a st => (Ok a, st).
#[global] Instance M_bind : MBind M := fun _ _ f m st =>
  match m st with
  | (Ok a, st') => f a st'
  | (Err e, st') => (Err e, st')
  end.

Definition lift {A} (r : result A) : M A := fun st => (r, st).

(** ** Operators *)

(** The attributes and methods of an [Iteration] node that argument
    binding, autotuning and profiling use.  [Iteration.end] and
    [Iteration.extent] are methods of [devito.nodes]; they are carried as
    fields.  [it_end handle] is [self.end(handle)], [it_extent finish] is
    [self.extent(finish=finish)]; each may be [None]. *)
Record Iteration := {
  it_dim : Dimension;
  is_Sequential : bool;
  it_end : option value -> option Z;
  it_extent : option Z -> option Z
}.

(** The [value] of a blocking parameter: an integer, or a function of the
    dimension size. *)
Inductive BlockValue :=
| FixedValue (v : Z)
| DerivedValue (f : Z -> Z).

(** An entry of [dle_state.arguments]. *)
Record DleArgument := {
  argument : Dimension;
  original_dim : Dimension;
  block_value : option BlockValue;
  iteration : Iteration
}.

(** [Profile = namedtuple('Profile', 'timer ops memory')] *)
Record Profile := { timer : string; ops : Z; memory : Z }.

(** The module-level [options] dictionary. *)
Record Options := { at_squeezer : Z; at_blocksize : list Z }.

Definition options : Options :=
  {| at_squeezer := 3; at_blocksize := [8; 16; 24; 32; 40; 64; 128] |}.

Inductive OperatorClass : Set := OperatorBasic | OperatorForeign | OperatorCore.

Record Operator := {
  cls : OperatorClass;
  parameters : list Param;
  dtype_of : dtype;                               (* [self.dtype] *)
  sections : list (list Iteration * Profile);     (* [self.sections] *)
  dle_arguments : list DleArgument;               (* [_dle_state.arguments] *)
  has_applied_blocking : bool;
  needs_aggressive_autotuning : bool;
  output_fields : list string;
    (* [i.base.label.name for i in self._dse_state.output_fields] *)
  body_iterations : list Iteration;
    (* [FindNodes(Iteration).visit(self.body)] *)
  s_name : string;                                (* [self.profiler.s_name] *)
  cfunction : list value -> State -> State
    (* the compiled routine: it may write buffers and the profiler *)
}.

(** The native call on [list(arguments.values())], unpacked. *)
Definition invoke (op : Operator) (arguments : list (string * value)) : M unit :=
  fun st =>
    let st' := cfunction op (od_values arguments) st in
    (Ok tt, {| heap := heap st';
               profiler_timings := profiler_timings st';
               invocations := invocations st ++ [arguments] |}).

Definition get_state : M State := fun st => (Ok st, st).

(** [_extra_arguments]: the profiler structure for [OperatorCore], nothing
    for the other classes. *)
Definition _extra_arguments (op : Operator) : list (string * value) :=
  match cls op with
  | OperatorCore => [(s_name op, VProfiler)]
  | _ => []
  end.

(** ** [OperatorCore._autotune] *)

(** A block-size candidate: blocking-parameter name to trial value, in the
    order of [mapper]. *)
Abbreviation candidate := (list (string * Z)) (only parsing).

(** [v.copy()]: a numpy array is copied into a fresh buffer; a symbolic
    object copies to an equal symbolic object; integers, [None] and the
    profiler pointer have no [copy]. *)
Definition value_copy (v : value) : M value :=
  match v with
  | VArray a =>
      fun st =>
        let l := fresh (dom (heap st)) in
        (Ok (VArray {| arr_loc := l; arr_shape := arr_shape a |}),
         {| heap := <[l := default [] (heap st !! arr_loc a)]> (heap st);
            profiler_timings := profiler_timings st;
            invocations := invocations st |})
  | VSymbolic f => mret (VSymbolic f)
  | VDimension d => mret (VDimension d)
  | _ => lift (Err AttributeError)
  end.

(** "Output data must not be changed": the loop over [arguments.items()]
    that writes private copies into [at_arguments]. *)
Fixpoint copy_outputs (output : list string) (items : list (string * value))
    (at_arguments : list (string * value)) : M (list (string * value)) :=
  match items with
  | [] => mret at_arguments
  | (k, v) :: rest =>
      if bool_decide (k ∈ output) then
        v' ← value_copy v;
        copy_outputs output rest (od_set k v' at_arguments)
      else copy_outputs output rest at_arguments
  end.

Definition squeezable (op : Operator) : list string :=
  omap (fun i =>
          if is_Sequential i && is_Buffered (it_dim i) then
            match it_dim i with
            | BufferedDim _ _ parent => Some (dim_name parent)
            | Dim _ _ => None
            end
          else None)
       (body_iterations op).

(** [mapper = OrderedDict([(i.argument.name, i) for i in arguments])] *)
Definition blocking_mapper (op : Operator) : list (string * DleArgument) :=
  od_of_items (map (fun i => (dim_name (argument i), i)) (dle_arguments op)).

(** [itertools.combinations(l, r)] *)
Fixpoint combinations {A} (l : list A) (r : nat) : list (list A) :=
  match l with
  | [] => match r with O => [[]] | S _ => [] end
  | x :: l' =>
      match r with
      | O => [[]]
      | S r' => map (cons x) (combinations l' r') ++ combinations l' r
      end
  end.

Fixpoint mapM_result {A B} (f : A -> result B) (l : list A) : result (list B) :=
  match l with
  | [] => Ok []
  | x :: l' => y ← f x; ys ← mapM_result f l'; Ok (y :: ys)
  end.

(** The candidates added when [needs_aggressive_autotuning] holds. *)
Definition elaborated_blocksizes (blocksizes : list (list (string * Z)))
  : result (list (list (string * Z))) :=
  swapped ← mapM_result (fun blocksize =>
      mapM_result (fun i =>
          handle ← Scheduler.py_last i;
          Ok (od_of_items (removelast blocksize ++ [handle])))
        blocksizes)
    (take 3 blocksizes);
  let doubled :=
    flat_map (fun blocksize =>
      flat_map (fun i =>
        map (fun j =>
               od_of_items
                 (map (fun kv : string * Z =>
                         (kv.1, if bool_decide (kv.1 ∈ j)
                                then default kv.2 (od_get kv.1 blocksize) * 2
                                else kv.2))
                      blocksize))
            (combinations (od_keys blocksize) (S i)))
        (seq 0 (length blocksize)))
      blocksizes in
  Ok (concat swapped ++ doubled).

(** "Attempted block sizes".  The keys of [mapper] are distinct, so the
    inner [OrderedDict] is the list itself. *)
Definition attempted_blocksizes (opts : Options) (op : Operator)
  : result (list (list (string * Z))) :=
  let mapper := blocking_mapper op in
  let blocksizes :=
    map (fun v => map (fun k => (k, v)) (od_keys mapper)) (at_blocksize opts) in
  if needs_aggressive_autotuning op then
    elaborated ← elaborated_blocksizes blocksizes;
    Ok (blocksizes ++ elaborated)
  else Ok blocksizes.

(** [val <= e] where [e] may be [None]: in Python 2 [None] is smaller than
    every integer. *)
Definition le_end (val : Z) (e : option Z) : bool :=
  match e with Some e => val <=? e | None => false end.

(** The loop over [at_arguments.items()] for one candidate.  The result is
    the [illegal] flag and the updated [at_arguments]. *)
Fixpoint try_blocksize (opts : Options) (mapper : list (string * DleArgument))
    (squeezable : list string) (blocksize : list (string * Z))
    (keys : list string) (at_arguments : list (string * value))
  : result (bool * list (string * value)) :=
  match keys with
  | [] => Ok (false, at_arguments)
  | k :: rest =>
      if od_contains k blocksize then
        val ← od_item k blocksize;
        i ← od_item k mapper;
        let handle := od_get (dim_name (original_dim i)) at_arguments in
        if le_end val (it_end (iteration i) handle) then
          try_blocksize opts mapper squeezable blocksize rest
            (od_set k (VInt val) at_arguments)
        else Ok (true, at_arguments)
      else if bool_decide (k ∈ squeezable) then
        try_blocksize opts mapper squeezable blocksize rest
          (od_set k (VInt (at_squeezer opts)) at_arguments)
      else try_blocksize opts mapper squeezable blocksize rest at_arguments
  end.

(** The loop over [blocksizes]; [timings] is keyed by
    [tuple(blocksize.items())]. *)
Fixpoint run_trials (opts : Options) (op : Operator)
    (mapper : list (string * DleArgument)) (squeezable : list string)
    (blocksizes : list (list (string * Z)))
    (at_arguments : list (string * value))
    (timings : list (list (string * Z) * spec_float))
  : M (list (string * value) * list (list (string * Z) * spec_float)) :=
  match blocksizes with
  | [] => mret (at_arguments, timings)
  | blocksize :: rest =>
      '(illegal, at_arguments) ← lift (try_blocksize opts mapper squeezable
                                         blocksize (od_keys at_arguments)
                                         at_arguments);
      if (illegal : bool)
      then run_trials opts op mapper squeezable rest at_arguments timings
      else
        let at_arguments := od_update at_arguments (_extra_arguments op) in
        _ ← invoke op at_arguments;
        st ← get_state;
        let elapsed := py_sum (od_values (profiler_timings st)) in
        run_trials opts op mapper squeezable rest at_arguments
          (od_set blocksize elapsed timings)
  end.

(** Everything up to the end of the loop over the candidates. *)
Definition autotune_trials (opts : Options) (op : Operator)
    (arguments : list (string * value))
  : M (list (list (string * Z) * spec_float)) :=
  at_arguments ← copy_outputs (output_fields op) arguments arguments;
  blocksizes ← lift (attempted_blocksizes opts op);
  '(_, timings) ← run_trials opts op (blocking_mapper op) (squeezable op)
                    blocksizes at_arguments [];
  mret timings.

(** The comparison of two results of [timings.get]. *)
Definition elapsed_lt (x y : option spec_float) : bool :=
  match x, y with
  | Some a, Some b => SFltb a b
  | None, Some _ => true
  | _, _ => false
  end.

(** [min(timings, key=timings.get)] *)
Definition fastest (timings : list (list (string * Z) * spec_float))
  : result (list (string * Z)) :=
  py_select elapsed_lt (fun c => od_get c timings) (od_keys timings).

(** The final loop: [arguments[k] = best[k]] for every key in [mapper]. *)
Fixpoint write_back (mapper : list (string * DleArgument))
    (best : list (string * Z)) (items : list (string * value))
    (arguments : list (string * value)) : result (list (string * value)) :=
  match items with
  | [] => Ok arguments
  | (k, _) :: rest =>
      if od_contains k mapper then
        b ← od_item k best;
        write_back mapper best rest (od_set k (VInt b) arguments)
      else write_back mapper best rest arguments
  end.

(** [OperatorCore._autotune].  The caller's mapping is updated in place by
    the source; here the updated mapping is the result. *)
Definition OperatorCore_autotune (opts : Options) (op : Operator)
    (arguments : list (string * value)) : M (list (string * value)) :=
  if negb (has_applied_blocking op) then mret arguments
  else
    timings ← autotune_trials opts op arguments;
    best ← lift (fastest timings);
    lift (write_back (blocking_mapper op) best arguments arguments).

(** [self._autotune]: [OperatorBasic._autotune] does nothing. *)
Definition _autotune (opts : Options) (op : Operator)
    (arguments : list (string * value)) : M (list (string * value)) :=
  match cls op with
  | OperatorCore => OperatorCore_autotune opts op arguments
  | _ => mret arguments
  end.

(** ** [OperatorBasic.arguments] *)

(** [_arg_data]: [OperatorCore] returns [argument.data] (after logging an
    error when it is not an array), the other classes [None]. *)
Definition _arg_data (op : Operator) (f : SymbolicData) : value :=
  match cls op with
  | OperatorCore => match sd_data f with Some a => VArray a | None => VNone end
  | _ => VNone
  end.

(** [_arg_shape]: [argument.data.shape] for [OperatorCore],
    [argument.shape] for the other classes. *)
Definition _arg_shape (op : Operator) (f : SymbolicData) : result (list Z) :=
  match cls op with
  | OperatorCore =>
      match sd_data f with Some a => Ok (arr_shape a) | None => Err AttributeError end
  | _ => Ok (sd_shape f)
  end.

(** "Replace the overridden values with the provided ones" *)
Fixpoint override_data (o_vals : list (string * value))
    (arguments : list (string * value)) : result (list (string * value)) :=
  match o_vals with
  | [] => Ok arguments
  | (argname, o) :: rest =>
      a ← od_item argname arguments;
      declared ← value_shape a;
      supplied ← value_shape o;
      if negb (bool_decide (declared = supplied)) then Err InvalidArgument
      else override_data rest (od_set argname o arguments)
  end.

(** The body of the loop over [enumerate(f.indices)]. *)
Definition infer_dimension (kwargs : list (string * value)) (shape : list Z)
    (i : nat) (dim : Dimension) (dim_sizes : list (Dimension * Z))
  : result (list (Dimension * Z)) :=
  match dim_size dim with
  | None =>
      dim_sizes ← match od_get (dim_name dim) kwargs with
                  | Some v => n ← value_as_int v; Ok (od_set dim n dim_sizes)
                  | None => Ok dim_sizes
                  end;
      match od_get dim dim_sizes with
      | Some n =>
          if negb (is_Buffered dim) then
            s ← py_index shape i;
            _ ← py_assert (n <=? s);
            Ok dim_sizes
          else Ok dim_sizes
      | None =>
          s ← py_index shape i;
          Ok (od_set dim s dim_sizes)
      end
  | Some size =>
      if negb (is_Buffered dim) then
        s ← py_index shape i;
        _ ← py_assert (size =? s);
        Ok dim_sizes
      else Ok dim_sizes
  end.

Fixpoint infer_indices (kwargs : list (string * value)) (shape : list Z)
    (i : nat) (indices : list Dimension) (dim_sizes : list (Dimension * Z))
  : result (list (Dimension * Z)) :=
  match indices with
  | [] => Ok dim_sizes
  | dim :: rest =>
      dim_sizes ← infer_dimension kwargs shape i dim dim_sizes;
      infer_indices kwargs shape (S i) rest dim_sizes
  end.

(** "Traverse positional args and infer loop sizes for open dimensions":
    the loop over [zip(f_args, args)]. *)
Fixpoint bind_positional (op : Operator) (kwargs : list (string * value))
    (pairs : list (SymbolicData * Param))
    (arguments : list (string * value)) (dim_sizes : list (Dimension * Z))
  : result (list (string * value) * list (Dimension * Z)) :=
  match pairs with
  | [] => Ok (arguments, dim_sizes)
  | (f, arg) :: rest =>
      let arguments := od_set (param_name arg) (_arg_data op f) arguments in
      shape ← _arg_shape op f;
      dim_sizes ← infer_indices kwargs shape 0 (sd_indices f) dim_sizes;
      bind_positional op kwargs rest arguments dim_sizes
  end.

(** "Ensure parent for buffered dims is defined".  The source iterates a
    plain dictionary; the keys are taken here in insertion order. *)
Definition define_parents (dim_sizes : list (Dimension * Z)) : list (Dimension * Z) :=
  let buf_dims := List.filter is_Buffered (od_keys dim_sizes) in
  fold_left (fun ds dim =>
               match dim with
               | BufferedDim _ _ parent =>
                   if od_contains parent ds then ds
                   else match od_get dim ds with
                        | Some n => od_set parent n ds
                        | None => ds
                        end
               | Dim _ _ => ds
               end)
            buf_dims dim_sizes.

(** [dim_sizes.get(d, d.size)]: the extent of [d] after the inference, or
    its declared size. *)
Definition resolved_extent (dim_sizes : list (Dimension * Z)) (d : Dimension)
  : option Z :=
  match od_get d dim_sizes with
  | Some n => Some n
  | None => dim_size d
  end.

(** "Add user-provided block sizes, if any": the loop over
    [self._dle_state.arguments]; the result is [dle_arguments] and
    [maybe_autotune].  [if i.value:] holds for a function and for a nonzero
    integer; calling an integer raises the [TypeError] that the source
    catches. *)
Fixpoint bind_block_sizes (dle : list DleArgument) (dim_sizes : list (Dimension * Z))
    (dle_args : list (Dimension * Z)) (maybe_autotune : bool)
  : result (list (Dimension * Z) * bool) :=
  match dle with
  | [] => Ok (dle_args, maybe_autotune)
  | i :: rest =>
      match resolved_extent dim_sizes (original_dim i) with
      | None => Err AssertionError
      | Some dim_size =>
          match block_value i with
          | Some (DerivedValue f) =>
              bind_block_sizes rest dim_sizes
                (od_set (argument i) (f dim_size) dle_args) maybe_autotune
          | Some (FixedValue v) =>
              if negb (v =? 0) then
                bind_block_sizes rest dim_sizes
                  (od_set (argument i) v dle_args) false
              else
                bind_block_sizes rest dim_sizes
                  (od_set (argument i) dim_size dle_args) maybe_autotune
          | None =>
              bind_block_sizes rest dim_sizes
                (od_set (argument i) dim_size dle_args) maybe_autotune
          end
      end
  end.

(** "Insert loop size arguments from dimension values" *)
Fixpoint insert_dimension_sizes (d_args : list Dimension)
    (dim_sizes : list (Dimension * Z)) (arguments : list (string * value))
  : result (list (string * value)) :=
  match d_args with
  | [] => Ok arguments
  | d :: rest =>
      n ← od_item d dim_sizes;
      insert_dimension_sizes rest dim_sizes (od_set (dim_name d) (VInt n) arguments)
  end.

Definition symbolic_of (v : value) : option SymbolicData :=
  match v with VSymbolic f => Some f | _ => None end.

Definition dimension_of (v : value) : option Dimension :=
  match v with VDimension d => Some d | _ => None end.

(** The initial mapping [OrderedDict([(arg.name, arg) for arg in
    self.parameters])]. *)
Definition default_arguments (op : Operator) : list (string * value) :=
  od_of_items (map (fun p => (param_name p, param_value p)) (parameters op)).

(** [o_vals]: the keywords that name a data parameter. *)
Definition overriding_keywords (kwargs arguments : list (string * value))
  : list (string * value) :=
  let r_args := omap (fun kv : string * value =>
                        match kv.2 with VSymbolic _ => Some kv.1 | _ => None end)
                     arguments in
  od_of_items (List.filter (fun kv : string * value => bool_decide (kv.1 ∈ r_args)) kwargs).

(** [kwargs.get('autotune', False)] as a condition. *)
Definition autotune_requested (kwargs : list (string * value)) : bool :=
  match od_get "autotune"%string kwargs with Some v => truthy v | None => false end.

(** The first half of the binding: overrides and positional traversal.  The
    result is [arguments] and the [dim_sizes] inferred from the arrays. *)
Definition bind_data (op : Operator) (args : list Param)
    (kwargs : list (string * value))
  : result (list (string * value) * list (Dimension * Z)) :=
  let args := if (length args =? 0)%nat then parameters op else args in
  let arguments := default_arguments op in
  let o_vals := overriding_keywords kwargs arguments in
  arguments ← override_data o_vals arguments;
  let f_args := omap symbolic_of (od_values arguments) in
  bind_positional op kwargs (zip f_args args) arguments [].

(** The second half: parents of buffered dimensions, block sizes and the
    dimension-size arguments.  The result is [arguments], [dim_sizes] and
    [maybe_autotune]. *)
Definition bind_sizes (op : Operator) (arguments : list (string * value))
    (dim_sizes : list (Dimension * Z)) (maybe_autotune : bool)
  : result (list (string * value) * list (Dimension * Z) * bool) :=
  let dim_sizes := define_parents dim_sizes in
  '(dle_args, maybe_autotune) ←
     bind_block_sizes (dle_arguments op) dim_sizes [] maybe_autotune;
  let dim_sizes := od_update dim_sizes dle_args in
  let d_args := omap dimension_of (od_values arguments) in
  arguments ← insert_dimension_sizes d_args dim_sizes arguments;
  Ok (arguments, dim_sizes, maybe_autotune).

(** The binding before autotuning. *)
Definition bind_arguments (op : Operator) (args : list Param)
    (kwargs : list (string * value))
  : result (list (string * value) * list (Dimension * Z) * bool) :=
  let maybe_autotune := autotune_requested kwargs in
  '(arguments, dim_sizes) ← bind_data op args kwargs;
  bind_sizes op arguments dim_sizes maybe_autotune.

Definition arguments (opts : Options) (op : Operator) (args : list Param)
    (kwargs : list (string * value))
  : M (list (string * value) * list (Dimension * Z)) :=
  '(arguments, dim_sizes, maybe_autotune) ← lift (bind_arguments op args kwargs);
  arguments ← (if (maybe_autotune : bool) then _autotune opts op arguments
               else mret arguments);
  mret (od_update arguments (_extra_arguments op), dim_sizes).

(** [OperatorForeign.arguments] *)
Definition OperatorForeign_arguments (opts : Options) (op : Operator)
    (args : list Param) (kwargs : list (string * value))
  : M (list (string * value)) :=
  '(arguments, _) ← arguments opts op args kwargs;
  mret arguments.

(** ** [PerformanceSummary] and [_profile_summary] *)

(** [PerfEntry = namedtuple('PerfEntry', 'time gflopss oi itershape
    datashape')] *)
Record PerfEntry := {
  time : spec_float;
  gflopss : spec_float;
  oi : spec_float;
  itershape : list Z;
  datashape : list Z
}.

Definition setsection (summary : list (string * PerfEntry)) (key : string)
    (time gflopss oi : spec_float) (itershape datashape : list Z)
  : list (string * PerfEntry) :=
  od_set key {| time := time; gflopss := gflopss; oi := oi;
                itershape := itershape; datashape := datashape |} summary.

(** The comparison [a > b] of two lists of integers. *)
Fixpoint list_gt (a b : list Z) : bool :=
  match a, b with
  | x :: a', y :: b' => if x =? y then list_gt a' b' else y <? x
  | _ :: _, [] => true
  | [], _ => false
  end.

(** The comparison [a > b] of two [PerfEntry] tuples: the first field that
    differs decides. *)
Definition perf_gt (a b : PerfEntry) : bool :=
  if negb (SFeqb (time a) (time b)) then SFltb (time b) (time a)
  else if negb (SFeqb (gflopss a) (gflopss b)) then SFltb (gflopss b) (gflopss a)
  else if negb (SFeqb (oi a) (oi b)) then SFltb (oi b) (oi a)
  else if negb (bool_decide (itershape a = itershape b))
       then list_gt (itershape a) (itershape b)
  else list_gt (datashape a) (datashape b).

Definition entry_gt (x y : option PerfEntry) : bool :=
  match x, y with
  | Some a, Some b => perf_gt a b
  | Some _, None => true
  | _, _ => false
  end.

(** [dims[i]] *)
Definition section_dim (i : Iteration) : Dimension :=
  match it_dim i with
  | BufferedDim _ _ parent => parent
  | d => d
  end.

(** The body of the loop over [self.sections.items()]: the section's key and
    entry.  A [None] extent makes the product a [TypeError]. *)
Definition section_entry (op : Operator) (dim_sizes : list (Dimension * Z))
    (timings : list (string * spec_float))
    (itspace : list Iteration) (profile : Profile) : result (string * PerfEntry) :=
  time ← od_item (timer profile) timings;
  itershape ← mapM_result (fun i =>
      match it_extent i (od_get (section_dim i) dim_sizes) with
      | Some n => Ok n
      | None => Err TypeError
      end) itspace;
  iterspace ← reduce_mul itershape;
  flops ← py_float (ops profile * iterspace);
  gflops ← py_truediv_int flops (10 ^ 9);
  datashape ← mapM_result (fun i =>
      match dim_size (it_dim i) with
      | Some n => if negb (n =? 0) then Ok n else od_item (section_dim i) dim_sizes
      | None => od_item (section_dim i) dim_sizes
      end) itspace;
  dataspace ← reduce_mul datashape;
  let traffic := memory profile * dataspace * itemsize (dtype_of op) in
  oi ← py_truediv_int flops traffic;
  gflopss ← py_truediv gflops time;
  Ok (timer profile,
      {| time := time; gflopss := gflopss; oi := oi;
         itershape := itershape; datashape := datashape |}).

Fixpoint summarize_sections (op : Operator) (dim_sizes : list (Dimension * Z))
    (timings : list (string * spec_float))
    (sections : list (list Iteration * Profile))
    (summary : list (string * PerfEntry)) : result (list (string * PerfEntry)) :=
  match sections with
  | [] => Ok summary
  | (itspace, profile) :: rest =>
      '(key, e) ← section_entry op dim_sizes timings itspace profile;
      summarize_sections op dim_sizes timings rest
        (setsection summary key (time e) (gflopss e) (oi e) (itershape e) (datashape e))
  end.

(** "Rename the most time consuming section as 'main'" *)
Definition rename_main (summary : list (string * PerfEntry))
  : result (list (string * PerfEntry)) :=
  k ← py_select entry_gt (fun k => od_get k summary) (od_keys summary);
  '(e, summary) ← od_pop k summary;
  Ok (od_set "main"%string e summary).

Definition OperatorCore_profile_summary (op : Operator)
    (dim_sizes : list (Dimension * Z)) (timings : list (string * spec_float))
  : result (list (string * PerfEntry)) :=
  summary ← summarize_sections op dim_sizes timings (sections op) [];
  rename_main summary.

(** [self._profile_summary]: [OperatorBasic] returns an empty summary. *)
Definition _profile_summary (op : Operator) (dim_sizes : list (Dimension * Z))
  : M (list (string * PerfEntry)) :=
  match cls op with
  | OperatorCore =>
      st ← get_state;
      lift (OperatorCore_profile_summary op dim_sizes (profiler_timings st))
  | _ => mret []
  end.

(** ** [OperatorCore.apply] and [OperatorCore.__call__] *)

Definition apply (opts : Options) (op : Operator) (args : list Param)
    (kwargs : list (string * value)) : M (list (string * PerfEntry)) :=
  '(arguments, dim_sizes) ← arguments opts op args kwargs;
  _ ← invoke op arguments;
  summary ← _profile_summary op dim_sizes;
  mret summary.

(** What a Python call returns: the value of a [return] statement, or [None]
    when the function body ends without one. *)
Inductive returned (A : Type) : Type :=
| Return (a : A)
| ReturnNone.
Arguments Return {A} a.
Arguments ReturnNone {A}.

(** [__call__] evaluates [self.apply(...)] as a statement. *)
Definition __call__ (opts : Options) (op : Operator) (args : list Param)
    (kwargs : list (string * value)) : M (returned (list (string * PerfEntry))) :=
  _ ← apply opts op args kwargs;
  mret ReturnNone.

(** ** Vocabulary of the statements *)

(** [b] is the first item of [l] with the best key: the items before it
    have a strictly worse key and no item after it has a better one. *)
Definition first_best {A B} (better : B -> B -> bool) (key : A -> B)
    (l : list A) (b : A) : Prop :=
  exists before after,
    l = before ++ b :: after /\
    (forall x, x ∈ before -> better (key b) (key x) = true) /\
    (forall x, x ∈ after -> better (key x) (key b) = false).

(** A binary64 value other than NaN. *)
Definition is_number (x : spec_float) : Prop := f64_is_nan x = false.

(** A size [n] agrees with the keywords for [dim]: no keyword has the
    dimension's name, or the keyword's value is [n]. *)
Definition keyword_size (kwargs : list (string * value)) (dim : Dimension) (n : Z) : Prop :=
  match od_get (dim_name dim) kwargs with
  | None => True
  | Some v => value_as_int v = Ok n
  end.

(** The symbolic object bound to the data parameter [f]: the keyword named
    like [f] when it is a symbolic object, else [f] itself. *)
Definition supplied (kwargs : list (string * value)) (f : SymbolicData)
  : SymbolicData :=
  match od_get (sd_name f) kwargs with
  | Some (VSymbolic g) => g
  | _ => f
  end.

(** The loop engine fixed the block size: [i.value] is a nonzero integer. *)
Definition fixes_block_size (i : DleArgument) : bool :=
  match block_value i with
  | Some (FixedValue v) => negb (v =? 0)
  | _ => false
  end.

(** The value that the binding gives a blocking parameter whose governing
    dimension has extent [extent]. *)
Definition block_size_of (i : DleArgument) (extent : Z) : Z :=
  match block_value i with
  | Some (FixedValue v) => if negb (v =? 0) then v else extent
  | Some (DerivedValue f) => f extent
  | None => extent
  end.

(** *** Autotuning *)

(** The resolved extent of the governing dimension of a blocking parameter,
    as the argument mapping holds it. *)
Definition governing_extent (arguments : list (string * value)) (i : DleArgument)
  : option Z :=
  match od_get (dim_name (original_dim i)) arguments with
  | Some (VInt n) => Some n
  | _ => None
  end.

(** The trial value of the blocking parameter [k] exceeds the extent of its
    governing dimension. *)
Definition exceeds_extent (mapper : list (string * DleArgument))
    (arguments : list (string * value)) (blocksize : list (string * Z))
    (k : string) : bool :=
  match od_get k blocksize, od_get k mapper with
  | Some val, Some i =>
      match governing_extent arguments i with
      | Some n => negb (val <=? n)
      | None => true
      end
  | _, _ => false
  end.

(** A candidate is legal when none of its values exceeds its extent. *)
Definition legal (op : Operator) (arguments : list (string * value))
    (blocksize : list (string * Z)) : bool :=
  negb (existsb (exceeds_extent (blocking_mapper op) arguments blocksize)
          (od_keys blocksize)).

(** The order in which candidates enter [timings]: first occurrences. *)
Definition discovery_order (candidates : list (list (string * Z)))
  : list (list (string * Z)) :=
  od_keys (od_of_items (map (fun c => (c, tt)) candidates)).

(** [v] has a [copy] method. *)
Definition has_copy (v : value) : Prop :=
  match v with
  | VArray _ | VSymbolic _ | VDimension _ => True
  | _ => False
  end.

(** What the argument mapping of an operator with blocking satisfies when
    the autotuner is entered: it is a dictionary; the blocking parameters
    are among its keys; the governing dimension of each blocking parameter
    is bound to an integer, from which [Iteration.end] returns that
    integer; the name of that dimension is not the name of a blocking
    parameter, of a squeezable dimension or of the profiler structure; the
    outputs can be copied. *)
Record autotune_wf (op : Operator) (arguments : list (string * value)) : Prop := {
  wf_dict : NoDup (od_keys arguments);
  wf_blocking : forall k, k ∈ od_keys (blocking_mapper op) -> k ∈ od_keys arguments;
  wf_governing : forall k i, od_get k (blocking_mapper op) = Some i ->
    (dim_name (original_dim i) ∉ od_keys (blocking_mapper op)) /\
    (dim_name (original_dim i) ∉ squeezable op) /\
    (dim_name (original_dim i) ∉ od_keys (_extra_arguments op)) /\
    exists n, od_get (dim_name (original_dim i)) arguments = Some (VInt n) /\
              it_end (iteration i) (Some (VInt n)) = Some n;
  wf_outputs : forall k v, k ∈ output_fields op ->
    od_get k arguments = Some v -> has_copy v
}.

(** The governing dimensions of the blocking parameters are bound in
    [at_arguments] as they are in the caller's mapping. *)
Definition governing_kept (op : Operator) (arguments at_arguments : list (string * value))
  : Prop :=
  forall k i, od_get k (blocking_mapper op) = Some i ->
    od_get (dim_name (original_dim i)) at_arguments
    = od_get (dim_name (original_dim i)) arguments.

(** The total time that the profiler reports after a native call is a
    number. *)
Definition reports_numbers (op : Operator) : Prop :=
  forall args st,
    is_number (py_sum (od_values (profiler_timings (cfunction op args st)))).

(** The native routine writes no buffer other than those bound to its output
    parameters, when called with the operator's signature (the keys of
    [arguments] followed by the profiler structure). *)
Definition writes_only_outputs (op : Operator) (arguments : list (string * value))
  : Prop :=
  forall (m : list (string * value)) (st : State) (l : nat),
    od_keys m = od_keys (od_update arguments (_extra_arguments op)) ->
    (forall k a, k ∈ output_fields op -> od_get k m = Some (VArray a) ->
                 arr_loc a <> l) ->
    heap (cfunction op (od_values m) st) !! l = heap st !! l.

(** The arrays that [m] binds to output parameters are not buffers of
    [h]. *)
Definition outputs_private (op : Operator) (h : gmap nat (list spec_float))
    (m : list (string * value)) : Prop :=
  forall k a, k ∈ output_fields op -> od_get k m = Some (VArray a) ->
              h !! arr_loc a = None.

(** *** Performance accounting *)

(** The product of a list of extents. *)
Definition product (l : list Z) : Z := fold_right Z.mul 1 l.

(** Floating-point operations: operation count times iteration count. *)
Definition flops_of (ops : Z) (iteration_extents : list Z) : Z :=
  ops * product iteration_extents.

(** Memory traffic in bytes: memory accesses times data points times
    element size. *)
Definition traffic_of (memory : Z) (data_extents : list Z) (element_size : Z) : Z :=
  memory * product data_extents * element_size.

(** The realized extent of the loop [i], and the extent of its data. *)
Definition realized_extent (dim_sizes : list (Dimension * Z)) (i : Iteration)
  : option Z :=
  it_extent i (od_get (section_dim i) dim_sizes).

Definition data_extent (dim_sizes : list (Dimension * Z)) (i : Iteration)
  : option Z :=
  match dim_size (it_dim i) with
  | Some n => if negb (n =? 0) then Some n else od_get (section_dim i) dim_sizes
  | None => od_get (section_dim i) dim_sizes
  end.

(** ** The examples of the specification *)

Definition dim_x : Dimension := Dim "x" None.
Definition dim_y : Dimension := Dim "y" None.

(** An array of shape [(10, 20)] for a parameter indexed by [(x, y)]. *)
Definition data_u : SymbolicData :=
  {| sd_name := "u"; sd_shape := [10; 20]; sd_indices := [dim_x; dim_y];
     sd_data := Some {| arr_loc := 0%nat; arr_shape := [10; 20] |} |}.

(** A loop whose end is the extent handed to it and whose extent is the
    size handed to it. *)
Definition plain_loop (d : Dimension) : Iteration :=
  {| it_dim := d; is_Sequential := false;
     it_end := fun handle => match handle with Some (VInt n) => Some n | _ => None end;
     it_extent := fun finish => finish |}.

(** A native routine that only writes the profiler: it reports [t] seconds
    for the timer [lname]. *)
Definition timed_routine (lname : string) (t : spec_float) (_ : list value)
    (st : State) : State :=
  {| heap := heap st; profiler_timings := [(lname, t)];
     invocations := invocations st |}.

Definition millisecond : spec_float := f64_div (f64_of_Z 1) (f64_of_Z 1000).

(** One section of two operations and one memory access per point over
    [(x, y)], in double precision. *)
Definition example_operator : Operator :=
  {| cls := OperatorCore;
     parameters := [PData data_u; PDim dim_x; PDim dim_y];
     dtype_of := np_float64;
     sections := [([plain_loop dim_x; plain_loop dim_y],
                   {| timer := "loop_x_0"; ops := 2; memory := 1 |})];
     dle_arguments := [];
     has_applied_blocking := false;
     needs_aggressive_autotuning := false;
     output_fields := ["u"];
     body_iterations := [plain_loop dim_x; plain_loop dim_y];
     s_name := "timings";
     cfunction := timed_routine "loop_x_0" millisecond |}.

(** An operator whose loop over [x] is blocked; [v] is the value the loop
    engine gives the blocking parameter. *)
Definition x_block_size : Dimension := Dim "x_block_size" None.

Definition grid : SymbolicData :=
  {| sd_name := "u"; sd_shape := [40; 20]; sd_indices := [dim_x; dim_y];
     sd_data := Some {| arr_loc := 0%nat; arr_shape := [40; 20] |} |}.

Definition blocked_x (v : option BlockValue) : DleArgument :=
  {| argument := x_block_size; original_dim := dim_x; block_value := v;
     iteration := plain_loop dim_x |}.

(** The seconds a trial takes with block size [b]. *)
Definition trial_seconds (b : Z) : Z :=
  if b =? 8 then 5 else if b =? 16 then 3 else if b =? 32 then 4 else 1.

(** A native routine for the signature [(u, x, y, x_block_size, timings)]:
    it writes the buffer of [u] and reports [trial_seconds] of the block
    size. *)
Definition blocked_routine (args : list value) (st : State) : State :=
  let b := match args !! 3%nat with Some (VInt b) => b | _ => 0 end in
  {| heap := match args !! 0%nat with
             | Some (VArray a) => <[arr_loc a := [f64_of_Z b]]> (heap st)
             | _ => heap st
             end;
     profiler_timings := [("loop_x_0"%string, f64_of_Z (trial_seconds b))];
     invocations := invocations st |}.

Definition blocked_operator (v : option BlockValue) : Operator :=
  {| cls := OperatorCore;
     parameters := [PData grid; PDim dim_x; PDim dim_y; PDim x_block_size];
     dtype_of := np_float64;
     sections := [([plain_loop dim_x; plain_loop dim_y],
                   {| timer := "loop_x_0"; ops := 2; memory := 1 |})];
     dle_arguments := [blocked_x v];
     has_applied_blocking := true;
     needs_aggressive_autotuning := false;
     output_fields := ["u"];
     body_iterations := [plain_loop dim_x; plain_loop dim_y];
     s_name := "timings";
     cfunction := blocked_routine |}.

(** The candidates of the example: 8, 16 and 32 fit the extent 40 of [x],
    64 does not. *)
Definition trial_options : Options :=
  {| at_squeezer := 3; at_blocksize := [8; 16; 32; 64] |}.

(** The mapping that the binding of [blocked_operator None] produces, with
    which the autotuner is entered. *)
Definition blocked_mapping : list (string * value) :=
  [("u", VArray {| arr_loc := 0%nat; arr_shape := [40; 20] |});
   ("x", VInt 40); ("y", VInt 20); ("x_block_size", VInt 40)].

(** Candidates that are all larger than the extent 40 of [x]. *)
Definition large_options : Options :=
  {| at_squeezer := 3; at_blocksize := [64; 128] |}.

(** The example of the performance accounting: two operations and one
    memory access per point, iteration shape [(10, 10)], 8-byte elements,
    one millisecond. *)
Definition square : SymbolicData :=
  {| sd_name := "u"; sd_shape := [10; 10]; sd_indices := [dim_x; dim_y];
     sd_data := Some {| arr_loc := 0%nat; arr_shape := [10; 10] |} |}.

Definition square_operator : Operator :=
  {| cls := OperatorCore;
     parameters := [PData square; PDim dim_x; PDim dim_y];
     dtype_of := np_float64;
     sections := [([plain_loop dim_x; plain_loop dim_y],
                   {| timer := "loop_x_0"; ops := 2; memory := 1 |})];
     dle_arguments := [];
     has_applied_blocking := false;
     needs_aggressive_autotuning := false;
     output_fields := ["u"];
     body_iterations := [plain_loop dim_x; plain_loop dim_y];
     s_name := "timings";
     cfunction := timed_routine "loop_x_0" millisecond |}.

Definition empty_state : State :=
  {| heap := {[ 0%nat := [] ]}; profiler_timings := []; invocations := [] |}.

(** ** Vocabulary of the further properties *)

(** [dim.parent], which only a buffered dimension has. *)
Definition dim_parent (d : Dimension) : option Dimension :=
  match d with
  | BufferedDim _ _ parent => Some parent
  | Dim _ _ => None
  end.

(** The body of the loop "Ensure parent for buffered dims is defined". *)
Definition define_parent (dim_sizes : list (Dimension * Z)) (dim : Dimension)
  : list (Dimension * Z) :=
  match dim with
  | BufferedDim _ _ parent =>
      if od_contains parent dim_sizes then dim_sizes
      else match od_get dim dim_sizes with
           | Some n => od_set parent n dim_sizes
           | None => dim_sizes
           end
  | Dim _ _ => dim_sizes
  end.

(** That loop over [buf_dims], in whatever order the plain dictionary lists
    its buffered keys. *)
Definition define_parents_in (buf_dims : list Dimension)
    (dim_sizes : list (Dimension * Z)) : list (Dimension * Z) :=
  fold_left define_parent buf_dims dim_sizes.

(** An operator that steps through the buffered time dimension [t] (a
    sequential loop) around a blocked loop over [x]; it is called with 100
    time steps. *)
Definition time_dim : Dimension := Dim "time" None.
Definition t_buffered : Dimension := BufferedDim "t" None time_dim.

Definition stepping_loop : Iteration :=
  {| it_dim := t_buffered; is_Sequential := true;
     it_end := fun handle => match handle with Some (VInt n) => Some n | _ => None end;
     it_extent := fun finish => finish |}.

Definition stepping_operator : Operator :=
  {| cls := OperatorCore;
     parameters := [PData grid; PDim time_dim; PDim dim_x; PDim dim_y;
                    PDim x_block_size];
     dtype_of := np_float64;
     sections := [([stepping_loop; plain_loop dim_x; plain_loop dim_y],
                   {| timer := "loop_x_0"; ops := 2; memory := 1 |})];
     dle_arguments := [blocked_x None];
     has_applied_blocking := true;
     needs_aggressive_autotuning := false;
     output_fields := ["u"];
     body_iterations := [stepping_loop; plain_loop dim_x; plain_loop dim_y];
     s_name := "timings";
     cfunction := timed_routine "loop_x_0" millisecond |}.

Definition stepping_mapping : list (string * value) :=
  [("u", VArray {| arr_loc := 0%nat; arr_shape := [40; 20] |});
   ("time", VInt 100); ("x", VInt 40); ("y", VInt 20); ("x_block_size", VInt 40)].

(** ** [OperatorCore._profile_sections] *)

Module Profiling.
Section ProfileSections.
(** The visitors and the estimators belong to other modules.  [J] is the
    type of the [Iteration] nodes, which are dictionary keys here;
    [FindSections expr] lists the keys of [FindSections().visit(expr)], the
    iteration spaces of [expr]; [index j] is [j.index]; [estimate_cost j]
    and [estimate_memory j] are the estimates for the stencils of the
    expressions found under [j]. *)
Context {node J : Type} `{EqDecision J}.
Variable FindSections : node -> list (list J).
Variable IsPerfectIteration : J -> bool.
Variable index : J -> string.
Variable estimate_cost : J -> Z.
Variable estimate_memory : J -> Z.

(** ['%d' % n] for a length [n] *)
Definition decimal (n : nat) : string := NilEmpty.string_of_uint (Nat.to_uint n).

(** ['loop_%s_%d' % (j.index, n)] *)
Definition loop_name (j : J) (n : nat) : string :=
  "loop_" +:+ index j +:+ "_" +:+ decimal n.

(** What the method builds: [mapper] (each timed iteration with the [lname]
    of its [TimedList]), [self.profiler.t_fields] (the names; every field is
    a [c_double]) and [self.sections]. *)
Record Timed := {
  mapper : list (J * string);
  t_fields : list string;
  sections : list (list J * Profile)
}.

(** The loop [for j in itspace], left at the first iteration that gets a
    timer; [js] is what remains of [itspace]. *)
Fixpoint time_section (itspace js : list J) (st : Timed) : Timed :=
  match js with
  | [] => st
  | j :: js' =>
      if IsPerfectIteration j && negb (od_contains j (mapper st)) then
        let lname := loop_name j (length (mapper st)) in
        {| mapper := od_set j lname (mapper st);
           t_fields := t_fields st ++ [lname];
           sections := od_set itspace
                         {| timer := lname; ops := estimate_cost j;
                            memory := estimate_memory j |}
                         (sections st) |}
      else time_section itspace js' st
  end.

(** The loops over [enumerate(nodes)] and over the iteration spaces of each
    node.  [self.sections] is empty when the method is called. *)
Definition _profile_sections (nodes : list node) (fields : list string) : Timed :=
  fold_left (fun st expr =>
               fold_left (fun st itspace => time_section itspace itspace st)
                         (FindSections expr) st)
            nodes {| mapper := []; t_fields := fields; sections := [] |}.

(** What the loops keep true: the [n]-th timed iteration is perfect and its
    name carries the number [n]; no iteration is timed twice; the fields are
    the names, appended in order; the sections have distinct timers, and
    the timer of a section is that of one of its own iterations, whose
    estimates the section records. *)
Record timed_wf (fields : list string) (st : Timed) : Prop := {
  wf_names : forall n j name,
    mapper st !! n = Some (j, name) ->
    name = loop_name j n /\ IsPerfectIteration j = true;
  wf_keys : NoDup (od_keys (mapper st));
  wf_fields : t_fields st = fields ++ (mapper st).*2;
  wf_timers : NoDup (map (fun s : list J * Profile => timer s.2) (sections st));
  wf_sections : forall itspace profile,
    (itspace, profile) ∈ sections st ->
    exists j, j ∈ itspace /\ (j, timer profile) ∈ mapper st /\
              ops profile = estimate_cost j /\ memory profile = estimate_memory j
}.
End ProfileSections.
End Profiling.

(** ** [OperatorBasic.compile] and [OperatorBasic.cfunction] *)

Module Jit.
Section Jit.
(** [jit_compile] and [load] belong to [devito.compiler]:
    [jit_compile ccode compiler] compiles the code and returns the base name
    of the shared object, [load basename compiler] loads it, and
    [symbol lib name] is [getattr(lib, name)].  The calls to the first two
    are recorded in a log, oldest first.  [data_dtype v] is [v.dtype]. *)
Context {Code Compiler Library Pointer : Type}.
Variable jit_compile : Code -> Compiler -> string.
Variable load : string -> Compiler -> Library.
Variable symbol : Library -> string -> Pointer.
Variable data_dtype : SymbolicData -> dtype.

Inductive event : Type :=
| Compiled (basename : string)
| Loaded (basename : string).

Inductive ctype : Set :=
| c_int
| ndpointer (t : dtype).

(** The loaded library, with the [name] attribute that [cfunction] gives
    it. *)
Record Lib := { lib_handle : Library; lib_name : string }.

(** The function pointer with its [argtypes]. *)
Record CFunction := { pointer : Pointer; argtypes : list ctype }.

(** [self._lib] and [self._cfunction], both [None] after [__init__]. *)
Record JitState := {
  _lib : option Lib;
  _cfunction : option CFunction;
  log : list event
}.

Definition initial : JitState := {| _lib := None; _cfunction := None; log := [] |}.

(** [self.ccode], [self.compiler], [self.name] and [self.parameters] *)
Variables (ccode : Code) (compiler : Compiler) (name : string).
Variable parameters : list Param.

Definition compile (st : JitState) : string * JitState :=
  match _lib st with
  | None =>
      let basename := jit_compile ccode compiler in
      (basename, {| _lib := None; _cfunction := _cfunction st;
                    log := log st ++ [Compiled basename] |})
  | Some lib => (lib_name lib, st)
  end.

Definition cfunction (st : JitState) : CFunction * JitState :=
  let '(lib, st) :=
    match _lib st with
    | None =>
        let '(basename, st) := compile st in
        let lib := {| lib_handle := load basename compiler; lib_name := basename |} in
        (lib, {| _lib := Some lib; _cfunction := _cfunction st;
                 log := log st ++ [Loaded basename] |})
    | Some lib => (lib, st)
    end in
  match _cfunction st with
  | None =>
      let f := {| pointer := symbol (lib_handle lib) name;
                  argtypes := map (fun v => match v with
                                            | PDim _ => c_int
                                            | PData f => ndpointer (data_dtype f)
                                            end) parameters |} in
      (f, {| _lib := _lib st; _cfunction := Some f; log := log st |})
  | Some f => (f, st)
  end.
End Jit.
End Jit.

(** ** [StencilKernel.__new__] *)

Section StencilKernel.
(** The keywords hold Python objects of any kind; [truth v] is the truth
    value of [v], and [get_compiler_from_env] the compiler that the
    function of that name returns. *)
Context {V : Type}.
Variable truth : V -> bool.
Variable get_compiler_from_env : V.

(** The class that is instantiated, the [compiler] attribute it is given,
    and the keywords handed to [__init__]. *)
Definition StencilKernel_new (kwargs : list (string * V))
  : OperatorClass * V * list (string * V) :=
  let external := match od_get "external" kwargs with
                  | Some v => truth v
                  | None => false
                  end in
  let kwargs := od_remove "external" kwargs in
  let cls := if external then OperatorForeign else OperatorCore in
  let compiler := default get_compiler_from_env (od_get "compiler" kwargs) in
  let kwargs := od_remove "compiler" kwargs in
  (cls, compiler, kwargs).
End StencilKernel.

(** ** The views of [PerformanceSummary] *)

Definition PerformanceSummary_gflopss (summary : list (string * PerfEntry))
  : list (string * spec_float) :=
  od_of_items (map (fun kv : string * PerfEntry => (kv.1, gflopss kv.2)) summary).

Definition PerformanceSummary_oi (summary : list (string * PerfEntry))
  : list (string * spec_float) :=
  od_of_items (map (fun kv : string * PerfEntry => (kv.1, oi kv.2)) summary).

Definition PerformanceSummary_timings (summary : list (string * PerfEntry))
  : list (string * spec_float) :=
  od_of_items (map (fun kv : string * PerfEntry => (kv.1, time kv.2)) summary).

(** ** [set_dle_mode] *)

(** The Python values that a DLE mode is made of. *)
Inductive pyobj : Type :=
| PyNone
| PyBool (b : bool)
| PyStr (s : string)
| PyTuple (items : list pyobj)
| PyDict (entries : list (string * pyobj)).

(** Truth value, as [if not mode:] computes it. *)
Definition py_truth (o : pyobj) : bool :=
  match o with
  | PyNone => false
  | PyBool b => b
  | PyStr s => match s with EmptyString => false | String _ _ => true end
  | PyTuple items => match items with [] => false | _ :: _ => true end
  | PyDict entries => match entries with [] => false | _ :: _ => true end
  end.

Section DleMode.
(** [as_tuple] belongs to [devito.tools]; [openmp] is [compiler.openmp]. *)
Variable as_tuple : pyobj -> list pyobj.
Variable openmp : bool.

(** When the last item of the mode is a dictionary, the source writes
    ['openmp'] into that very dictionary and returns the tuple that holds
    it. *)
Definition set_dle_mode (mode : pyobj) : result pyobj :=
  if negb (py_truth mode) then Ok (PyStr "noop")
  else
    let mode := as_tuple mode in
    params ← Scheduler.py_last mode;
    match params with
    | PyDict entries =>
        Ok (PyTuple (removelast mode
                     ++ [PyDict (od_set "openmp" (PyBool openmp) entries)]))
    | _ => Ok (PyTuple (mode ++ [PyDict [("openmp", PyBool openmp)]]))
    end.
End DleMode.

(** ** The positional traversal on the objects themselves

    [infer_dimension] keeps the sizes as integers, which is what the later
    steps of the binding compute with.  The source keeps in [dim_sizes] the
    object that the keyword holds, whatever its class:
    [dim_sizes[dim] = kwargs[dim.name]].  The definitions of this section
    follow the same loops on the objects: a keyword is stored unchanged, an
    extent read from an array is stored as the integer it is, and
    [dim_sizes[dim] <= shape[i]] compares the stored object with that
    integer. *)

Section ObjectTraversal.
(** [v <= s] for an object [v] that is neither an [int] nor a [bool]: the
    comparison that the class of [v] and the interpreter define (an array
    compares element by element, [None] is ordered by Python 2 and rejected
    by Python 3). *)
Variable compare_other : value -> Z -> result bool.

(** [v <= s] as the condition of an [assert]. *)
Definition le_extent (v : value) (s : Z) : result bool :=
  match v with
  | VInt n => Ok (n <=? s)
  | VBool b => Ok ((if b then 1 else 0) <=? s)
  | _ => compare_other v s
  end.

(** The body of the loop over [enumerate(f.indices)]. *)
Definition infer_dimension_obj (kwargs : list (string * value)) (shape : list Z)
    (i : nat) (dim : Dimension) (dim_sizes : list (Dimension * value))
  : result (list (Dimension * value)) :=
  match dim_size dim with
  | None =>
      let dim_sizes := match od_get (dim_name dim) kwargs with
                       | Some v => od_set dim v dim_sizes
                       | None => dim_sizes
                       end in
      match od_get dim dim_sizes with
      | Some n =>
          if negb (is_Buffered dim) then
            s ← py_index shape i;
            c ← le_extent n s;
            _ ← py_assert c;
            Ok dim_sizes
          else Ok dim_sizes
      | None =>
          s ← py_index shape i;
          Ok (od_set dim (VInt s) dim_sizes)
      end
  | Some size =>
      if negb (is_Buffered dim) then
        s ← py_index shape i;
        _ ← py_assert (size =? s);
        Ok dim_sizes
      else Ok dim_sizes
  end.

Fixpoint infer_indices_obj (kwargs : list (string * value)) (shape : list Z)
    (i : nat) (indices : list Dimension) (dim_sizes : list (Dimension * value))
  : result (list (Dimension * value)) :=
  match indices with
  | [] => Ok dim_sizes
  | dim :: rest =>
      dim_sizes ← infer_dimension_obj kwargs shape i dim dim_sizes;
      infer_indices_obj kwargs shape (S i) rest dim_sizes
  end.

(** The loop over [zip(f_args, args)]. *)
Fixpoint bind_positional_obj (op : Operator) (kwargs : list (string * value))
    (pairs : list (SymbolicData * Param))
    (arguments : list (string * value)) (dim_sizes : list (Dimension * value))
  : result (list (string * value) * list (Dimension * value)) :=
  match pairs with
  | [] => Ok (arguments, dim_sizes)
  | (f, arg) :: rest =>
      let arguments := od_set (param_name arg) (_arg_data op f) arguments in
      shape ← _arg_shape op f;
      dim_sizes ← infer_indices_obj kwargs shape 0 (sd_indices f) dim_sizes;
      bind_positional_obj op kwargs rest arguments dim_sizes
  end.
End ObjectTraversal.

(** Integer sizes as the objects they are. *)
Definition as_objects (dim_sizes : list (Dimension * Z)) : list (Dimension * value) :=
  map (fun kv : Dimension * Z => (kv.1, VInt kv.2)) dim_sizes.

(** The object [n] is the one that the keyword named like [dim] holds, if
    there is such a keyword. *)
Definition keyword_object (kwargs : list (string * value)) (dim : Dimension)
    (n : value) : Prop :=
  match od_get (dim_name dim) kwargs with
  | None => True
  | Some v => n = v
  end.

(** ** Further examples *)

(** A second array of shape [(10, 20)] indexed by [(x, y)], and an operator
    over both arrays. *)
Definition data_v : SymbolicData :=
  {| sd_name := "v"; sd_shape := [10; 20]; sd_indices := [dim_x; dim_y];
     sd_data := Some {| arr_loc := 1%nat; arr_shape := [10; 20] |} |}.

Definition pair_operator : Operator :=
  {| cls := OperatorCore;
     parameters := [PData data_u; PData data_v; PDim dim_x; PDim dim_y];
     dtype_of := np_float64;
     sections := [([plain_loop dim_x; plain_loop dim_y],
                   {| timer := "loop_x_0"; ops := 2; memory := 1 |})];
     dle_arguments := [];
     has_applied_blocking := false;
     needs_aggressive_autotuning := false;
     output_fields := ["u"];
     body_iterations := [plain_loop dim_x; plain_loop dim_y];
     s_name := "timings";
     cfunction := timed_routine "loop_x_0" millisecond |}.

(** An array of shape [(10, 20)] that belongs to no parameter. *)
Definition other_array : ndarray := {| arr_loc := 7%nat; arr_shape := [10; 20] |}.

(** A comparison that accepts no object. *)
Definition unordered (_ : value) (_ : Z) : result bool := Err TypeError.

(** Two buffer slots of ten points: an array of shape [(2, 10)] indexed by
    the buffered dimension [t] and by [x]. *)
Definition slots : SymbolicData :=
  {| sd_name := "w"; sd_shape := [2; 10]; sd_indices := [t_buffered; dim_x];
     sd_data := Some {| arr_loc := 2%nat; arr_shape := [2; 10] |} |}.

(** An operator whose loops over [x] and [y] are both blocked, built with
    aggressive autotuning. *)
Definition y_block_size : Dimension := Dim "y_block_size" None.

Definition blocked_y (v : option BlockValue) : DleArgument :=
  {| argument := y_block_size; original_dim := dim_y; block_value := v;
     iteration := plain_loop dim_y |}.

Definition aggressive_operator : Operator :=
  {| cls := OperatorCore;
     parameters := [PData grid; PDim dim_x; PDim dim_y; PDim x_block_size;
                    PDim y_block_size];
     dtype_of := np_float64;
     sections := [([plain_loop dim_x; plain_loop dim_y],
                   {| timer := "loop_x_0"; ops := 2; memory := 1 |})];
     dle_arguments := [blocked_x None; blocked_y None];
     has_applied_blocking := true;
     needs_aggressive_autotuning := true;
     output_fields := ["u"];
     body_iterations := [plain_loop dim_x; plain_loop dim_y];
     s_name := "timings";
     cfunction := blocked_routine |}.

(** * Properties *)

(** ** The error monad *)

Lemma result_bind_Ok {A B} (f : A -> result B) (r : result A) (b : B) :
  r ≫= f = Ok b <-> exists a, r = Ok a /\ f a = Ok b.
Proof.
  destruct r as [a|e]; simpl; split.
  - intros Hf. exists a. done.
  - intros (a' & [= ->] & Hf). done.
  - discriminate.
  - intros (a' & [=] & _).
Qed.

Lemma result_bind_Err {A B} (f : A -> result B) (r : result A) (e : exn) :
  r = Err e -> r ≫= f = Err e.
Proof. intros ->. done. Qed.

(** ** [_retrieve_dtype] *)

Lemma remove_dups_singleton (l : list dtype) (d : dtype) :
  remove_dups l = [d] <-> l <> [] /\ forall t, t ∈ l -> t = d.
Proof.
  split.
  - intros Hl. split.
    + intros ->. discriminate.
    + intros t Ht. apply elem_of_remove_dups in Ht. rewrite Hl in Ht.
      by apply list_elem_of_singleton in Ht.
  - intros [Hne Hall].
    pose proof (NoDup_remove_dups l) as Hnd.
    assert (Hall' : forall t, t ∈ remove_dups l -> t = d).
    { intros t Ht. apply Hall. by apply elem_of_remove_dups. }
    assert (Hne' : remove_dups l <> []).
    { destruct l as [|t l]; [done|].
      intros Hnil. assert (Ht : t ∈ remove_dups (t :: l)).
      { apply elem_of_remove_dups. left. }
      rewrite Hnil in Ht. by apply not_elem_of_nil in Ht. }
    destruct (remove_dups l) as [|a [|b r]]; [done| |].
    + f_equal. apply Hall'. left.
    + exfalso. apply NoDup_cons in Hnd as [Hnotin _].
      apply Hnotin. rewrite (Hall' a), (Hall' b); [left| |]; [right; left|left].
Qed.

Section RetrieveDtypeFacts.
Context {equation stencil operator_body : Type}.
Variable indexify : equation -> stencil.
Variable xreplace : stencil -> stencil.
Variable lhs_dtype : stencil -> dtype.
Variable build : dtype -> list stencil -> result operator_body.

Lemma retrieve_dtype_Ok (stencils : list stencil) (d : dtype) :
  _retrieve_dtype lhs_dtype stencils = Ok d <->
  stencils <> [] /\ forall s, s ∈ stencils -> lhs_dtype s = d.
Proof.
  unfold _retrieve_dtype, py_set.
  assert (Hiff : remove_dups (map lhs_dtype stencils) = [d] <->
                 stencils <> [] /\ forall s, s ∈ stencils -> lhs_dtype s = d).
  { rewrite remove_dups_singleton. split.
    - intros [Hne Hall]. split.
      + intros ->. done.
      + intros s Hs. apply Hall. by apply list_elem_of_fmap_2.
    - intros [Hne Hall]. split.
      + destruct stencils; done.
      + intros t Ht. apply list_elem_of_fmap in Ht as (s & -> & Hs). by apply Hall. }
  rewrite <- Hiff. clear Hiff.
  destruct (remove_dups (map lhs_dtype stencils)) as [|a [|b r]]; simpl.
  - split; discriminate.
  - split; congruence.
  - split; discriminate.
Qed.

Lemma retrieve_dtype_Err (stencils : list stencil) (e : exn) :
  _retrieve_dtype lhs_dtype stencils = Err e -> e = RuntimeError.
Proof.
  unfold _retrieve_dtype, py_set.
  destruct (remove_dups (map lhs_dtype stencils)) as [|a [|b r]]; simpl; congruence.
Qed.

(** C10.  An operator is built only from a non-empty collection of
    stencils whose left-hand sides all have one data type.  From an empty
    collection, or from stencils with two distinct left-hand-side types,
    the constructor raises [RuntimeError] and returns no operator; an
    operator that was built has that one type as its [dtype]. *)
Theorem init_requires_single_dtype (stencils : list equation) :
  let lhss := map lhs_dtype (normalize indexify xreplace stencils) in
  ((stencils = [] \/ exists t1 t2, t1 ∈ lhss /\ t2 ∈ lhss /\ t1 <> t2) ->
     OperatorBasic_init indexify xreplace lhs_dtype build stencils
     = Err RuntimeError)
  /\ (forall op,
        OperatorBasic_init indexify xreplace lhs_dtype build stencils = Ok op ->
        stencils <> [] /\ forall t, t ∈ lhss -> t = built_dtype op)
  /\ (forall d,
        _retrieve_dtype lhs_dtype (normalize indexify xreplace stencils) = Ok d <->
        stencils <> [] /\ forall t, t ∈ lhss -> t = d).
Proof.
  intros lhss.
  assert (Hchar : forall d,
    _retrieve_dtype lhs_dtype (normalize indexify xreplace stencils) = Ok d <->
    stencils <> [] /\ forall t, t ∈ lhss -> t = d).
  { intros d. rewrite retrieve_dtype_Ok. subst lhss. unfold normalize. split.
    - intros [Hne Hall]. split.
      + intros ->. done.
      + intros t Ht. apply list_elem_of_fmap in Ht as (s & -> & Hs). by apply Hall.
    - intros [Hne Hall]. split.
      + destruct stencils; done.
      + intros s Hs. apply Hall. by apply list_elem_of_fmap_2. }
  split; [|split]; [| |exact Hchar].
  - intros Hbad. unfold OperatorBasic_init.
    destruct (_retrieve_dtype lhs_dtype (normalize indexify xreplace stencils))
      as [d|e] eqn:Hd.
    + exfalso. destruct (proj1 (Hchar d) eq_refl) as [Hne Hall].
      destruct Hbad as [->|(t1 & t2 & H1 & H2 & Hneq)]; [done|].
      apply Hneq. by rewrite (Hall t1), (Hall t2).
    + apply retrieve_dtype_Err in Hd as ->. done.
  - intros op Hop. unfold OperatorBasic_init in Hop.
    apply result_bind_Ok in Hop as (d & Hd & Hop).
    apply result_bind_Ok in Hop as (body & _ & [= <-]). simpl.
    by apply Hchar.
Qed.
End RetrieveDtypeFacts.

(** Two stencils of different element types build no operator. *)
Lemma init_requires_single_dtype_witness :
  OperatorBasic_init (fun t : dtype => t) (fun t => t) (fun t => t)
    (fun _ _ => Ok tt) [np_float32; np_float64] = Err RuntimeError.
Proof.
  apply (init_requires_single_dtype (fun t : dtype => t) (fun t => t) (fun t => t)
           (fun _ _ => Ok tt) [np_float32; np_float64]).
  right. exists np_float32, np_float64.
  split; [left|split; [right; left|discriminate]].
Defined.

(** ** Removal of redundant expressions *)

Section ScheduleFacts.
Context {stencil : Type} `{EqDecision stencil}.
Implicit Types (v before : list (Scheduler.Node stencil)) (s : stencil).

Local Abbreviation seen s before := (existsb (Scheduler.has_stencil s) before).

Lemma seen_snoc s before (n : Scheduler.Node stencil) :
  seen s (before ++ [n]) = seen s before || Scheduler.has_stencil s n.
Proof. rewrite existsb_app. simpl. by rewrite orb_false_r. Qed.

Lemma seen_stencils s before :
  seen s before = true <-> s ∈ Scheduler.expression_stencils before.
Proof.
  unfold Scheduler.expression_stencils. induction before as [|n before IH]; simpl.
  - split; [discriminate|]. intros Hin. by apply not_elem_of_nil in Hin.
  - rewrite orb_true_iff, IH. destruct n as [s' t| |]; simpl.
    + rewrite elem_of_cons, bool_decide_eq_true. split; intros [?|?]; auto.
    + split; [intros [?|?]; [discriminate|done]|by right].
    + split; [intros [?|?]; [discriminate|done]|by right].
Qed.

(** The loop computes the function stated in the specification's words. *)
Lemma trim_loop_drop v :
  forall (found : list stencil) (trimmed before : list (Scheduler.Node stencil)),
    (forall s, s ∈ found <-> seen s before = true) ->
    Scheduler.trim_loop v found trimmed
    = trimmed ++ Scheduler.drop_later_duplicates before v.
Proof.
  induction v as [|n v IH]; intros found trimmed before Hfound; simpl.
  - by rewrite app_nil_r.
  - destruct n as [s t|nodes args|label]; simpl.
    + destruct (bool_decide (s ∈ found)) eqn:Hs.
      * apply bool_decide_eq_true in Hs. apply Hfound in Hs as Hs'. rewrite Hs'.
        apply IH. intros s'. rewrite seen_snoc, Hfound. simpl.
        destruct (seen s' before) eqn:Hs''; simpl; [done|].
        split; [done|]. intros Heq%bool_decide_eq_true. subst s'. congruence.
      * apply bool_decide_eq_false in Hs.
        destruct (seen s before) eqn:Hs'.
        { exfalso. apply Hs. by apply Hfound. }
        rewrite (IH (s :: found) _ (before ++ [Scheduler.Expression s t])).
        { by rewrite <- app_assoc. }
        intros s'. rewrite seen_snoc, elem_of_cons, Hfound. simpl.
        rewrite orb_true_iff, bool_decide_eq_true.
        split; intros [?|?]; auto.
    + rewrite (IH found _ (before ++ [Scheduler.Iteration nodes args])).
      { by rewrite <- app_assoc. }
      intros s'. rewrite seen_snoc. simpl. by rewrite orb_false_r.
    + rewrite (IH found _ (before ++ [Scheduler.OtherNode label])).
      { by rewrite <- app_assoc. }
      intros s'. rewrite seen_snoc. simpl. by rewrite orb_false_r.
Qed.

Lemma trim_drop v : Scheduler.trim v = Scheduler.drop_later_duplicates [] v.
Proof.
  unfold Scheduler.trim. rewrite (trim_loop_drop v [] [] []); [done|].
  intros s. simpl. split; [|discriminate]. intros Hin. by apply not_elem_of_nil in Hin.
Qed.

Lemma drop_sublist v : forall before, sublist (Scheduler.drop_later_duplicates before v) v.
Proof.
  induction v as [|n v IH]; intros before; simpl; [constructor|].
  destruct (Scheduler.duplicates_earlier before n).
  - apply sublist_cons. apply IH.
  - apply sublist_skip. apply IH.
Qed.

Lemma drop_ext v : forall before before',
  (forall s, seen s before = seen s before') ->
  Scheduler.drop_later_duplicates before v = Scheduler.drop_later_duplicates before' v.
Proof.
  induction v as [|n v IH]; intros before before' Hext; simpl; [done|].
  assert (Hn : Scheduler.duplicates_earlier before n
               = Scheduler.duplicates_earlier before' n).
  { destruct n; simpl; [apply Hext|done|done]. }
  rewrite Hn.
  assert (Hv : Scheduler.drop_later_duplicates (before ++ [n]) v
               = Scheduler.drop_later_duplicates (before' ++ [n]) v).
  { apply IH. intros s. by rewrite !seen_snoc, Hext. }
  by rewrite Hv.
Qed.

Lemma drop_app v1 : forall before v2,
  Scheduler.drop_later_duplicates before (v1 ++ v2)
  = Scheduler.drop_later_duplicates before v1
    ++ Scheduler.drop_later_duplicates (before ++ v1) v2.
Proof.
  induction v1 as [|n v1 IH]; intros before v2; simpl.
  - by rewrite app_nil_r.
  - rewrite IH, <- app_assoc. simpl.
    by destruct (Scheduler.duplicates_earlier before n).
Qed.

Lemma drop_stencils_unseen v : forall before s,
  s ∈ Scheduler.expression_stencils (Scheduler.drop_later_duplicates before v) ->
  seen s before = false.
Proof.
  unfold Scheduler.expression_stencils.
  induction v as [|n v IH]; intros before s; simpl.
  - intros Hin. by apply not_elem_of_nil in Hin.
  - assert (Htail : s ∈ omap (fun n => match n with
                                        | Scheduler.Expression s _ => Some s
                                        | _ => None end)
                      (Scheduler.drop_later_duplicates (before ++ [n]) v) ->
                    seen s before = false).
    { intros Hin. apply IH in Hin. rewrite seen_snoc in Hin.
      by apply orb_false_iff in Hin as [? _]. }
    destruct (Scheduler.duplicates_earlier before n) eqn:Hdup; [done|].
    destruct n as [s' t| |]; simpl in *; [|done|done].
    rewrite elem_of_cons. intros [->|Hin]; [done|by apply Htail].
Qed.

Lemma drop_stencils_NoDup v : forall before,
  NoDup (Scheduler.expression_stencils (Scheduler.drop_later_duplicates before v)).
Proof.
  induction v as [|n v IH]; intros before; simpl.
  - constructor.
  - destruct (Scheduler.duplicates_earlier before n) eqn:Hdup; [apply IH|].
    destruct n as [s t| |]; unfold Scheduler.expression_stencils in *; simpl;
      [|apply IH|apply IH].
    apply NoDup_cons. split; [|apply IH].
    intros Hin. apply drop_stencils_unseen in Hin.
    rewrite seen_snoc in Hin. simpl in Hin.
    rewrite bool_decide_eq_true_2 in Hin by done.
    by rewrite orb_true_r in Hin.
Qed.

Lemma drop_stencils_cover v : forall before s,
  s ∈ Scheduler.expression_stencils v ->
  seen s before = false ->
  s ∈ Scheduler.expression_stencils (Scheduler.drop_later_duplicates before v).
Proof.
  unfold Scheduler.expression_stencils.
  induction v as [|n v IH]; intros before s; simpl.
  - intros Hin. by apply not_elem_of_nil in Hin.
  - intros Hin Hunseen.
    destruct n as [s' t|nodes args|label]; simpl in *.
    + destruct (decide (s = s')) as [->|Hne].
      * rewrite Hunseen. simpl. left.
      * apply elem_of_cons in Hin as [?|Hin]; [done|].
        assert (Hgo : s ∈ omap (fun n => match n with
                                          | Scheduler.Expression s _ => Some s
                                          | _ => None end)
                        (Scheduler.drop_later_duplicates
                           (before ++ [Scheduler.Expression s' t]) v)).
        { apply IH; [done|]. rewrite seen_snoc, Hunseen. simpl.
          by apply bool_decide_eq_false_2. }
        destruct (seen s' before); simpl; [done|by right].
    + apply IH; [done|]. by rewrite seen_snoc, Hunseen.
    + apply IH; [done|]. by rewrite seen_snoc, Hunseen.
Qed.

Lemma drop_keeps_other_nodes v : forall before,
  List.filter (fun n => negb (Scheduler.is_Expression n))
    (Scheduler.drop_later_duplicates before v)
  = List.filter (fun n => negb (Scheduler.is_Expression n)) v.
Proof.
  induction v as [|n v IH]; intros before; simpl; [done|].
  destruct n as [s t|nodes args|label]; simpl.
  - destruct (seen s before); simpl; apply IH.
  - f_equal. apply IH.
  - f_equal. apply IH.
Qed.

Lemma redundancy_mapper_acc (perfect : Scheduler.Node stencil -> bool) sections :
  forall mapper0 mapper,
    Scheduler.redundancy_mapper perfect sections mapper0 = Ok mapper ->
    (forall e, e ∈ mapper0 -> e ∈ mapper) /\
    (forall k v body args,
        (k, v) ∈ sections ->
        last k = Some (Scheduler.Iteration body args) ->
        perfect (Scheduler.Iteration body args) = true ->
        (Scheduler.Iteration body args,
         Scheduler.Iteration (Scheduler.trim v) args) ∈ mapper).
Proof.
  induction sections as [|[k v] rest IH]; intros mapper0 mapper; simpl.
  - intros [= <-]. split; [done|]. intros k v body args Hin.
    by apply not_elem_of_nil in Hin.
  - unfold Scheduler.py_last. destruct (last k) as [candidate|] eqn:Hlast; simpl;
      [|discriminate].
    destruct (perfect candidate) eqn:Hperfect; simpl.
    + destruct candidate as [|body args|]; [discriminate| |discriminate].
      intros Hrest. apply IH in Hrest as [Hacc Hrest]. split.
      * intros e He. apply Hacc. apply elem_of_app. by left.
      * intros k' v' body' args' Hin Hlast' Hperfect'.
        apply elem_of_cons in Hin as [[= -> ->]|Hin].
        -- rewrite Hlast in Hlast'. injection Hlast' as <- <-.
           apply Hacc. apply elem_of_app. right. left.
        -- by apply (Hrest k').
    + intros Hrest. apply IH in Hrest as [Hacc Hrest]. split; [done|].
      intros k' v' body' args' Hin Hlast' Hperfect'.
      apply elem_of_cons in Hin as [[= -> ->]|Hin].
      * rewrite Hlast in Hlast'. injection Hlast' as ->. congruence.
      * by apply (Hrest k').
Qed.

(** C6.  For every section whose innermost iteration is perfect, the
    iteration is replaced by one with the same arguments whose body is the
    section's nodes without later duplicates: a node is dropped exactly when
    it is an expression whose stencil occurs in an expression before it.  The
    kept nodes stay in order, every node that is not an expression is kept,
    every stencil keeps one occurrence (the first), and two expressions with
    the same stencil collapse to the first. *)
Theorem perfect_iterations_lose_duplicates
    (perfect : Scheduler.Node stencil -> bool)
    (sections : list (list (Scheduler.Node stencil) * list (Scheduler.Node stencil)))
    (mapper : list (Scheduler.Node stencil * Scheduler.Node stencil))
    (k v body : list (Scheduler.Node stencil)) (args : Scheduler.IterationArgs) :
  Scheduler.redundancy_mapper perfect sections [] = Ok mapper ->
  (k, v) ∈ sections ->
  last k = Some (Scheduler.Iteration body args) ->
  perfect (Scheduler.Iteration body args) = true ->
  let trimmed := Scheduler.trim v in
  (Scheduler.Iteration body args, Scheduler.Iteration trimmed args) ∈ mapper
  /\ trimmed = Scheduler.drop_later_duplicates [] v
  /\ sublist trimmed v
  /\ NoDup (Scheduler.expression_stencils trimmed)
  /\ (forall s, s ∈ Scheduler.expression_stencils v ->
                s ∈ Scheduler.expression_stencils trimmed)
  /\ List.filter (fun n => negb (Scheduler.is_Expression n)) trimmed
     = List.filter (fun n => negb (Scheduler.is_Expression n)) v
  /\ (forall l1 n l2, v = l1 ++ n :: l2 ->
        Scheduler.duplicates_earlier l1 n = true ->
        trimmed = Scheduler.trim (l1 ++ l2))
  /\ (forall l1 n l2, v = l1 ++ n :: l2 ->
        Scheduler.duplicates_earlier l1 n = false ->
        exists l2', trimmed = Scheduler.trim l1 ++ n :: l2')
  /\ (forall s t t', v = [Scheduler.Expression s t; Scheduler.Expression s t'] ->
        trimmed = [Scheduler.Expression s t]).
Proof.
  intros Hmapper Hin Hlast Hperfect trimmed. subst trimmed.
  apply redundancy_mapper_acc in Hmapper as [_ Hmapper].
  split; [by apply (Hmapper k)|].
  rewrite !trim_drop.
  split; [done|]. split; [apply drop_sublist|]. split; [apply drop_stencils_NoDup|].
  split; [intros s Hs; by apply drop_stencils_cover|].
  split; [apply drop_keeps_other_nodes|].
  split; [|split].
  - intros l1 n l2 -> Hdup. rewrite !trim_drop, !drop_app. simpl. rewrite Hdup.
    f_equal. apply drop_ext. intros s. rewrite seen_snoc.
    destruct n as [s' t| |]; simpl in *; [|by rewrite orb_false_r..].
    destruct (bool_decide (s' = s)) eqn:Heq; [|by rewrite orb_false_r].
    apply bool_decide_eq_true in Heq as ->. by rewrite Hdup.
  - intros l1 n l2 -> Hdup. rewrite !trim_drop, drop_app. simpl. rewrite Hdup.
    by eexists.
  - intros s t t' ->. simpl. by rewrite bool_decide_eq_true_2.
Qed.
End ScheduleFacts.

(** One perfect loop over [x] with the expression [a] twice and [b] once. *)
Lemma perfect_iterations_lose_duplicates_witness :
  let args := {| Scheduler.dimension := Dim "x" None;
                 Scheduler.limits := None; Scheduler.offsets := [] |} in
  let a := Scheduler.Expression "a" np_float32 in
  let b := Scheduler.Expression "b" np_float32 in
  let loop := Scheduler.Iteration [a; b; a] args in
  (loop, Scheduler.Iteration [a; b] args)
    ∈ [(loop, Scheduler.Iteration [a; b] args)].
Proof.
  intros args a b loop.
  exact (proj1 (perfect_iterations_lose_duplicates
                  (fun _ => true) [([loop], [a; b; a])]
                  [(loop, Scheduler.Iteration [a; b] args)]
                  [loop] [a; b; a] [a; b; a] args
                  eq_refl (list_elem_of_here _ _) eq_refl eq_refl)).
Defined.

(** ** OrderedDict *)

Section OrderedDictFacts.
Context {K V : Type} `{EqDecision K}.
Implicit Types (k : K) (v : V) (d items : list (K * V)).

Lemma od_get_set_eq k v d : od_get k (od_set k v d) = Some v.
Proof.
  induction d as [|[k' v'] d IH]; simpl.
  - by rewrite decide_True.
  - destruct (decide (k = k')) as [->|Hne]; simpl.
    + by rewrite decide_True.
    + by rewrite decide_False.
Qed.

Lemma od_get_set_ne k k' v d : k <> k' -> od_get k' (od_set k v d) = od_get k' d.
Proof.
  intros Hne. induction d as [|[k0 v0] d IH]; simpl.
  - by rewrite decide_False.
  - destruct (decide (k = k0)) as [->|Hne0]; simpl.
    + by rewrite !decide_False.
    + destruct (decide (k' = k0)); [done|apply IH].
Qed.

Lemma od_get_set k k' v d :
  od_get k' (od_set k v d) = if decide (k = k') then Some v else od_get k' d.
Proof.
  destruct (decide (k = k')) as [->|Hne].
  - apply od_get_set_eq.
  - by apply od_get_set_ne.
Qed.

Lemma od_get_None k d : od_get k d = None <-> k ∉ od_keys d.
Proof.
  unfold od_keys. induction d as [|[k' v'] d IH]; simpl.
  - split; [intros _; apply not_elem_of_nil|done].
  - rewrite not_elem_of_cons. destruct (decide (k = k')) as [->|Hne].
    + split; [discriminate|]. intros [? _]. done.
    + rewrite IH. split; [done|]. by intros [_ ?].
Qed.

Lemma od_get_Some_keys k v d : od_get k d = Some v -> k ∈ od_keys d.
Proof.
  intros Hget. destruct (decide (k ∈ od_keys d)) as [|Hnot]; [done|].
  apply od_get_None in Hnot. congruence.
Qed.

Lemma od_get_Some_elem k v d : od_get k d = Some v -> (k, v) ∈ d.
Proof.
  induction d as [|[k' v'] d IH]; simpl; [discriminate|].
  destruct (decide (k = k')) as [->|Hne].
  - intros [= ->]. left.
  - intros Hget. right. by apply IH.
Qed.

Lemma od_get_elem_NoDup k v d : NoDup (od_keys d) -> (k, v) ∈ d -> od_get k d = Some v.
Proof.
  unfold od_keys. induction d as [|[k' v'] d IH]; simpl.
  - intros _ Hin. by apply not_elem_of_nil in Hin.
  - intros [Hnotin Hnd]%NoDup_cons Hin.
    apply elem_of_cons in Hin as [[= -> ->]|Hin].
    + by rewrite decide_True.
    + rewrite decide_False; [by apply IH|].
      intros ->. apply Hnotin. by apply (list_elem_of_fmap_2 fst) in Hin.
Qed.

Lemma od_keys_set_present k v d : k ∈ od_keys d -> od_keys (od_set k v d) = od_keys d.
Proof.
  unfold od_keys. induction d as [|[k' v'] d IH]; simpl.
  - intros Hin. by apply not_elem_of_nil in Hin.
  - intros Hin. destruct (decide (k = k')) as [->|Hne]; simpl; [done|].
    f_equal. apply IH. by apply elem_of_cons in Hin as [?|?].
Qed.

Lemma od_keys_set_fresh k v d : k ∉ od_keys d -> od_keys (od_set k v d) = od_keys d ++ [k].
Proof.
  unfold od_keys. induction d as [|[k' v'] d IH]; simpl; [done|].
  intros [Hne Hnotin]%not_elem_of_cons.
  rewrite decide_False by done. simpl. f_equal. by apply IH.
Qed.

Lemma od_keys_set_elem k k' v d : k' ∈ od_keys (od_set k v d) <-> k' = k \/ k' ∈ od_keys d.
Proof.
  destruct (decide (k ∈ od_keys d)) as [Hin|Hnotin].
  - rewrite od_keys_set_present by done. split; [by right|]. by intros [->|?].
  - rewrite od_keys_set_fresh, elem_of_app, list_elem_of_singleton by done.
    split; intros [?|?]; auto.
Qed.

Lemma od_keys_set_NoDup k v d : NoDup (od_keys d) -> NoDup (od_keys (od_set k v d)).
Proof.
  intros Hnd. destruct (decide (k ∈ od_keys d)) as [Hin|Hnotin].
  - by rewrite od_keys_set_present.
  - rewrite od_keys_set_fresh by done. apply NoDup_app. split; [done|].
    split; [|apply NoDup_singleton].
    intros k' Hk' ->%list_elem_of_singleton. done.
Qed.

Lemma od_update_NoDup items : forall d, NoDup (od_keys d) -> NoDup (od_keys (od_update d items)).
Proof.
  unfold od_update. induction items as [|[k v] items IH]; intros d Hnd; simpl; [done|].
  apply IH. by apply od_keys_set_NoDup.
Qed.

Lemma od_of_items_NoDup items : NoDup (od_keys (od_of_items items)).
Proof. apply od_update_NoDup. constructor. Qed.

Lemma od_update_keys items : forall d k,
  k ∈ od_keys (od_update d items) <-> k ∈ od_keys d \/ k ∈ items.*1.
Proof.
  unfold od_update. induction items as [|[k' v'] items IH]; intros d k; simpl.
  - split; [by left|]. intros [?|Hin]; [done|]. by apply not_elem_of_nil in Hin.
  - rewrite IH, od_keys_set_elem, elem_of_cons. simpl.
    split; [intros [[->|?]|?]; auto|intros [?|[->|?]]; auto].
Qed.

Lemma od_update_get_notin items : forall d k,
  k ∉ items.*1 -> od_get k (od_update d items) = od_get k d.
Proof.
  unfold od_update. induction items as [|[k' v'] items IH]; intros d k; simpl; [done|].
  intros [Hne Hnotin]%not_elem_of_cons. rewrite IH by done.
  by apply od_get_set_ne.
Qed.

Lemma od_update_get_NoDup items : forall d k v,
  NoDup items.*1 -> (k, v) ∈ items -> od_get k (od_update d items) = Some v.
Proof.
  unfold od_update. induction items as [|[k' v'] items IH]; intros d k v; simpl.
  - intros _ Hin. by apply not_elem_of_nil in Hin.
  - intros [Hnotin Hnd]%NoDup_cons Hin.
    apply elem_of_cons in Hin as [[= <- <-]|Hin].
    + pose proof (od_update_get_notin items (od_set k v d) k Hnotin) as Hget.
      unfold od_update in Hget. rewrite Hget. apply od_get_set_eq.
    + by apply IH.
Qed.

Lemma od_of_items_id items : NoDup items.*1 -> od_of_items items = items.
Proof.
  unfold od_of_items, od_update.
  assert (Hgen : forall d, NoDup (od_keys d ++ items.*1) ->
            fold_left (fun acc kv => od_set kv.1 kv.2 acc) items d = d ++ items).
  { induction items as [|[k v] items IH]; intros d Hnd; simpl.
    - by rewrite app_nil_r.
    - simpl in Hnd. rewrite IH.
      + assert (Hk : k ∉ od_keys d).
        { apply NoDup_app in Hnd as (_ & Hdisj & _). intros Hin.
          apply (Hdisj k Hin). left. }
        clear IH. induction d as [|[k0 v0] d IHd]; simpl; [done|].
        apply not_elem_of_cons in Hk as [Hne Hk].
        rewrite decide_False by done. simpl. f_equal. apply IHd; [|done].
        simpl in Hnd. by apply NoDup_cons in Hnd as [_ ?].
      + assert (Hk : k ∉ od_keys d).
        { apply NoDup_app in Hnd as (_ & Hdisj & _). intros Hin.
          apply (Hdisj k Hin). left. }
        rewrite od_keys_set_fresh by done. rewrite <- app_assoc. done. }
  intros Hnd. by apply (Hgen []).
Qed.

Lemma od_contains_true k d : od_contains k d = true <-> k ∈ od_keys d.
Proof.
  unfold od_contains. destruct (od_get k d) eqn:Hget.
  - split; [|done]. intros _. by apply od_get_Some_keys in Hget.
  - split; [discriminate|]. intros Hin. by apply od_get_None in Hget.
Qed.

Lemma od_contains_false k d : od_contains k d = false <-> k ∉ od_keys d.
Proof.
  rewrite <- od_contains_true. by destruct (od_contains k d).
Qed.
End OrderedDictFacts.

(** ** Inference of the open dimensions *)

Section InferDimensions.
Variable kwargs : list (string * value).
Implicit Types (ds : list (Dimension * Z)) (dim d : Dimension) (shape : list Z).

Lemma py_index_Ok {A} (l : list A) (i : nat) (x : A) :
  py_index l i = Ok x <-> l !! i = Some x.
Proof. unfold py_index. destruct (l !! i); split; congruence. Qed.

Lemma py_assert_Ok (c : bool) (u : unit) : py_assert c = Ok u <-> c = true.
Proof. unfold py_assert. destruct c, u; split; congruence. Qed.

Lemma infer_dimension_other shape i dim ds ds' d :
  infer_dimension kwargs shape i dim ds = Ok ds' ->
  d <> dim -> od_get d ds' = od_get d ds.
Proof.
  unfold infer_dimension. intros Hinfer Hne.
  destruct (dim_size dim) as [size|].
  - destruct (is_Buffered dim); simpl in Hinfer.
    + by injection Hinfer as <-.
    + apply result_bind_Ok in Hinfer as (s & _ & Hinfer).
      apply result_bind_Ok in Hinfer as (u & _ & [= <-]). done.
  - apply result_bind_Ok in Hinfer as (ds1 & Hkw & Hinfer).
    assert (H1 : od_get d ds1 = od_get d ds).
    { destruct (od_get (dim_name dim) kwargs) as [v|].
      - apply result_bind_Ok in Hkw as (n & _ & [= <-]).
        apply od_get_set_ne. congruence.
      - by injection Hkw as <-. }
    rewrite <- H1. clear H1 Hkw.
    destruct (od_get dim ds1) as [n|].
    + destruct (is_Buffered dim); simpl in Hinfer.
      * by injection Hinfer as <-.
      * apply result_bind_Ok in Hinfer as (s & _ & Hinfer).
        apply result_bind_Ok in Hinfer as (u & _ & [= <-]). done.
    + apply result_bind_Ok in Hinfer as (s & _ & [= <-]).
      apply od_get_set_ne. congruence.
Qed.

(** What one visit of an open dimension leaves in [dim_sizes]. *)
Lemma infer_dimension_open shape i dim ds ds' :
  dim_size dim = None ->
  infer_dimension kwargs shape i dim ds = Ok ds' ->
  exists n,
    od_get dim ds' = Some n /\
    keyword_size kwargs dim n /\
    (is_Buffered dim = false -> exists s, shape !! i = Some s /\ n <= s) /\
    (od_get (dim_name dim) kwargs = None ->
       match od_get dim ds with
       | Some m => n = m
       | None => shape !! i = Some n
       end).
Proof.
  unfold infer_dimension, keyword_size. intros -> Hinfer.
  apply result_bind_Ok in Hinfer as (ds1 & Hkw & Hinfer).
  destruct (od_get (dim_name dim) kwargs) as [v|] eqn:Hv.
  - apply result_bind_Ok in Hkw as (n & Hn & [= <-]).
    rewrite od_get_set_eq in Hinfer. exists n.
    destruct (is_Buffered dim); simpl in Hinfer.
    + injection Hinfer as <-. rewrite od_get_set_eq.
      split; [done|]. split; [done|]. split; [done|]. intros [=].
    + apply result_bind_Ok in Hinfer as (s & Hs%py_index_Ok & Hinfer).
      apply result_bind_Ok in Hinfer as (u & Hle%py_assert_Ok & [= <-]).
      rewrite od_get_set_eq. split; [done|]. split; [done|]. split; [|intros [=]].
      intros _. exists s. split; [done|]. by apply Z.leb_le.
  - injection Hkw as <-.
    destruct (od_get dim ds) as [n|] eqn:Hn.
    + exists n. destruct (is_Buffered dim); simpl in Hinfer.
      * injection Hinfer as <-. split; [done|]. split; [done|]. by split.
      * apply result_bind_Ok in Hinfer as (s & Hs%py_index_Ok & Hinfer).
        apply result_bind_Ok in Hinfer as (u & Hle%py_assert_Ok & [= <-]).
        split; [done|]. split; [done|]. split; [|done].
        intros _. exists s. split; [done|]. by apply Z.leb_le.
    + apply result_bind_Ok in Hinfer as (s & Hs%py_index_Ok & [= <-]).
      exists s. rewrite od_get_set_eq. split; [done|]. split; [done|]. split; [|done].
      intros _. exists s. split; [done|]. lia.
Qed.

(** A size that agrees with the keywords is never replaced. *)
Lemma infer_dimension_stable shape i dim ds ds' d n :
  infer_dimension kwargs shape i dim ds = Ok ds' ->
  od_get d ds = Some n -> keyword_size kwargs d n -> od_get d ds' = Some n.
Proof.
  intros Hinfer Hd Hkw. destruct (decide (d = dim)) as [->|Hne].
  - destruct (dim_size dim) as [size|] eqn:Hsize.
    + unfold infer_dimension in Hinfer. rewrite Hsize in Hinfer.
      destruct (is_Buffered dim); simpl in Hinfer.
      * by injection Hinfer as <-.
      * apply result_bind_Ok in Hinfer as (s & _ & Hinfer).
        apply result_bind_Ok in Hinfer as (u & _ & [= <-]). done.
    + apply infer_dimension_open in Hinfer as (m & Hm & Hkwm & _ & Hnokw); [|done].
      rewrite Hm. f_equal. unfold keyword_size in *.
      destruct (od_get (dim_name dim) kwargs) as [v|].
      * congruence.
      * specialize (Hnokw eq_refl). rewrite Hd in Hnokw. done.
  - erewrite infer_dimension_other; done.
Qed.

Lemma infer_indices_stable shape indices : forall i ds ds' d n,
  infer_indices kwargs shape i indices ds = Ok ds' ->
  od_get d ds = Some n -> keyword_size kwargs d n -> od_get d ds' = Some n.
Proof.
  induction indices as [|dim indices IH]; intros i ds ds' d n; simpl.
  - by intros [= <-].
  - intros (ds1 & H1 & Hrest)%result_bind_Ok Hd Hkw.
    eapply IH; [done| |done]. by eapply infer_dimension_stable.
Qed.

(** The loop over the indices of one parameter.  [i0] is the axis of the
    first index in [indices]. *)
Lemma infer_indices_open shape indices : forall i0 ds ds' j dim,
  infer_indices kwargs shape i0 indices ds = Ok ds' ->
  indices !! j = Some dim -> dim_size dim = None ->
  exists n,
    od_get dim ds' = Some n /\
    keyword_size kwargs dim n /\
    (is_Buffered dim = false -> exists s, shape !! (i0 + j)%nat = Some s /\ n <= s) /\
    (od_get (dim_name dim) kwargs = None ->
       match od_get dim ds with
       | Some m => n = m
       | None => exists j0, (j0 <= j)%nat /\ indices !! j0 = Some dim /\
                   (forall j', (j' < j0)%nat -> indices !! j' <> Some dim) /\
                   shape !! (i0 + j0)%nat = Some n
       end).
Proof.
  induction indices as [|dim0 indices IH]; intros i0 ds ds' j dim; simpl; [done|].
  intros (ds1 & H1 & Hrest)%result_bind_Ok Hj Hopen.
  destruct j as [|j]; simpl in Hj.
  - injection Hj as ->.
    apply infer_dimension_open in H1 as (n & Hn & Hkw & Hassert & Hnokw); [|done].
    exists n. split; [by eapply infer_indices_stable|].
    split; [done|]. rewrite Nat.add_0_r. split; [done|].
    intros Hnone. specialize (Hnokw Hnone).
    destruct (od_get dim ds); [done|].
    exists 0%nat. rewrite Nat.add_0_r.
    split; [lia|]. split; [done|]. split; [lia|done].
  - destruct (IH (S i0) ds1 ds' j dim Hrest Hj Hopen)
      as (n & Hn & Hkw & Hassert & Hnokw).
    exists n. split; [done|]. split; [done|].
    replace (i0 + S j)%nat with (S i0 + j)%nat by lia. split; [done|].
    intros Hnone. specialize (Hnokw Hnone).
    destruct (decide (dim = dim0)) as [->|Hne].
    + apply infer_dimension_open in H1 as (n0 & Hn0 & _ & _ & Hnokw0); [|done].
      specialize (Hnokw0 Hnone). rewrite Hn0 in Hnokw. subst n0.
      destruct (od_get dim0 ds); [done|].
      exists 0%nat. rewrite Nat.add_0_r.
      split; [lia|]. split; [done|]. split; [lia|done].
    + rewrite (infer_dimension_other _ _ _ _ _ _ H1 Hne) in Hnokw.
      destruct (od_get dim ds); [done|].
      destruct Hnokw as (j0 & Hle & Hj0 & Hfirst & Hshape).
      exists (S j0). replace (i0 + S j0)%nat with (S i0 + j0)%nat by lia.
      split; [lia|]. split; [done|]. split; [|done].
      intros [|j'] Hlt; simpl; [congruence|]. apply Hfirst. lia.
Qed.

Lemma bind_positional_stable op pairs : forall a ds a' ds' d n,
  bind_positional op kwargs pairs a ds = Ok (a', ds') ->
  od_get d ds = Some n -> keyword_size kwargs d n -> od_get d ds' = Some n.
Proof.
  induction pairs as [|[f arg] pairs IH]; intros a ds a' ds' d n; simpl.
  - by intros [= <- <-].
  - intros (shape & _ & Hrest)%result_bind_Ok Hd Hkw.
    apply result_bind_Ok in Hrest as (ds1 & H1 & Hrest).
    eapply IH; [done| |done]. by eapply infer_indices_stable.
Qed.

End InferDimensions.

(** ** The traversal on the objects *)

Section ObjectDimensions.
Variable compare_other : value -> Z -> result bool.
Variable kwargs : list (string * value).
Implicit Types (ds : list (Dimension * value)) (dim d : Dimension) (shape : list Z).

Local Abbreviation visit := (infer_dimension_obj compare_other kwargs).
Local Abbreviation le := (le_extent compare_other).

Lemma le_extent_int (m s : Z) : le (VInt m) s = Ok true <-> m <= s.
Proof. simpl. rewrite <- Z.leb_le. split; congruence. Qed.

Lemma infer_dimension_obj_other shape i dim ds ds' d :
  visit shape i dim ds = Ok ds' -> d <> dim -> od_get d ds' = od_get d ds.
Proof.
  unfold infer_dimension_obj. intros Hinfer Hne.
  destruct (dim_size dim) as [size|].
  - destruct (is_Buffered dim); simpl in Hinfer.
    + by injection Hinfer as <-.
    + apply result_bind_Ok in Hinfer as (s & _ & Hinfer).
      apply result_bind_Ok in Hinfer as (u & _ & [= <-]). done.
  - cbv zeta in Hinfer.
    set (ds1 := match od_get (dim_name dim) kwargs with
                | Some v => od_set dim v ds
                | None => ds
                end) in Hinfer.
    assert (H1 : od_get d ds1 = od_get d ds).
    { subst ds1. destruct (od_get (dim_name dim) kwargs) as [v|]; [|done].
      apply od_get_set_ne. congruence. }
    rewrite <- H1. clearbody ds1. clear H1.
    destruct (od_get dim ds1) as [n|].
    + destruct (is_Buffered dim); simpl in Hinfer.
      * by injection Hinfer as <-.
      * apply result_bind_Ok in Hinfer as (s & _ & Hinfer).
        apply result_bind_Ok in Hinfer as (c & _ & Hinfer).
        apply result_bind_Ok in Hinfer as (u & _ & [= <-]). done.
    + apply result_bind_Ok in Hinfer as (s & _ & [= <-]).
      apply od_get_set_ne. congruence.
Qed.

(** What one visit of an open dimension leaves in [dim_sizes]. *)
Lemma infer_dimension_obj_open shape i dim ds ds' :
  dim_size dim = None ->
  visit shape i dim ds = Ok ds' ->
  exists n,
    od_get dim ds' = Some n /\
    keyword_object kwargs dim n /\
    (is_Buffered dim = false -> exists s, shape !! i = Some s /\ le n s = Ok true) /\
    (od_get (dim_name dim) kwargs = None ->
       match od_get dim ds with
       | Some m => n = m
       | None => exists s, shape !! i = Some s /\ n = VInt s
       end).
Proof.
  unfold infer_dimension_obj, keyword_object. intros -> Hinfer. cbv zeta in Hinfer.
  destruct (od_get (dim_name dim) kwargs) as [v|] eqn:Hv.
  - rewrite od_get_set_eq in Hinfer. exists v.
    destruct (is_Buffered dim); simpl in Hinfer.
    + injection Hinfer as <-. rewrite od_get_set_eq.
      split; [done|]. split; [done|]. split; [done|]. intros [=].
    + apply result_bind_Ok in Hinfer as (s & Hs%py_index_Ok & Hinfer).
      apply result_bind_Ok in Hinfer as (c & Hc & Hinfer).
      apply result_bind_Ok in Hinfer as (u & Hle%py_assert_Ok & [= <-]). subst c.
      rewrite od_get_set_eq. split; [done|]. split; [done|]. split; [|intros [=]].
      intros _. by exists s.
  - destruct (od_get dim ds) as [n|] eqn:Hn.
    + exists n. destruct (is_Buffered dim); simpl in Hinfer.
      * injection Hinfer as <-. split; [done|]. split; [done|]. by split.
      * apply result_bind_Ok in Hinfer as (s & Hs%py_index_Ok & Hinfer).
        apply result_bind_Ok in Hinfer as (c & Hc & Hinfer).
        apply result_bind_Ok in Hinfer as (u & Hle%py_assert_Ok & [= <-]). subst c.
        split; [done|]. split; [done|]. split; [|done].
        intros _. by exists s.
    + apply result_bind_Ok in Hinfer as (s & Hs%py_index_Ok & [= <-]).
      exists (VInt s). rewrite od_get_set_eq.
      split; [done|]. split; [done|]. split.
      * intros _. exists s. split; [done|]. apply le_extent_int. lia.
      * intros _. by exists s.
Qed.

(** An object that agrees with the keywords is never replaced. *)
Lemma infer_dimension_obj_stable shape i dim ds ds' d n :
  visit shape i dim ds = Ok ds' ->
  od_get d ds = Some n -> keyword_object kwargs d n -> od_get d ds' = Some n.
Proof.
  intros Hinfer Hd Hkw. destruct (decide (d = dim)) as [->|Hne].
  - destruct (dim_size dim) as [size|] eqn:Hsize.
    + unfold infer_dimension_obj in Hinfer. rewrite Hsize in Hinfer.
      destruct (is_Buffered dim); simpl in Hinfer.
      * by injection Hinfer as <-.
      * apply result_bind_Ok in Hinfer as (s & _ & Hinfer).
        apply result_bind_Ok in Hinfer as (u & _ & [= <-]). done.
    + apply infer_dimension_obj_open in Hinfer as (m & Hm & Hkwm & _ & Hnokw); [|done].
      rewrite Hm. f_equal. unfold keyword_object in *.
      destruct (od_get (dim_name dim) kwargs) as [v|].
      * congruence.
      * specialize (Hnokw eq_refl). rewrite Hd in Hnokw. done.
  - erewrite infer_dimension_obj_other; done.
Qed.

Lemma infer_indices_obj_stable shape indices : forall i ds ds' d n,
  infer_indices_obj compare_other kwargs shape i indices ds = Ok ds' ->
  od_get d ds = Some n -> keyword_object kwargs d n -> od_get d ds' = Some n.
Proof.
  induction indices as [|dim indices IH]; intros i ds ds' d n; simpl.
  - by intros [= <-].
  - intros (ds1 & H1 & Hrest)%result_bind_Ok Hd Hkw.
    eapply IH; [done| |done]. by eapply infer_dimension_obj_stable.
Qed.

(** The loop over the indices of one parameter.  [i0] is the axis of the
    first index in [indices]. *)
Lemma infer_indices_obj_open shape indices : forall i0 ds ds' j dim,
  infer_indices_obj compare_other kwargs shape i0 indices ds = Ok ds' ->
  indices !! j = Some dim -> dim_size dim = None ->
  exists n,
    od_get dim ds' = Some n /\
    keyword_object kwargs dim n /\
    (is_Buffered dim = false ->
       exists s, shape !! (i0 + j)%nat = Some s /\ le n s = Ok true) /\
    (od_get (dim_name dim) kwargs = None ->
       match od_get dim ds with
       | Some m => n = m
       | None => exists j0 s, (j0 <= j)%nat /\ indices !! j0 = Some dim /\
                   (forall j', (j' < j0)%nat -> indices !! j' <> Some dim) /\
                   shape !! (i0 + j0)%nat = Some s /\ n = VInt s
       end).
Proof.
  induction indices as [|dim0 indices IH]; intros i0 ds ds' j dim; simpl; [done|].
  intros (ds1 & H1 & Hrest)%result_bind_Ok Hj Hopen.
  destruct j as [|j]; simpl in Hj.
  - injection Hj as ->.
    apply infer_dimension_obj_open in H1 as (n & Hn & Hkw & Hassert & Hnokw); [|done].
    exists n. split; [by eapply infer_indices_obj_stable|].
    split; [done|]. rewrite Nat.add_0_r. split; [done|].
    intros Hnone. specialize (Hnokw Hnone).
    destruct (od_get dim ds); [done|]. destruct Hnokw as (s & Hs & ->).
    exists 0%nat, s. rewrite Nat.add_0_r.
    split; [lia|]. split; [done|]. split; [lia|done].
  - destruct (IH (S i0) ds1 ds' j dim Hrest Hj Hopen)
      as (n & Hn & Hkw & Hassert & Hnokw).
    exists n. split; [done|]. split; [done|].
    replace (i0 + S j)%nat with (S i0 + j)%nat by lia. split; [done|].
    intros Hnone. specialize (Hnokw Hnone).
    destruct (decide (dim = dim0)) as [->|Hne].
    + apply infer_dimension_obj_open in H1 as (n0 & Hn0 & _ & _ & Hnokw0); [|done].
      specialize (Hnokw0 Hnone). rewrite Hn0 in Hnokw. subst n0.
      destruct (od_get dim0 ds); [done|]. destruct Hnokw0 as (s & Hs & ->).
      exists 0%nat, s. rewrite Nat.add_0_r.
      split; [lia|]. split; [done|]. split; [lia|done].
    + rewrite (infer_dimension_obj_other _ _ _ _ _ _ H1 Hne) in Hnokw.
      destruct (od_get dim ds); [done|].
      destruct Hnokw as (j0 & s & Hle & Hj0 & Hfirst & Hshape & ->).
      exists (S j0), s. replace (i0 + S j0)%nat with (S i0 + j0)%nat by lia.
      split; [lia|]. split; [done|]. split; [|done].
      intros [|j'] Hlt; simpl; [congruence|]. apply Hfirst. lia.
Qed.

Lemma bind_positional_obj_stable op pairs : forall a ds a' ds' d n,
  bind_positional_obj compare_other op kwargs pairs a ds = Ok (a', ds') ->
  od_get d ds = Some n -> keyword_object kwargs d n -> od_get d ds' = Some n.
Proof.
  induction pairs as [|[f arg] pairs IH]; intros a ds a' ds' d n; simpl.
  - by intros [= <- <-].
  - intros (shape & _ & Hrest)%result_bind_Ok Hd Hkw.
    apply result_bind_Ok in Hrest as (ds1 & H1 & Hrest).
    eapply IH; [done| |done]. by eapply infer_indices_obj_stable.
Qed.

(** *** The integer sizes, when the keywords are integers *)

Lemma as_objects_get (sizes : list (Dimension * Z)) d :
  od_get d (as_objects sizes) = VInt <$> od_get d sizes.
Proof.
  unfold as_objects. induction sizes as [|[d0 n0] sizes IH]; simpl; [done|].
  by destruct (decide (d = d0)).
Qed.

Lemma as_objects_set (sizes : list (Dimension * Z)) d n :
  od_set d (VInt n) (as_objects sizes) = as_objects (od_set d n sizes).
Proof.
  unfold as_objects. induction sizes as [|[d0 n0] sizes IH]; simpl; [done|].
  destruct (decide (d = d0)); simpl; [done|]. by rewrite IH.
Qed.

Lemma infer_dimension_agrees shape i dim (sizes : list (Dimension * Z)) :
  (forall v, dim_size dim = None -> od_get (dim_name dim) kwargs = Some v ->
             exists m, v = VInt m) ->
  visit shape i dim (as_objects sizes)
  = match infer_dimension kwargs shape i dim sizes with
    | Ok sizes' => Ok (as_objects sizes')
    | Err e => Err e
    end.
Proof.
  intros Hint. unfold infer_dimension_obj, infer_dimension.
  destruct (dim_size dim) as [size|].
  - destruct (is_Buffered dim); simpl; [done|].
    destruct (py_index shape i) as [s|e]; simpl; [|done].
    by destruct (py_assert (size =? s)).
  - cbv zeta.
    assert (Hcheck : forall sizes1 : list (Dimension * Z),
      match od_get dim (as_objects sizes1) with
      | Some n =>
          if negb (is_Buffered dim)
          then s ← py_index shape i; c ← le n s; _ ← py_assert c;
               Ok (as_objects sizes1)
          else Ok (as_objects sizes1)
      | None => s ← py_index shape i; Ok (od_set dim (VInt s) (as_objects sizes1))
      end
      = match (match od_get dim sizes1 with
               | Some n =>
                   if negb (is_Buffered dim)
                   then s ← py_index shape i; _ ← py_assert (n <=? s); Ok sizes1
                   else Ok sizes1
               | None => s ← py_index shape i; Ok (od_set dim s sizes1)
               end) with
        | Ok sizes' => Ok (as_objects sizes')
        | Err e => Err e
        end).
    { intros sizes1. rewrite as_objects_get.
      destruct (od_get dim sizes1) as [n|]; simpl.
      - destruct (is_Buffered dim); simpl; [done|].
        destruct (py_index shape i) as [s|e]; simpl; [|done].
        by destruct (py_assert (n <=? s)).
      - destruct (py_index shape i) as [s|e]; simpl; [|done].
        by rewrite as_objects_set. }
    destruct (od_get (dim_name dim) kwargs) as [v|] eqn:Hv.
    + destruct (Hint v eq_refl eq_refl) as [m ->]. simpl.
      rewrite as_objects_set. apply Hcheck.
    + simpl. apply Hcheck.
Qed.

Lemma infer_indices_agrees shape indices : forall i (sizes : list (Dimension * Z)),
  (forall dim v, dim ∈ indices -> dim_size dim = None ->
                 od_get (dim_name dim) kwargs = Some v -> exists m, v = VInt m) ->
  infer_indices_obj compare_other kwargs shape i indices (as_objects sizes)
  = match infer_indices kwargs shape i indices sizes with
    | Ok sizes' => Ok (as_objects sizes')
    | Err e => Err e
    end.
Proof.
  induction indices as [|dim indices IH]; intros i sizes Hint; simpl; [done|].
  rewrite infer_dimension_agrees by (intros v; apply Hint; left).
  destruct (infer_dimension kwargs shape i dim sizes) as [sizes1|e]; simpl; [|done].
  apply IH. intros dim' v Hin. apply Hint. by right.
Qed.

Lemma bind_positional_agrees op pairs : forall a (sizes : list (Dimension * Z)),
  (forall f arg dim v, (f, arg) ∈ pairs -> dim ∈ sd_indices f ->
                       dim_size dim = None ->
                       od_get (dim_name dim) kwargs = Some v -> exists m, v = VInt m) ->
  bind_positional_obj compare_other op kwargs pairs a (as_objects sizes)
  = match bind_positional op kwargs pairs a sizes with
    | Ok (a', sizes') => Ok (a', as_objects sizes')
    | Err e => Err e
    end.
Proof.
  induction pairs as [|[f arg] pairs IH]; intros a sizes Hint; simpl; [done|].
  destruct (_arg_shape op f) as [shape|e]; simpl; [|done].
  rewrite infer_indices_agrees by (intros dim v; apply (Hint f arg); left).
  destruct (infer_indices kwargs shape 0 (sd_indices f) sizes) as [sizes1|e];
    simpl; [|done].
  apply IH. intros f' arg' dim v Hin. apply (Hint f' arg'). by right.
Qed.

End ObjectDimensions.

(** The example of the specification: an array of shape [(10, 20)] bound
    to a parameter indexed by the open dimensions [(x, y)], no keywords. *)
Example bind_shape_10_20 :
  bind_arguments example_operator [] []
  = Ok ([("u", VArray {| arr_loc := 0%nat; arr_shape := [10; 20] |});
         ("x", VInt 10); ("y", VInt 20)],
        [(dim_x, 10); (dim_y, 20)], false).
Proof. reflexivity. Qed.

(** The keyword [y=15] is the size of [y], since 15 does not exceed the
    extent 20 of the array. *)
Example bind_shape_10_20_with_y_15 :
  bind_arguments example_operator [] [("y", VInt 15)]
  = Ok ([("u", VArray {| arr_loc := 0%nat; arr_shape := [10; 20] |});
         ("x", VInt 10); ("y", VInt 15)],
        [(dim_x, 10); (dim_y, 15)], false).
Proof. reflexivity. Qed.

(** The keyword [y=25] exceeds the extent 20: the assertion fails. *)
Example bind_shape_10_20_with_y_25 :
  bind_arguments example_operator [] [("y", VInt 25)] = Err AssertionError.
Proof. reflexivity. Qed.

(** A buffered dimension is not compared: [t=5] is accepted for an array
    with two buffer slots. *)
Example buffered_keyword_is_not_compared :
  bind_positional example_operator [("t", VInt 5)] [(slots, PData slots)] [] []
  = Ok ([("w", VArray {| arr_loc := 2%nat; arr_shape := [2; 10] |})],
        [(t_buffered, 5); (dim_x, 10)]).
Proof. reflexivity. Qed.

(** A keyword that is not an integer is stored as it is, here for a
    buffered dimension; for the dimension [x] its comparison with the
    extent decides. *)
Example keyword_object_is_kept :
  bind_positional_obj unordered example_operator [("t", VNone)]
    [(slots, PData slots)] [] []
  = Ok ([("w", VArray {| arr_loc := 2%nat; arr_shape := [2; 10] |})],
        [(t_buffered, VNone); (dim_x, VInt 10)])
  /\ bind_positional_obj unordered example_operator [("x", VBool true)]
       [(slots, PData slots)] [] []
     = Ok ([("w", VArray {| arr_loc := 2%nat; arr_shape := [2; 10] |})],
           [(t_buffered, VInt 2); (dim_x, VBool true)])
  /\ bind_positional_obj unordered example_operator [("x", VNone)]
       [(slots, PData slots)] [] []
     = Err TypeError.
Proof. repeat split. Qed.


(** ** Keyword overrides of data parameters *)

Lemma od_update_keys_present {K V} `{EqDecision K} (items : list (K * V)) :
  forall d, (forall k, k ∈ items.*1 -> k ∈ od_keys d) ->
            od_keys (od_update d items) = od_keys d.
Proof.
  unfold od_update. induction items as [|[k v] items IH]; intros d Hin; simpl; [done|].
  rewrite IH.
  - apply od_keys_set_present. apply Hin. left.
  - intros k' Hk'. apply od_keys_set_elem. right. apply Hin. by right.
Qed.

Lemma filter_fst_NoDup {K V} (P : K * V -> bool) (l : list (K * V)) :
  NoDup l.*1 -> NoDup (List.filter P l).*1.
Proof.
  induction l as [|[k v] l IH]; simpl; [done|].
  intros [Hnotin Hnd]%NoDup_cons.
  destruct (P (k, v)); simpl; [|by apply IH].
  apply NoDup_cons. split; [|by apply IH].
  intros Hin. apply Hnotin.
  apply list_elem_of_fmap in Hin as ([k' v'] & -> & Hin).
  apply list_elem_of_In, filter_In in Hin as [Hin _].
  apply list_elem_of_In in Hin. by apply (list_elem_of_fmap_2 fst) in Hin.
Qed.

Lemma elem_of_filter_bool {A} (P : A -> bool) (l : list A) (a : A) :
  a ∈ List.filter P l <-> a ∈ l /\ P a = true.
Proof. by rewrite !list_elem_of_In, filter_In. Qed.

Section Overrides.
Variable op : Operator.
Variable kwargs : list (string * value).
Hypothesis kwargs_dict : NoDup (od_keys kwargs).

Local Abbreviation defaults := (default_arguments op).

Lemma overriding_keywords_elem k o :
  (k, o) ∈ overriding_keywords kwargs defaults <->
  od_get k kwargs = Some o /\ exists f, od_get k defaults = Some (VSymbolic f).
Proof.
  unfold overriding_keywords.
  rewrite od_of_items_id by (by apply filter_fst_NoDup).
  rewrite elem_of_filter_bool, bool_decide_eq_true, list_elem_of_omap. simpl.
  split.
  - intros [Hin ([k' v'] & Hin' & Hsym)]. simpl in Hsym.
    split; [by apply od_get_elem_NoDup|].
    destruct v' as [f| | | | | |]; try discriminate. injection Hsym as ->.
    exists f. apply od_get_elem_NoDup; [apply od_of_items_NoDup|done].
  - intros [Hk [f Hf]]. split; [by apply od_get_Some_elem|].
    exists (k, VSymbolic f). split; [by apply od_get_Some_elem|done].
Qed.

Lemma overriding_keywords_NoDup : NoDup (overriding_keywords kwargs defaults).*1.
Proof. apply od_of_items_NoDup. Qed.

Lemma override_data_mismatch items : forall a,
  NoDup items.*1 ->
  (forall k o, (k, o) ∈ items ->
     exists f s, od_get k a = Some (VSymbolic f) /\ value_shape o = Ok s) ->
  (exists k o f s, (k, o) ∈ items /\ od_get k a = Some (VSymbolic f) /\
                   value_shape o = Ok s /\ s <> sd_shape f) ->
  override_data items a = Err InvalidArgument.
Proof.
  induction items as [|[k1 o1] items IH]; intros a Hnd Hall Hbad; simpl.
  - destruct Hbad as (k & o & f & s & Hin & _). by apply not_elem_of_nil in Hin.
  - simpl in Hnd. apply NoDup_cons in Hnd as [Hnotin Hnd].
    destruct (Hall k1 o1) as (f1 & s1 & Hf1 & Hs1); [left|].
    unfold od_item. rewrite Hf1. simpl. rewrite Hs1. simpl.
    destruct (decide (sd_shape f1 = s1)) as [Heq|Hne].
    + rewrite bool_decide_eq_true_2 by done. simpl.
      assert (Hother : forall k, k ∈ items.*1 ->
                od_get k (od_set k1 o1 a) = od_get k a).
      { intros k Hk. apply od_get_set_ne. intros ->. done. }
      apply IH; [done| |].
      * intros k o Hin. rewrite Hother by (by apply (list_elem_of_fmap_2 fst) in Hin).
        apply Hall. by right.
      * destruct Hbad as (k & o & f & s & Hin & Hf & Hs & Hne).
        apply elem_of_cons in Hin as [[= -> ->]|Hin]; [congruence|].
        exists k, o, f, s. split; [done|].
        rewrite Hother by (by apply (list_elem_of_fmap_2 fst) in Hin). done.
    + by rewrite bool_decide_eq_false_2.
Qed.

Lemma override_data_match items : forall a,
  NoDup items.*1 ->
  (forall k o, (k, o) ∈ items ->
     exists f, od_get k a = Some (VSymbolic f) /\ value_shape o = Ok (sd_shape f)) ->
  override_data items a = Ok (od_update a items).
Proof.
  induction items as [|[k1 o1] items IH]; intros a Hnd Hall; simpl; [done|].
  simpl in Hnd. apply NoDup_cons in Hnd as [Hnotin Hnd].
  destruct (Hall k1 o1) as (f1 & Hf1 & Hs1); [left|].
  unfold od_item. rewrite Hf1. simpl. rewrite Hs1. simpl.
  rewrite bool_decide_eq_true_2 by done. simpl.
  apply IH; [done|]. intros k o Hin.
  rewrite od_get_set_ne; [apply Hall; by right|].
  intros ->. by apply (list_elem_of_fmap_2 fst) in Hin.
Qed.

End Overrides.


(** ** Block sizes *)

Lemma od_set_get_other {K V} `{EqDecision K} (k k' : K) (v : V) (d : list (K * V)) :
  k' <> k -> od_get k' (od_set k v d) = od_get k' d.
Proof. intros Hne. apply od_get_set_ne. congruence. Qed.

Lemma bind_block_sizes_spec dle ds : forall acc m acc' m',
  bind_block_sizes dle ds acc m = Ok (acc', m') ->
  m' = m && negb (existsb fixes_block_size dle) /\
  (forall d, d ∉ map argument dle -> od_get d acc' = od_get d acc) /\
  (NoDup (map argument dle) ->
   forall i, i ∈ dle ->
     exists extent, resolved_extent ds (original_dim i) = Some extent /\
                    od_get (argument i) acc' = Some (block_size_of i extent)).
Proof.
  induction dle as [|i0 dle IH]; intros acc m acc' m'; simpl.
  - intros [= <- <-]. split; [by rewrite andb_true_r|]. split; [done|].
    intros _ i Hi. by apply not_elem_of_nil in Hi.
  - destruct (resolved_extent ds (original_dim i0)) as [e0|] eqn:He0; [|discriminate].
    set (step := fun v m0 => bind_block_sizes dle ds (od_set (argument i0) v acc) m0).
    assert (Hstep : forall v m0,
      step v m0 = Ok (acc', m') ->
      v = block_size_of i0 e0 ->
      m0 = m && negb (fixes_block_size i0) ->
      m' = m && negb (fixes_block_size i0 || existsb fixes_block_size dle) /\
      (forall d, d ∉ argument i0 :: map argument dle -> od_get d acc' = od_get d acc) /\
      (NoDup (argument i0 :: map argument dle) ->
       forall i, i ∈ i0 :: dle ->
         exists extent, resolved_extent ds (original_dim i) = Some extent /\
                        od_get (argument i) acc' = Some (block_size_of i extent))).
    { intros v m0 Hrun -> ->. apply IH in Hrun as (Hm & Hother & Hbound).
      split; [rewrite Hm, negb_orb; by rewrite andb_assoc|]. split.
      - intros d [Hne Hd]%not_elem_of_cons. rewrite Hother by done.
        by apply od_set_get_other.
      - intros [Hnotin Hnd]%NoDup_cons i [->|Hi]%elem_of_cons.
        + exists e0. split; [done|]. rewrite Hother by done. apply od_get_set_eq.
        + by apply Hbound. }
    destruct (block_value i0) as [[v|f]|] eqn:Hbv.
    + destruct (v =? 0) eqn:Hv; simpl; intros Hrun.
      * apply (Hstep e0 m Hrun).
        -- unfold block_size_of. by rewrite Hbv, Hv.
        -- unfold fixes_block_size. by rewrite Hbv, Hv, andb_true_r.
      * apply (Hstep v false Hrun).
        -- unfold block_size_of. by rewrite Hbv, Hv.
        -- unfold fixes_block_size. by rewrite Hbv, Hv, andb_false_r.
    + intros Hrun. apply (Hstep (f e0) m Hrun).
      * unfold block_size_of. by rewrite Hbv.
      * unfold fixes_block_size. by rewrite Hbv, andb_true_r.
    + intros Hrun. apply (Hstep e0 m Hrun).
      * unfold block_size_of. by rewrite Hbv.
      * unfold fixes_block_size. by rewrite Hbv, andb_true_r.
Qed.

Lemma bind_block_sizes_NoDup dle ds : forall acc m acc' m',
  bind_block_sizes dle ds acc m = Ok (acc', m') ->
  NoDup (od_keys acc) -> NoDup (od_keys acc').
Proof.
  induction dle as [|i0 dle IH]; intros acc m acc' m'; simpl.
  - by intros [= <- <-].
  - destruct (resolved_extent ds (original_dim i0)) as [e0|]; [|discriminate].
    destruct (block_value i0) as [[v|f]|]; [destruct (negb (v =? 0))|..];
      intros Hrun Hnd; (eapply IH; [exact Hrun|by apply od_keys_set_NoDup]).
Qed.

Lemma od_get_elem_of {K V} `{EqDecision K} (k : K) (d : list (K * V)) :
  k ∈ od_keys d -> exists v, od_get k d = Some v /\ (k, v) ∈ d.
Proof.
  intros Hin. destruct (od_get k d) as [v|] eqn:Hget.
  - exists v. split; [done|]. by apply od_get_Some_elem.
  - by apply od_get_None in Hget.
Qed.

Lemma od_update_get_od {K V} `{EqDecision K} (d items : list (K * V)) (k : K) :
  NoDup (od_keys items) ->
  od_get k (od_update d items) =
  match od_get k items with Some v => Some v | None => od_get k d end.
Proof.
  intros Hnd. destruct (od_get k items) as [v|] eqn:Hget.
  - apply od_update_get_NoDup; [done|]. by apply od_get_Some_elem.
  - apply od_update_get_notin. by apply od_get_None.
Qed.

Lemma insert_dimension_sizes_spec d_args ds : forall a a',
  insert_dimension_sizes d_args ds a = Ok a' ->
  (forall k, k ∉ map dim_name d_args -> od_get k a' = od_get k a) /\
  (forall d, d ∈ d_args ->
     (forall d', d' ∈ d_args -> dim_name d' = dim_name d -> d' = d) ->
     exists n, od_get d ds = Some n /\ od_get (dim_name d) a' = Some (VInt n)).
Proof.
  induction d_args as [|d0 d_args IH]; intros a a'; simpl.
  - intros [= <-]. split; [done|]. intros d Hd. by apply not_elem_of_nil in Hd.
  - unfold od_item. destruct (od_get d0 ds) as [n0|] eqn:Hn0; simpl; [|discriminate].
    intros Hrest. apply IH in Hrest as [Hother Hbound]. split.
    + intros k [Hne Hk]%not_elem_of_cons. rewrite Hother by done.
      by apply od_set_get_other.
    + intros d Hd Huniq.
      destruct (decide (d ∈ d_args)) as [Hin|Hnotin].
      * apply Hbound; [done|]. intros d' Hd'. apply Huniq. by right.
      * apply elem_of_cons in Hd as [->|?]; [|done].
        exists n0. split; [done|]. rewrite Hother; [apply od_get_set_eq|].
        intros Hin. apply list_elem_of_fmap in Hin as (d' & Hname & Hd').
        apply Hnotin. rewrite <- (Huniq d'); [done|by right|done].
Qed.



(** ** Selection of a minimum or maximum *)

Section Selection.
Context {A B : Type}.
Variable better : B -> B -> bool.
Variable key : A -> B.
Variable ok : B -> Prop.   (* the keys that compare, e.g. the numbers *)

Hypothesis better_trans : forall a b c,
  ok a -> ok b -> ok c -> better a b = true -> better b c = true -> better a c = true.
Hypothesis better_cotrans : forall a b c,
  ok a -> ok b -> ok c -> better a c = true -> better a b = true \/ better b c = true.

Local Abbreviation first_best := (first_best better key).

Lemma py_select_fold (suffix : list A) : forall prefix best,
  (forall x, x ∈ prefix ++ suffix -> ok (key x)) ->
  first_best prefix best ->
  first_best (prefix ++ suffix) (fold_left (py_select_step better key) suffix best).
Proof.
  induction suffix as [|x suffix IH]; intros prefix best Hok Hbest; simpl.
  - by rewrite app_nil_r.
  - replace (prefix ++ x :: suffix) with ((prefix ++ [x]) ++ suffix)
      by (by rewrite <- app_assoc).
    apply IH; [by rewrite <- app_assoc|].
    destruct Hbest as (before & after & -> & Hbefore & Hafter).
    assert (Hokx : ok (key x)).
    { apply Hok. rewrite elem_of_app. right. left. }
    assert (Hokm : forall z, z ∈ before ++ best :: after -> ok (key z)).
    { intros z Hz. apply Hok. rewrite elem_of_app. by left. }
    assert (Hokb : ok (key best)).
    { apply Hokm. rewrite elem_of_app. right. left. }
    unfold py_select_step. destruct (better (key x) (key best)) eqn:Hx.
    + exists (before ++ best :: after), []. split; [done|]. split.
      * intros z Hz. pose proof (Hokm z Hz) as Hokz.
        apply elem_of_app in Hz as [Hz|Hz].
        -- apply (better_trans _ (key best)); auto.
        -- apply elem_of_cons in Hz as [->|Hz]; [done|].
           destruct (better_cotrans (key x) (key z) (key best)) as [?|Hzb]; auto.
           rewrite (Hafter z Hz) in Hzb. discriminate.
      * intros z Hz. by apply not_elem_of_nil in Hz.
    + exists before, (after ++ [x]). split; [by rewrite <- app_assoc|].
      split; [done|]. intros z [Hz | ->%list_elem_of_singleton]%elem_of_app; auto.
Qed.

Lemma py_select_first_best (l : list A) (x : A) :
  (forall z, z ∈ l -> ok (key z)) ->
  py_select better key l = Ok x -> first_best l x.
Proof.
  destruct l as [|x0 l]; simpl; [discriminate|]. intros Hok [= <-].
  apply (py_select_fold l [x0] x0); [done|].
  exists [], []. split; [done|]. split; intros z Hz; by apply not_elem_of_nil in Hz.
Qed.

Lemma py_select_Ok (l : list A) : l <> [] -> exists x, py_select better key l = Ok x.
Proof. destruct l; [done|]. intros _. by eexists. Qed.

Lemma py_select_elem (l : list A) (x : A) : py_select better key l = Ok x -> x ∈ l.
Proof.
  destruct l as [|x0 l]; simpl; [discriminate|]. intros [= <-].
  assert (Hgen : forall best, fold_left (py_select_step better key) l best ∈ best :: l).
  { induction l as [|y l IH]; intros best; simpl; [left|].
    unfold py_select_step at 2. destruct (better (key y) (key best)).
    - right. apply IH.
    - specialize (IH best). apply elem_of_cons in IH as [->|?]; [left|by do 2 right]. }
  apply Hgen.
Qed.
End Selection.

(** ** The order of binary64 numbers *)

Lemma SFcompare_number (x y : spec_float) :
  is_number x -> is_number y -> exists c, SFcompare x y = Some c.
Proof. destruct x, y; simpl; try discriminate; intros _ _; by eexists. Qed.

Ltac compare_cases :=
  repeat match goal with
         | H : context [Pos.compare_cont Eq ?a ?b] |- _ =>
             change (Pos.compare_cont Eq a b) with (Pos.compare a b) in H
         | |- context [Pos.compare_cont Eq ?a ?b] =>
             change (Pos.compare_cont Eq a b) with (Pos.compare a b)
         end;
  repeat match goal with
         | H : context [Z.compare ?a ?b] |- _ =>
             destruct (Z.compare_spec a b); simpl in H; try discriminate H
         | H : context [Pos.compare ?a ?b] |- _ =>
             destruct (Pos.compare_spec a b); simpl in H; try discriminate H
         | |- context [Z.compare ?a ?b] =>
             destruct (Z.compare_spec a b); simpl
         | |- context [Pos.compare ?a ?b] =>
             destruct (Pos.compare_spec a b); simpl
         end;
  subst; try done; try lia.

Lemma SFltb_trans (a b c : spec_float) :
  SFltb a b = true -> SFltb b c = true -> SFltb a c = true.
Proof.
  unfold SFltb, SFcompare.
  destruct a as [sa|sa| |sa ma ea], b as [sb|sb| |sb mb eb], c as [sc|sc| |sc mc ec];
    try discriminate; try done;
    repeat match goal with s : bool |- _ => destruct s end;
    try discriminate; try done; intros Hab Hbc; compare_cases.
Qed.

Lemma SFltb_cotrans (a b c : spec_float) :
  is_number b -> SFltb a c = true -> SFltb a b = true \/ SFltb b c = true.
Proof.
  unfold is_number, SFltb, SFcompare.
  destruct a as [sa|sa| |sa ma ea], b as [sb|sb| |sb mb eb], c as [sc|sc| |sc mc ec];
    try discriminate; try done;
    repeat match goal with s : bool |- _ => destruct s end;
    try discriminate; simpl; intros _ Hac; auto;
    try (left; reflexivity); try (right; reflexivity);
    compare_cases;
    first [left; compare_cases; fail | right; compare_cases; fail].
Qed.

Lemma elapsed_lt_trans (a b c : option spec_float) :
  elapsed_lt a b = true -> elapsed_lt b c = true -> elapsed_lt a c = true.
Proof.
  destruct a as [a|], b as [b|], c as [c|]; simpl; try done. apply SFltb_trans.
Qed.

Lemma elapsed_lt_cotrans (a b c : option spec_float) :
  (exists x, b = Some x /\ is_number x) ->
  elapsed_lt a c = true -> elapsed_lt a b = true \/ elapsed_lt b c = true.
Proof.
  intros (x & -> & Hx). destruct a as [a|], c as [c|]; simpl; try done.
  - by apply SFltb_cotrans.
  - auto.
Qed.

(** ** The autotuner *)

Lemma od_keys_set_congr {K V W} `{EqDecision K} (k : K) (v : V) (w : W)
    (d : list (K * V)) (d' : list (K * W)) :
  od_keys d = od_keys d' -> od_keys (od_set k v d) = od_keys (od_set k w d').
Proof.
  intros Hkeys. destruct (decide (k ∈ od_keys d)) as [Hin|Hnotin].
  - rewrite !od_keys_set_present; [done| |done]. by rewrite <- Hkeys.
  - rewrite !od_keys_set_fresh; [by rewrite Hkeys| |done]. by rewrite <- Hkeys.
Qed.

Lemma od_update_keys_congr {K V} `{EqDecision K} (items : list (K * V)) :
  forall d d' : list (K * V),
    od_keys d = od_keys d' -> od_keys (od_update d items) = od_keys (od_update d' items).
Proof.
  unfold od_update. induction items as [|[k v] items IH]; intros d d' Hkeys; simpl; [done|].
  apply IH. by apply od_keys_set_congr.
Qed.

Lemma od_update_keys_idem {K V} `{EqDecision K} (d items : list (K * V)) :
  od_keys (od_update (od_update d items) items) = od_keys (od_update d items).
Proof.
  apply od_update_keys_present. intros k Hk. apply od_update_keys. by right.
Qed.

Lemma od_update_get_cases {K V} `{EqDecision K} (items : list (K * V)) :
  forall (d : list (K * V)) (k : K) (v : V),
    od_get k (od_update d items) = Some v ->
    od_get k d = Some v \/ (k, v) ∈ items.
Proof.
  unfold od_update. induction items as [|[k0 v0] items IH]; intros d k v; simpl; [by left|].
  intros Hget. apply IH in Hget as [Hget|Hin]; [|right; by right].
  rewrite od_get_set in Hget. destruct (decide (k0 = k)) as [->|Hne]; [|by left].
  injection Hget as ->. right. left.
Qed.

Lemma discovery_order_snoc (l : list (list (string * Z))) (c : list (string * Z)) :
  discovery_order (l ++ [c])
  = od_keys (od_set c tt (od_of_items (map (fun c => (c, tt)) l))).
Proof.
  unfold discovery_order, od_of_items, od_update.
  by rewrite map_app, fold_left_app.
Qed.

Lemma M_bind_unfold {A B} (m : M A) (f : A -> M B) (st : State) :
  (m ≫= f) st = match m st with
                | (Ok a, st') => f a st'
                | (Err e, st') => (Err e, st')
                end.
Proof. reflexivity. Qed.

Lemma invoke_then {B} (op : Operator) (m : list (string * value))
    (f : unit -> M B) (st : State) :
  (invoke op m ≫= f) st
  = f tt {| heap := heap (cfunction op (od_values m) st);
            profiler_timings := profiler_timings (cfunction op (od_values m) st);
            invocations := invocations st ++ [m] |}.
Proof. reflexivity. Qed.

Lemma get_state_then {B} (f : State -> M B) (st : State) :
  (get_state ≫= f) st = f st st.
Proof. reflexivity. Qed.

Section TryBlocksize.
Variables (opts : Options) (op : Operator) (bound : list (string * value)).
Variable blocksize : list (string * Z).

Local Abbreviation mapper := (blocking_mapper op).
Local Abbreviation try_keys :=
  (try_blocksize opts (blocking_mapper op) (squeezable op) blocksize).

(** The trial values leave the keys alone and bind no array. *)
Lemma try_blocksize_frame keys : forall at_arguments illegal at_arguments',
  try_keys keys at_arguments = Ok (illegal, at_arguments') ->
  (forall k, k ∈ keys -> k ∈ od_keys at_arguments) ->
  od_keys at_arguments' = od_keys at_arguments /\
  (forall k a, od_get k at_arguments' = Some (VArray a) ->
               od_get k at_arguments = Some (VArray a)).
Proof.
  induction keys as [|k keys IH]; intros at_args illegal at_args'; simpl.
  - by intros [= <- <-].
  - intros Hrun Hkeys.
    assert (Hk : k ∈ od_keys at_args) by (apply Hkeys; left).
    assert (Hset : forall n,
      try_keys keys (od_set k (VInt n) at_args) = Ok (illegal, at_args') ->
      od_keys at_args' = od_keys at_args /\
      (forall k' a, od_get k' at_args' = Some (VArray a) ->
                    od_get k' at_args = Some (VArray a))).
    { intros n Hrest. apply IH in Hrest as [Hkeys' Harrays].
      - split; [by rewrite Hkeys', od_keys_set_present|].
        intros k' a Hget. apply Harrays in Hget. rewrite od_get_set in Hget.
        destruct (decide (k = k')); [discriminate|done].
      - intros k' Hk'. rewrite od_keys_set_present by done. apply Hkeys. by right. }
    destruct (od_contains k blocksize).
    + apply result_bind_Ok in Hrun as (val & _ & Hrun).
      apply result_bind_Ok in Hrun as (i & _ & Hrun).
      destruct (le_end val _); [by apply (Hset val)|]. by injection Hrun as <- <-.
    + destruct (bool_decide (k ∈ squeezable op)); [by apply (Hset (at_squeezer opts))|].
      apply IH in Hrun; [done|]. intros k' Hk'. apply Hkeys. by right.
Qed.

Hypothesis wf : autotune_wf op bound.
Hypothesis blocksize_keys : forall k, k ∈ od_keys blocksize -> k ∈ od_keys mapper.

Local Abbreviation governing_kept := (governing_kept op bound).

Lemma try_blocksize_wf keys : forall at_arguments,
  governing_kept at_arguments ->
  exists at_arguments',
    try_keys keys at_arguments
    = Ok (existsb (exceeds_extent mapper bound blocksize) keys, at_arguments') /\
    governing_kept at_arguments'.
Proof.
  induction keys as [|k keys IH]; intros at_args Hkept; simpl.
  - by exists at_args.
  - assert (Hset : forall n,
      (k ∈ od_keys mapper \/ k ∈ squeezable op) ->
      governing_kept (od_set k (VInt n) at_args)).
    { intros n Hk k' i' Hi'. rewrite od_get_set_ne; [by apply (Hkept k')|].
      destruct (wf_governing _ _ wf k' i' Hi') as (Hnm & Hns & _).
      intros ->. by destruct Hk. }
    unfold exceeds_extent at 1, od_contains, od_item.
    destruct (od_get k blocksize) as [val|] eqn:Hval; simpl.
    + assert (Hk : k ∈ od_keys mapper).
      { apply blocksize_keys. by apply od_get_Some_keys in Hval. }
      apply od_get_elem_of in Hk as (i & Hi & _). rewrite Hi. simpl.
      destruct (wf_governing _ _ wf k i Hi) as (_ & _ & _ & n & Hn & Hend).
      rewrite (Hkept k i Hi), Hn, Hend. unfold governing_extent. rewrite Hn. simpl.
      destruct (val <=? n); simpl.
      * apply IH. apply Hset. left. by apply od_get_Some_keys in Hi.
      * by exists at_args.
    + destruct (bool_decide (k ∈ squeezable op)) eqn:Hsq.
      * apply IH. apply Hset. right. by apply bool_decide_eq_true in Hsq.
      * by apply IH.
Qed.

Lemma illegal_flag (at_arguments : list (string * value)) :
  (forall k, k ∈ od_keys bound -> k ∈ od_keys at_arguments) ->
  existsb (exceeds_extent mapper bound blocksize) (od_keys at_arguments)
  = negb (legal op bound blocksize).
Proof.
  intros Hkeys. unfold legal. rewrite negb_involutive.
  apply eq_iff_eq_true. rewrite !existsb_exists.
  split; intros (k & Hk & Hexceeds); exists k; (split; [|done]);
    unfold exceeds_extent in Hexceeds;
    destruct (od_get k blocksize) as [val|] eqn:Hval; try discriminate;
    apply od_get_Some_keys in Hval; apply list_elem_of_In.
  - done.
  - apply Hkeys. apply (wf_blocking _ _ wf). by apply blocksize_keys.
Qed.
End TryBlocksize.

Section Autotune.
Variables (opts : Options) (op : Operator) (bound : list (string * value)).

Local Abbreviation mapper := (blocking_mapper op).
Local Abbreviation extra := (_extra_arguments op).
Local Abbreviation signature := (od_keys (od_update bound (_extra_arguments op))).

(** *** Private copies of the outputs *)

Lemma value_copy_spec (v : value) (st : State) :
  match value_copy v st with
  | (Ok v', st') =>
      invocations st' = invocations st /\
      profiler_timings st' = profiler_timings st /\
      (forall l, is_Some (heap st !! l) -> heap st' !! l = heap st !! l) /\
      (forall a, v' = VArray a -> heap st !! arr_loc a = None)
  | (Err e, st') => st' = st /\ ~ has_copy v
  end.
Proof.
  destruct v as [f|d|a|n|b| |]; simpl; try (split; [done|tauto]).
  - split; [done|]. split; [done|]. split; [done|]. intros a [=].
  - split; [done|]. split; [done|]. split; [done|]. intros a [=].
  - split; [done|]. split; [done|]. split.
    + intros l Hl. apply lookup_insert_ne. intros <-.
      apply (is_fresh (dom (heap st))). by apply elem_of_dom.
    + intros a' [= <-]. simpl. apply not_elem_of_dom_1, is_fresh.
Qed.

Lemma copy_outputs_frame (h0 : gmap nat (list spec_float)) items :
  forall at_arguments st r st',
    copy_outputs (output_fields op) items at_arguments st = (r, st') ->
    (forall l, is_Some (h0 !! l) -> heap st !! l = h0 !! l) ->
    invocations st' = invocations st /\
    profiler_timings st' = profiler_timings st /\
    (forall l, is_Some (h0 !! l) -> heap st' !! l = h0 !! l) /\
    forall at_arguments', r = Ok at_arguments' ->
      (forall k, k ∈ items.*1 -> k ∈ od_keys at_arguments) ->
      od_keys at_arguments' = od_keys at_arguments /\
      (forall k, k ∉ output_fields op ->
                 od_get k at_arguments' = od_get k at_arguments) /\
      (forall k a, od_get k at_arguments' = Some (VArray a) ->
         (od_get k at_arguments = Some (VArray a) /\
          ~ (k ∈ output_fields op /\ k ∈ items.*1)) \/
         h0 !! arr_loc a = None).
Proof.
  induction items as [|[k v] items IH]; intros at_args st r st'; simpl.
  - intros [= <- <-] Hh0. split; [done|]. split; [done|]. split; [done|].
    intros at_args' [= <-] _. split; [done|]. split; [done|].
    intros k a Hget. left. split; [done|].
    intros [_ Hin]. by apply not_elem_of_nil in Hin.
  - destruct (bool_decide (k ∈ output_fields op)) eqn:Hout.
    + apply bool_decide_eq_true in Hout.
      rewrite M_bind_unfold. pose proof (value_copy_spec v st) as Hcopy.
      destruct (value_copy v st) as [[v'|e] st1].
      * destruct Hcopy as (Hinv & Hprof & Hheap & Hfresh).
        intros Hrest Hh0.
        assert (Hh1 : forall l, is_Some (h0 !! l) -> heap st1 !! l = h0 !! l).
        { intros l Hl. rewrite Hheap; [by apply Hh0|]. by rewrite Hh0. }
        destruct (IH _ _ _ _ Hrest Hh1) as (Hinv' & Hprof' & Hheap' & Hok).
        split; [congruence|]. split; [congruence|]. split; [done|].
        intros at_args' -> Hkeys.
        assert (Hk : k ∈ od_keys at_args) by (apply Hkeys; left).
        destruct (Hok at_args' eq_refl) as (Hkeys' & Hother & Harrays).
        { intros k' Hk'. rewrite od_keys_set_present by done. apply Hkeys. by right. }
        split; [by rewrite Hkeys', od_keys_set_present|]. split.
        -- intros k' Hk'. rewrite Hother by done. apply od_get_set_ne. congruence.
        -- intros k' a Hget. apply Harrays in Hget as [[Hget Hnot]|Hget]; [|by right].
           rewrite od_get_set in Hget. destruct (decide (k = k')) as [->|Hne].
           ++ injection Hget as ->. right.
              destruct (h0 !! arr_loc a) eqn:Hl; [|done].
              rewrite <- Hh0, (Hfresh a eq_refl) in Hl by (by rewrite Hl). done.
           ++ left. split; [done|]. intros [Ho [?|Hin]%elem_of_cons]; [done|].
              apply Hnot. by split.
      * destruct Hcopy as [-> _]. intros [= <- <-] Hh0.
        split; [done|]. split; [done|]. split; [done|]. intros ? [=].
    + apply bool_decide_eq_false in Hout. intros Hrest Hh0.
      destruct (IH _ _ _ _ Hrest Hh0) as (Hinv' & Hprof' & Hheap' & Hok).
      split; [done|]. split; [done|]. split; [done|].
      intros at_args' -> Hkeys.
      destruct (Hok at_args' eq_refl) as (Hkeys' & Hother & Harrays).
      { intros k' Hk'. apply Hkeys. by right. }
      split; [done|]. split; [done|].
      intros k' a Hget. apply Harrays in Hget as [[Hget Hnot]|Hget]; [|by right].
      left. split; [done|]. intros [Ho [->|Hin]%elem_of_cons]; [done|].
      apply Hnot. by split.
Qed.

Lemma copy_outputs_Ok items : forall at_arguments st,
  (forall k v, (k, v) ∈ items -> k ∈ output_fields op -> has_copy v) ->
  exists at_arguments' st',
    copy_outputs (output_fields op) items at_arguments st = (Ok at_arguments', st').
Proof.
  induction items as [|[k v] items IH]; intros at_args st Hcopy; simpl.
  - by eexists _, _.
  - assert (Hrest : forall k' v', (k', v') ∈ items -> k' ∈ output_fields op -> has_copy v').
    { intros k' v' Hin. apply Hcopy. by right. }
    destruct (bool_decide (k ∈ output_fields op)) eqn:Hout; [|by apply IH].
    apply bool_decide_eq_true in Hout. rewrite M_bind_unfold.
    pose proof (value_copy_spec v st) as Hv.
    destruct (value_copy v st) as [[v'|e] st1]; [by apply IH|].
    destruct Hv as [_ Hno]. exfalso. apply Hno. apply (Hcopy k); [left|done].
Qed.

(** *** The trials *)

Lemma extra_binds_no_array k a : (k, VArray a) ∉ extra.
Proof.
  unfold _extra_arguments. destruct (cls op); simpl;
    try apply not_elem_of_nil.
  intros Hin%list_elem_of_singleton. discriminate.
Qed.

Lemma run_trials_frame (h0 : gmap nat (list spec_float)) candidates :
  forall at_arguments timings st r st',
    run_trials opts op mapper (squeezable op) candidates at_arguments timings st
    = (r, st') ->
    writes_only_outputs op bound ->
    od_keys (od_update at_arguments extra) = signature ->
    outputs_private op h0 at_arguments ->
    (forall l, is_Some (h0 !! l) -> heap st !! l = h0 !! l) ->
    (forall l, is_Some (h0 !! l) -> heap st' !! l = h0 !! l) /\
    exists new, invocations st' = invocations st ++ new /\
                forall m, m ∈ new -> outputs_private op h0 m /\ od_keys m = signature.
Proof.
  induction candidates as [|blocksize candidates IH];
    intros at_args timings st r st' Hrun Hwrites Hkeys Hprivate Hheap.
  - injection Hrun as <- <-. split; [done|]. exists []. rewrite app_nil_r.
    split; [done|]. intros m Hm. by apply not_elem_of_nil in Hm.
  - simpl in Hrun. rewrite M_bind_unfold in Hrun. unfold lift in Hrun.
    destruct (try_blocksize opts mapper (squeezable op) blocksize
                (od_keys at_args) at_args) as [[illegal at1]|e] eqn:Htry.
    + apply try_blocksize_frame in Htry as [Hkeys1 Harrays1]; [|done].
      assert (Hprivate1 : outputs_private op h0 at1).
      { intros k a Hk Hget. apply (Hprivate k a Hk). by apply Harrays1. }
      destruct illegal.
      * apply (IH _ _ _ _ _ Hrun Hwrites); [|done|done].
        rewrite <- Hkeys. by apply od_update_keys_congr.
      * simpl in Hrun.
        set (at2 := od_update at1 extra) in *.
        assert (Hkeys2 : od_keys at2 = signature).
        { rewrite <- Hkeys. by apply od_update_keys_congr. }
        assert (Hprivate2 : outputs_private op h0 at2).
        { intros k a Hk Hget. apply od_update_get_cases in Hget as [Hget|Hin].
          - by apply (Hprivate1 k a).
          - by apply extra_binds_no_array in Hin. }
        rewrite invoke_then, get_state_then in Hrun.
        match type of Hrun with
        | run_trials _ _ _ _ _ _ _ ?st1 = _ => set (st1' := st1) in *
        end.
        assert (Hheap1 : forall l, is_Some (h0 !! l) -> heap st1' !! l = h0 !! l).
        { intros l Hl. subst st1'. simpl. rewrite Hwrites; [by apply Hheap|done|].
          intros k a Hk Hget Heq. apply Hprivate2 in Hget; [|done].
          rewrite Heq in Hget. rewrite Hget in Hl. by destruct Hl. }
        destruct (IH _ _ _ _ _ Hrun Hwrites) as (Hheap' & new & Hnew & Hcalls);
          [unfold at2; rewrite od_update_keys_idem; exact Hkeys2|done|done|].
        split; [done|]. exists (at2 :: new). split.
        -- rewrite Hnew. subst st1'. simpl. by rewrite <- app_assoc.
        -- intros m [->|Hm]%elem_of_cons; [done|by apply Hcalls].
    + injection Hrun as <- <-. split; [done|]. exists []. rewrite app_nil_r.
      split; [done|]. intros m Hm. by apply not_elem_of_nil in Hm.
Qed.

Lemma run_trials_wf candidates :
  autotune_wf op bound ->
  forall at_arguments timings st discovered,
    (forall blocksize, blocksize ∈ candidates ->
       forall k, k ∈ od_keys blocksize -> k ∈ od_keys mapper) ->
    governing_kept op bound at_arguments ->
    (forall k, k ∈ od_keys bound -> k ∈ od_keys at_arguments) ->
    od_keys timings = discovery_order discovered ->
    exists at_arguments' timings' st',
      run_trials opts op mapper (squeezable op) candidates at_arguments timings st
      = (Ok (at_arguments', timings'), st') /\
      od_keys timings'
      = discovery_order (discovered ++ List.filter (legal op bound) candidates) /\
      (exists new, invocations st' = invocations st ++ new /\
                   length new = length (List.filter (legal op bound) candidates)) /\
      (List.filter (legal op bound) candidates = [] -> st' = st /\ timings' = timings).
Proof.
  intros wf.
  induction candidates as [|blocksize candidates IH];
    intros at_args timings st discovered Hcands Hkept Hkeys Hdisc; simpl.
  - exists at_args, timings, st. rewrite app_nil_r.
    split; [done|]. split; [done|]. split; [|done].
    exists []. by rewrite app_nil_r.
  - assert (Hbs : forall k, k ∈ od_keys blocksize -> k ∈ od_keys mapper).
    { apply Hcands. left. }
    assert (Hrest : forall bs, bs ∈ candidates ->
              forall k, k ∈ od_keys bs -> k ∈ od_keys mapper).
    { intros bs Hin. apply Hcands. by right. }
    destruct (try_blocksize_wf opts op bound blocksize wf Hbs
                (od_keys at_args) at_args Hkept) as (at1 & Htry & Hkept1).
    rewrite (illegal_flag op bound blocksize wf Hbs at_args Hkeys) in Htry.
    pose proof Htry as Hframe.
    apply try_blocksize_frame in Hframe as [Hkeys1 _]; [|done].
    rewrite M_bind_unfold. unfold lift. rewrite Htry.
    destruct (legal op bound blocksize) eqn:Hlegal; simpl.
    + rewrite invoke_then, get_state_then.
      set (at2 := od_update at1 extra).
      match goal with
      | |- context [run_trials _ _ _ _ _ _ (od_set _ ?t _) ?st1] =>
          set (elapsed := t); set (st1' := st1)
      end.
      destruct (IH at2 (od_set blocksize elapsed timings) st1'
                  (discovered ++ [blocksize]))
        as (at' & timings' & st' & Hrun & Hd & (new & Hnew & Hlen) & _).
      * done.
      * intros k i Hi. unfold at2. rewrite od_update_get_notin; [by apply (Hkept1 k)|].
        by destruct (wf_governing _ _ wf k i Hi) as (_ & _ & ? & _).
      * intros k Hk. unfold at2. apply od_update_keys. left.
        rewrite Hkeys1. by apply Hkeys.
      * rewrite discovery_order_snoc. by apply od_keys_set_congr.
      * exists at', timings', st'. split; [done|].
        split; [by rewrite Hd, <- app_assoc|]. split; [|done].
        exists (at2 :: new). split; [|by rewrite <- Hlen].
        rewrite Hnew. unfold st1'. simpl. by rewrite <- app_assoc.
    + apply IH; try done. intros k Hk. rewrite Hkeys1. by apply Hkeys.
Qed.

Lemma run_trials_numbers candidates :
  reports_numbers op ->
  forall at_arguments timings st at_arguments' timings' st',
    run_trials opts op mapper (squeezable op) candidates at_arguments timings st
    = (Ok (at_arguments', timings'), st') ->
    (forall c t, od_get c timings = Some t -> is_number t) ->
    forall c t, od_get c timings' = Some t -> is_number t.
Proof.
  intros Hnumbers.
  induction candidates as [|blocksize candidates IH];
    intros at_args timings st at_args' timings' st' Hrun Hnum.
  - by injection Hrun as <- <- <-.
  - simpl in Hrun. rewrite M_bind_unfold in Hrun. unfold lift in Hrun.
    destruct (try_blocksize opts mapper (squeezable op) blocksize
                (od_keys at_args) at_args) as [[illegal at1]|e]; [|discriminate].
    destruct illegal; simpl in Hrun.
    + by apply (IH _ _ _ _ _ _ Hrun).
    + rewrite invoke_then, get_state_then in Hrun.
      apply (IH _ _ _ _ _ _ Hrun).
      intros c t. rewrite od_get_set. destruct (decide (blocksize = c)).
      * intros [= <-]. apply Hnumbers.
      * apply Hnum.
Qed.

(** *** Writing the best candidate back *)

Lemma write_back_sound (best : list (string * Z)) items : forall a a',
  write_back mapper best items a = Ok a' ->
  (forall k, k ∈ items.*1 -> k ∈ od_keys a) ->
  od_keys a' = od_keys a /\
  forall k, od_get k a' =
            if bool_decide (k ∈ items.*1 /\ k ∈ od_keys mapper)
            then VInt <$> od_get k best
            else od_get k a.
Proof.
  induction items as [|[k v] items IH]; intros a a' Hrun Hkeys.
  - injection Hrun as <-. split; [done|]. intros k.
    rewrite bool_decide_eq_false_2; [done|]. intros [Hin _].
    by apply not_elem_of_nil in Hin.
  - rewrite fmap_cons in *. cbn [write_back fst] in *.
    assert (Hshift : forall k' : string,
      k' <> k ->
      bool_decide (k' ∈ k :: items.*1 /\ k' ∈ od_keys mapper)
      = bool_decide (k' ∈ items.*1 /\ k' ∈ od_keys mapper)).
    { intros k' Hne. apply bool_decide_ext. rewrite elem_of_cons.
      split; [|intros [? ?]; split; [by right|done]].
      intros [[->|?] ?]; [done|by split]. }
    destruct (od_contains k mapper) eqn:Hk.
    + apply od_contains_true in Hk.
      apply result_bind_Ok in Hrun as (b & Hb & Hrun).
      unfold od_item in Hb. destruct (od_get k best) as [b'|] eqn:Hb'; [|discriminate].
      injection Hb as ->.
      apply IH in Hrun as [Hkeys' Hget].
      2:{ intros k' Hk'. apply od_keys_set_elem. right. apply Hkeys. by right. }
      split.
      * rewrite Hkeys'. apply od_keys_set_present. apply Hkeys. left.
      * intros k'. rewrite Hget, od_get_set.
        destruct (decide (k = k')) as [<-|Hne].
        -- rewrite Hb'. rewrite (bool_decide_eq_true_2 (k ∈ k :: _ /\ _));
             [by destruct (bool_decide _)|]. split; [left|done].
        -- by rewrite Hshift.
    + apply od_contains_false in Hk.
      apply IH in Hrun as [Hkeys' Hget].
      2:{ intros k' Hk'. apply Hkeys. by right. }
      split; [done|]. intros k'. rewrite Hget.
      destruct (decide (k' = k)) as [->|Hne]; [|by rewrite Hshift].
      rewrite !bool_decide_eq_false_2; [done| |]; intros [_ ?]; done.
Qed.

Lemma write_back_Ok (best : list (string * Z)) items : forall a,
  (forall k, k ∈ od_keys mapper -> exists b, od_get k best = Some b) ->
  exists a', write_back mapper best items a = Ok a'.
Proof.
  induction items as [|[k v] items IH]; intros a Hbest; cbn [write_back].
  - by eexists.
  - destruct (od_contains k mapper) eqn:Hk; [|by apply IH].
    apply od_contains_true in Hk. destruct (Hbest k Hk) as [b Hb].
    unfold od_item. rewrite Hb. cbn [mbind result_bind]. by apply IH.
Qed.

(** *** The candidates *)

Lemma mapM_result_elem {A B} (f : A -> result B) (l : list A) : forall ys y,
  mapM_result f l = Ok ys -> y ∈ ys -> exists x, x ∈ l /\ f x = Ok y.
Proof.
  induction l as [|x l IH]; intros ys y; simpl.
  - intros [= <-] Hy. by apply not_elem_of_nil in Hy.
  - intros (y0 & Hy0 & Hrest)%result_bind_Ok.
    apply result_bind_Ok in Hrest as (ys0 & Hys0 & [= <-]).
    intros [->|Hy]%elem_of_cons.
    + exists x. split; [left|done].
    + destruct (IH ys0 y Hys0 Hy) as (x' & Hx' & Hfx'). exists x'. split; [by right|done].
Qed.

Lemma last_removelast {A} (l : list A) (x : A) :
  last l = Some x -> l = removelast l ++ [x].
Proof.
  induction l as [|y l IH]; [done|]. destruct l as [|z l].
  - by intros [= ->].
  - intros Hlast. simpl. f_equal. by apply IH.
Qed.

Lemma elem_of_removelast {A} (l : list A) (x : A) : x ∈ removelast l -> x ∈ l.
Proof.
  induction l as [|y l IH]; [done|]. destruct l as [|z l].
  - simpl. intros Hx. by apply not_elem_of_nil in Hx.
  - intros [->|Hx]%elem_of_cons; [left|right; by apply IH].
Qed.

Lemma uniform_keys (keys : list string) (v : Z) :
  od_keys (map (fun k => (k, v)) keys) = keys.
Proof. unfold od_keys. induction keys as [|k keys IH]; simpl; [done|by f_equal]. Qed.

Lemma od_of_items_keys {K V} `{EqDecision K} (items : list (K * V)) (k : K) :
  k ∈ od_keys (od_of_items items) <-> k ∈ items.*1.
Proof.
  unfold od_of_items. rewrite od_update_keys. split; [|by right].
  intros [Hin|?]; [|done]. by apply not_elem_of_nil in Hin.
Qed.

Lemma elaborated_keys (keys : list string) (blocksizes elaborated : list (list (string * Z))) :
  (forall bs, bs ∈ blocksizes -> od_keys bs = keys) ->
  elaborated_blocksizes blocksizes = Ok elaborated ->
  forall bs, bs ∈ elaborated -> forall k, k ∈ od_keys bs <-> k ∈ keys.
Proof.
  intros Hkeys Hel bs Hbs k. unfold elaborated_blocksizes in Hel.
  apply result_bind_Ok in Hel as (swapped & Hswapped & [= <-]).
  apply elem_of_app in Hbs as [Hbs|Hbs].
  - apply list_elem_of_In, in_concat in Hbs as (group & Hgroup & Hbs).
    apply list_elem_of_In in Hgroup, Hbs.
    destruct (mapM_result_elem _ _ _ _ Hswapped Hgroup) as (blocksize & Hin & Hinner).
    destruct (mapM_result_elem _ _ _ _ Hinner Hbs) as (i & Hi & Hmake).
    apply result_bind_Ok in Hmake as (handle & Hhandle & [= <-]).
    unfold Scheduler.py_last in Hhandle.
    destruct (last i) as [h|] eqn:Hlast; [|discriminate]. injection Hhandle as ->.
    assert (Hblocksize : od_keys blocksize = keys).
    { apply Hkeys. by apply (subseteq_take 3) in Hin. }
    assert (Hlast' : last keys = Some handle.1).
    { rewrite <- (Hkeys i Hi). unfold od_keys. by rewrite fmap_last, Hlast. }
    rewrite od_of_items_keys, fmap_app, elem_of_app. simpl.
    rewrite list_elem_of_singleton. split.
    + intros [Hk| ->].
      * rewrite <- Hblocksize. apply list_elem_of_fmap in Hk as (kv & -> & Hkv).
        apply list_elem_of_fmap_2. by apply elem_of_removelast.
      * by apply last_Some_elem_of in Hlast'.
    + intros Hk. rewrite (last_removelast keys handle.1 Hlast') in Hk.
      apply elem_of_app in Hk as [Hk| ->%list_elem_of_singleton]; [|by right].
      left. rewrite <- Hblocksize in Hk. unfold od_keys in Hk.
      assert (Hcomm : removelast (blocksize.*1) = (removelast blocksize).*1).
      { clear. induction blocksize as [|a [|b l] IH]; [done|done|].
        simpl in *. by rewrite IH. }
      by rewrite Hcomm in Hk.
  - apply list_elem_of_In, in_flat_map in Hbs as (blocksize & Hin & Hbs).
    apply in_flat_map in Hbs as (i & _ & Hbs).
    apply in_map_iff in Hbs as (j & <- & _).
    apply list_elem_of_In in Hin. rewrite od_of_items_keys, <- (Hkeys _ Hin).
    unfold od_keys. rewrite <- list_fmap_compose.
    assert (Hfst : forall l : list (string * Z),
      (fst ∘ (fun kv : string * Z =>
                (kv.1, if bool_decide (kv.1 ∈ j)
                       then default kv.2 (od_get kv.1 blocksize) * 2
                       else kv.2))) <$> l = l.*1).
    { intros l. by apply list_fmap_ext. }
    by rewrite (Hfst blocksize).
Qed.

Lemma attempted_keys (candidates : list (list (string * Z))) :
  attempted_blocksizes opts op = Ok candidates ->
  forall bs, bs ∈ candidates -> forall k, k ∈ od_keys bs <-> k ∈ od_keys mapper.
Proof.
  unfold attempted_blocksizes.
  set (blocksizes := map _ (at_blocksize opts)).
  assert (Hbasic : forall bs, bs ∈ blocksizes -> od_keys bs = od_keys mapper).
  { intros bs Hbs. apply list_elem_of_fmap in Hbs as (v & -> & _).
    apply uniform_keys. }
  destruct (needs_aggressive_autotuning op).
  - intros (elaborated & Hel & [= <-])%result_bind_Ok bs [Hbs|Hbs]%elem_of_app k.
    + by rewrite (Hbasic bs).
    + by apply (elaborated_keys _ _ _ Hbasic Hel).
  - intros [= <-] bs Hbs k. by rewrite (Hbasic bs).
Qed.

(** *** The search as a whole *)

Lemma discovery_order_elem (l : list (list (string * Z))) (c : list (string * Z)) :
  c ∈ discovery_order l <-> c ∈ l.
Proof.
  unfold discovery_order. rewrite od_of_items_keys.
  assert (Hid : (map (fun c : list (string * Z) => (c, tt)) l).*1 = l).
  { induction l as [|x l IH]; [done|]. simpl. f_equal. exact IH. }
  by rewrite Hid.
Qed.

Lemma SFltb_asym (a b : spec_float) : SFltb a b = true -> SFltb b a = false.
Proof.
  intros Hab. destruct (SFltb b a) eqn:Hba; [|done].
  pose proof (SFltb_trans a b a Hab Hba) as Haa.
  unfold SFltb, SFcompare in Haa.
  destruct a as [s|s| |s m e]; try discriminate; try (by destruct s).
  destruct s; rewrite Z.compare_refl in Haa;
    change (Pos.compare_cont Eq m m) with (Pos.compare m m) in Haa;
    by rewrite Pos.compare_refl in Haa.
Qed.

Lemma autotune_trials_frame st r st' :
  autotune_trials opts op bound st = (r, st') ->
  writes_only_outputs op bound ->
  (forall l, is_Some (heap st !! l) -> heap st' !! l = heap st !! l) /\
  exists new, invocations st' = invocations st ++ new /\
    forall m, m ∈ new -> outputs_private op (heap st) m /\ od_keys m = signature.
Proof.
  unfold autotune_trials. rewrite M_bind_unfold. intros Hrun Hwrites.
  destruct (copy_outputs (output_fields op) bound bound st)
    as [[at0|e] st0] eqn:Hcopy.
  - apply (copy_outputs_frame (heap st)) in Hcopy
      as (Hinv0 & _ & Hheap0 & Hok); [|done].
    destruct (Hok at0 eq_refl) as (Hkeys0 & _ & Harrays0); [done|].
    rewrite M_bind_unfold in Hrun. unfold lift in Hrun.
    destruct (attempted_blocksizes opts op) as [candidates|e].
    + rewrite M_bind_unfold in Hrun.
      destruct (run_trials opts op mapper (squeezable op) candidates at0 [] st0)
        as [r1 st1] eqn:Htrials.
      apply (run_trials_frame (heap st)) in Htrials
        as (Hheap1 & new & Hnew & Hcalls); [|done| |  |done].
      * assert (st' = st1) as ->.
        { destruct r1 as [[? ?]|?]; by injection Hrun. }
        split; [done|]. exists new. by rewrite Hnew, Hinv0.
      * by apply od_update_keys_congr.
      * intros k a Hk Hget. apply Harrays0 in Hget as [[Hget Hnot]|?]; [|done].
        exfalso. apply Hnot. split; [done|]. by apply od_get_Some_keys in Hget.
    + injection Hrun as <- <-. split; [done|]. exists []. rewrite app_nil_r.
      split; [done|]. intros m Hm. by apply not_elem_of_nil in Hm.
  - apply (copy_outputs_frame (heap st)) in Hcopy as (Hinv0 & _ & Hheap0 & _); [|done].
    injection Hrun as <- <-. split; [done|]. exists []. rewrite app_nil_r.
    split; [done|]. intros m Hm. by apply not_elem_of_nil in Hm.
Qed.

Lemma autotune_trials_wf st candidates :
  autotune_wf op bound ->
  attempted_blocksizes opts op = Ok candidates ->
  exists timings st',
    autotune_trials opts op bound st = (Ok timings, st') /\
    od_keys timings = discovery_order (List.filter (legal op bound) candidates) /\
    (reports_numbers op -> forall c t, od_get c timings = Some t -> is_number t) /\
    (exists new, invocations st' = invocations st ++ new /\
                 length new = length (List.filter (legal op bound) candidates)) /\
    (List.filter (legal op bound) candidates = [] ->
       profiler_timings st' = profiler_timings st).
Proof.
  intros wf Hcands. unfold autotune_trials. rewrite M_bind_unfold.
  destruct (copy_outputs_Ok bound bound st) as (at0 & st0 & Hcopy).
  { intros k v Hin Hk. apply (wf_outputs _ _ wf k); [done|].
    apply od_get_elem_NoDup; [apply (wf_dict _ _ wf)|done]. }
  rewrite Hcopy.
  apply (copy_outputs_frame (heap st)) in Hcopy as (Hinv0 & Hprof0 & _ & Hok); [|done].
  destruct (Hok at0 eq_refl) as (Hkeys0 & Hother0 & _); [done|].
  rewrite M_bind_unfold. unfold lift. rewrite Hcands. rewrite M_bind_unfold.
  destruct (run_trials_wf candidates wf at0 [] st0 [])
    as (at' & timings & st' & Hrun & Hdisc & (new & Hnew & Hlen) & Hnone).
  - intros bs Hbs k Hk. by apply (attempted_keys candidates Hcands bs).
  - intros k i Hi. apply Hother0.
    destruct (wf_governing _ _ wf k i Hi) as (_ & _ & _ & n & Hn & _).
    intros Hout. by apply (wf_outputs _ _ wf _ _ Hout Hn).
  - intros k Hk. by rewrite Hkeys0.
  - done.
  - rewrite Hrun. exists timings, st'. split; [done|]. split; [done|].
    split; [|split].
    + intros Hnumbers. by apply (run_trials_numbers candidates Hnumbers _ _ _ _ _ _ Hrun).
    + exists new. by rewrite Hnew, Hinv0.
    + intros Hnil. destruct (Hnone Hnil) as [-> _]. done.
Qed.

Lemma OperatorCore_autotune_unfold st :
  cls op = OperatorCore -> has_applied_blocking op = true ->
  _autotune opts op bound st
  = match autotune_trials opts op bound st with
    | (Ok timings, st') =>
        (best ← fastest timings;
         write_back mapper best bound bound, st')
    | (Err e, st') => (Err e, st')
    end.
Proof.
  intros Hcls Hblocking. unfold _autotune, OperatorCore_autotune.
  rewrite Hcls, Hblocking. simpl. rewrite M_bind_unfold.
  destruct (autotune_trials opts op bound st) as [[timings|e] st']; [|done].
  rewrite M_bind_unfold. unfold lift. by destruct (fastest timings).
Qed.

Lemma elapsed_lt_asym (a b : option spec_float) :
  (exists x, a = Some x) -> elapsed_lt a b = true -> elapsed_lt b a = false.
Proof.
  intros [x ->]. destruct b as [b|]; simpl; [apply SFltb_asym|done].
Qed.

Lemma elapsed_lt_irrefl (x : spec_float) : elapsed_lt (Some x) (Some x) = false.
Proof.
  simpl. destruct (SFltb x x) eqn:Hx; [|done]. by rewrite (SFltb_asym x x Hx) in Hx.
Qed.


(** C7.  If every candidate is illegal, no trial is run and the autotuner
    fails: [min] of the empty [timings] raises [ValueError].  The buffers
    that existed, the profiler and the log of native calls are as before, no
    block size is written, and the error propagates through [arguments] and
    [apply] before the native routine is called. *)
Theorem autotune_fails_without_legal_candidate st candidates :
  cls op = OperatorCore ->
  has_applied_blocking op = true ->
  autotune_wf op bound ->
  attempted_blocksizes opts op = Ok candidates ->
  (forall c, c ∈ candidates -> legal op bound c = false) ->
  exists st',
    _autotune opts op bound st = (Err ValueError, st') /\
    invocations st' = invocations st /\
    profiler_timings st' = profiler_timings st /\
    (forall l, is_Some (heap st !! l) -> heap st' !! l = heap st !! l) /\
    (forall args kwargs dim_sizes,
        bind_arguments op args kwargs = Ok (bound, dim_sizes, true) ->
        arguments opts op args kwargs st = (Err ValueError, st') /\
        apply opts op args kwargs st = (Err ValueError, st')).
Proof.
  intros Hcls Hblocking wf Hcands Hillegal.
  destruct (autotune_trials_wf st candidates wf Hcands)
    as (timings & st' & Htrials & Hdisc & _ & (new & Hnew & Hlen) & Hprof).
  assert (Hnil : List.filter (legal op bound) candidates = []).
  { destruct (List.filter (legal op bound) candidates) as [|c l] eqn:Hfilter; [done|].
    assert (Hc : c ∈ List.filter (legal op bound) candidates).
    { rewrite Hfilter. left. }
    apply elem_of_filter_bool in Hc as [Hc Hlegal].
    rewrite (Hillegal c Hc) in Hlegal. discriminate. }
  rewrite Hnil in Hdisc, Hlen. destruct new; [|discriminate].
  rewrite app_nil_r in Hnew.
  assert (Htimings : timings = []).
  { destruct timings; [done|discriminate]. }
  subst timings.
  assert (Hauto : _autotune opts op bound st = (Err ValueError, st')).
  { by rewrite (OperatorCore_autotune_unfold st Hcls Hblocking), Htrials. }
  exists st'. split; [done|]. split; [done|]. split; [by apply Hprof|]. split.
  - unfold autotune_trials in Htrials. rewrite M_bind_unfold in Htrials.
    destruct (copy_outputs (output_fields op) bound bound st)
      as [[at0|e] st0] eqn:Hcopy; [|discriminate].
    apply (copy_outputs_frame (heap st)) in Hcopy as (_ & _ & Hheap0 & Hok); [|done].
    rewrite M_bind_unfold in Htrials. unfold lift in Htrials.
    rewrite Hcands, M_bind_unfold in Htrials.
    destruct (Hok at0 eq_refl) as (Hkeys0 & Hother0 & _); [done|].
    destruct (run_trials_wf candidates wf at0 [] st0 [])
      as (at' & timings' & st1 & Hrun & _ & _ & Hnone).
    + intros bs Hbs k Hk. by apply (attempted_keys candidates Hcands bs).
    + intros k i Hi. apply Hother0.
      destruct (wf_governing _ _ wf k i Hi) as (_ & _ & _ & n & Hn & _).
      intros Hout. by apply (wf_outputs _ _ wf _ _ Hout Hn).
    + intros k Hk. by rewrite Hkeys0.
    + done.
    + rewrite Hrun in Htrials. injection Htrials as _ <-.
      destruct (Hnone Hnil) as [-> _]. done.
  - intros args kwargs dim_sizes Hbind.
    assert (Hargs : arguments opts op args kwargs st = (Err ValueError, st')).
    { unfold arguments. rewrite M_bind_unfold. unfold lift. rewrite Hbind.
      rewrite M_bind_unfold, Hauto. done. }
    split; [done|]. unfold apply. by rewrite M_bind_unfold, Hargs.
Qed.

(** C9.  Whatever the autotuner returns, every buffer that existed when it
    was entered has its contents unchanged, as long as the native routine
    writes only the arrays bound to its output parameters: each trial call
    is made with the operator's signature and binds every output parameter
    to an array that did not exist before (a private copy).  When the
    autotuner returns a mapping, it has the caller's keys, its entries other
    than the blocking parameters are the caller's, and each blocking
    parameter of the mapping holds its value in the fastest recorded
    candidate. *)
Theorem autotune_keeps_caller_buffers st r st' :
  _autotune opts op bound st = (r, st') ->
  writes_only_outputs op bound ->
  (forall l, is_Some (heap st !! l) -> heap st' !! l = heap st !! l) /\
  (exists new, invocations st' = invocations st ++ new /\
     forall m, m ∈ new -> outputs_private op (heap st) m /\ od_keys m = signature) /\
  forall bound', r = Ok bound' ->
    od_keys bound' = od_keys bound /\
    (forall k, k ∉ od_keys mapper -> od_get k bound' = od_get k bound) /\
    (cls op = OperatorCore -> has_applied_blocking op = true ->
     exists timings best,
       autotune_trials opts op bound st = (Ok timings, st') /\
       fastest timings = Ok best /\
       forall k, k ∈ od_keys mapper -> k ∈ od_keys bound ->
                 od_get k bound' = VInt <$> od_get k best).
Proof.
  intros Hauto Hwrites.
  assert (Hidle : (r, st') = (Ok bound, st) ->
    (forall l, is_Some (heap st !! l) -> heap st' !! l = heap st !! l) /\
    (exists new, invocations st' = invocations st ++ new /\
       forall m, m ∈ new -> outputs_private op (heap st) m /\ od_keys m = signature) /\
    forall bound', r = Ok bound' ->
      od_keys bound' = od_keys bound /\
      (forall k, k ∉ od_keys mapper -> od_get k bound' = od_get k bound)).
  { intros [= -> ->]. split; [done|]. split.
    - exists []. rewrite app_nil_r. split; [done|].
      intros m Hm. by apply not_elem_of_nil in Hm.
    - by intros bound' [= <-]. }
  destruct (cls op) eqn:Hcls;
    try (unfold _autotune in Hauto; rewrite Hcls in Hauto;
         destruct (Hidle (eq_sym Hauto)) as (? & ? & Hret);
         split; [done|]; split; [done|];
         intros bound' Hbound'; destruct (Hret bound' Hbound') as [? ?];
         split; [done|]; split; [done|]; intros [=]).
  destruct (has_applied_blocking op) eqn:Hblocking.
  2:{ unfold _autotune, OperatorCore_autotune in Hauto.
      rewrite Hcls, Hblocking in Hauto.
      destruct (Hidle (eq_sym Hauto)) as (? & ? & Hret).
      split; [done|]. split; [done|].
      intros bound' Hbound'. destruct (Hret bound' Hbound') as [? ?].
      split; [done|]. split; [done|]. intros _ [=]. }
  rewrite (OperatorCore_autotune_unfold st Hcls Hblocking) in Hauto.
  destruct (autotune_trials opts op bound st) as [[timings|e] st1] eqn:Htrials.
  - injection Hauto as Hr <-.
    destruct (autotune_trials_frame st _ _ Htrials Hwrites) as [Hheap Hcalls].
    split; [done|]. split; [done|].
    intros bound' ->. apply result_bind_Ok in Hr as (best & Hbest & Hwrite).
    apply write_back_sound in Hwrite as [Hkeys' Hget']; [|done].
    split; [done|]. split.
    + intros k Hk. rewrite Hget', bool_decide_eq_false_2; [done|]. by intros [_ ?].
    + intros _ _. exists timings, best. split; [done|]. split; [done|].
      intros k Hk Hin. by rewrite Hget', bool_decide_eq_true_2.
  - injection Hauto as <- <-.
    destruct (autotune_trials_frame st _ _ Htrials Hwrites) as [Hheap Hcalls].
    split; [done|]. split; [done|]. intros ? [=].
Qed.
End Autotune.

(** *** The example of the specification *)

Ltac decide_by_computation := apply (bool_decide_unpack _); vm_compute; exact I.

Lemma blocked_mapping_wf : autotune_wf (blocked_operator None) blocked_mapping.
Proof.
  split.
  - decide_by_computation.
  - intros k Hk.
    change (od_keys (blocking_mapper (blocked_operator None)))
      with ["x_block_size"] in Hk.
    apply list_elem_of_singleton in Hk as ->. decide_by_computation.
  - intros k i Hget.
    change (blocking_mapper (blocked_operator None))
      with [("x_block_size", blocked_x None)] in *.
    simpl in Hget. destruct (decide (k = "x_block_size")); [|done].
    injection Hget as <-.
    split; [decide_by_computation|].
    split; [decide_by_computation|].
    split; [decide_by_computation|].
    by exists 40.
  - intros k v ->%list_elem_of_singleton [= <-]. done.
Qed.

Lemma blocked_routine_reports_numbers v : reports_numbers (blocked_operator v).
Proof.
  intros args st. simpl. unfold trial_seconds.
  destruct (args !! 3%nat) as [[| | |b| | |]|];
    repeat match goal with |- context [if ?c then _ else _] => destruct c end;
    reflexivity.
Qed.

Lemma blocked_routine_writes_only_outputs v :
  writes_only_outputs (blocked_operator v) blocked_mapping.
Proof.
  intros m st l Hkeys Hout.
  change (od_keys (od_update blocked_mapping (_extra_arguments (blocked_operator v))))
    with ["u"; "x"; "y"; "x_block_size"; "timings"] in Hkeys.
  destruct m as [|[k0 v0] m]; [discriminate|]. injection Hkeys as -> Hkeys.
  simpl. destruct v0 as [| |a| | | |]; try done.
  apply lookup_insert_ne. apply (Hout "u"); [left|]. reflexivity.
Qed.


Lemma autotune_fails_without_legal_candidate_witness :
  exists st',
    _autotune large_options (blocked_operator None) blocked_mapping empty_state
    = (Err ValueError, st') /\
    invocations st' = [] /\
    apply large_options (blocked_operator None) [] [("autotune", VBool true)]
      empty_state
    = (Err ValueError, st').
Proof.
  destruct (autotune_fails_without_legal_candidate large_options
              (blocked_operator None) blocked_mapping empty_state
              [[("x_block_size", 64)]; [("x_block_size", 128)]]
              eq_refl eq_refl blocked_mapping_wf eq_refl)
    as (st' & Hauto & Hinv & _ & _ & Hcall).
  - intros c [->|[->|Hc]%elem_of_cons]%elem_of_cons; [reflexivity|reflexivity|].
    by apply not_elem_of_nil in Hc.
  - exists st'. split; [exact Hauto|]. split; [exact Hinv|].
    exact (proj2 (Hcall [] [("autotune", VBool true)]
                    [(dim_x, 40); (dim_y, 20); (x_block_size, 40)] eq_refl)).
Defined.

Lemma autotune_keeps_caller_buffers_witness :
  let run := _autotune trial_options (blocked_operator None) blocked_mapping
               empty_state in
  heap run.2 !! 0%nat = Some [] /\
  exists new, invocations run.2 = [] ++ new /\
    forall m, m ∈ new ->
      outputs_private (blocked_operator None) (heap empty_state) m /\
      od_keys m = ["u"; "x"; "y"; "x_block_size"; "timings"].
Proof.
  intros run.
  destruct (autotune_keeps_caller_buffers trial_options (blocked_operator None)
              blocked_mapping empty_state run.1 run.2)
    as (Hheap & Hcalls & _).
  - unfold run.
    by destruct (_autotune trial_options (blocked_operator None) blocked_mapping
                   empty_state).
  - apply blocked_routine_writes_only_outputs.
  - split; [|exact Hcalls]. rewrite Hheap; [reflexivity|]. by eexists.
Defined.

(** ** Performance accounting *)

Lemma od_get_remove_ne {K V} `{EqDecision K} (k k' : K) (d : list (K * V)) :
  k <> k' -> od_get k' (od_remove k d) = od_get k' d.
Proof.
  intros Hne. induction d as [|[k0 v0] d IH]; simpl; [done|].
  destruct (decide (k = k0)) as [->|Hne0]; simpl.
  - by rewrite decide_False.
  - destruct (decide (k' = k0)); [done|apply IH].
Qed.

Lemma fold_left_mul (l : list Z) (a : Z) : fold_left Z.mul l a = a * product l.
Proof.
  revert a. induction l as [|x l IH]; intros a; simpl; [lia|].
  rewrite IH. unfold product. simpl. lia.
Qed.

Lemma reduce_mul_product (l : list Z) (p : Z) :
  reduce_mul l = Ok p -> p = product l.
Proof.
  destruct l as [|x l]; simpl; [discriminate|]. intros [= <-].
  rewrite fold_left_mul. done.
Qed.

Lemma py_float_Ok (z : Z) (x : spec_float) : py_float z = Ok x -> x = f64_of_Z z.
Proof. unfold py_float. destruct (f64_of_Z z); congruence. Qed.

Lemma py_truediv_Ok (x y q : spec_float) :
  py_truediv x y = Ok q -> q = f64_div x y /\ f64_is_zero y = false.
Proof. unfold py_truediv. destruct (f64_is_zero y); [discriminate|]. by intros [= <-]. Qed.

Lemma py_truediv_int_Ok (x q : spec_float) (n : Z) :
  py_truediv_int x n = Ok q -> q = f64_div x (f64_of_Z n).
Proof.
  unfold py_truediv_int. intros (y & ->%py_float_Ok & Hq)%result_bind_Ok.
  by apply py_truediv_Ok in Hq as [-> _].
Qed.

Lemma mapM_result_Forall2 {A B} (f : A -> result B) (l : list A) : forall ys,
  mapM_result f l = Ok ys -> Forall2 (fun x y => f x = Ok y) l ys.
Proof.
  induction l as [|x l IH]; intros ys; simpl.
  - intros [= <-]. constructor.
  - intros (y & Hy & Hrest)%result_bind_Ok.
    apply result_bind_Ok in Hrest as (ys0 & Hys0 & [= <-]).
    constructor; [done|by apply IH].
Qed.

(** The entry that [section_entry] computes. *)
Lemma section_entry_formulas op dim_sizes timings itspace profile key e :
  section_entry op dim_sizes timings itspace profile = Ok (key, e) ->
  key = timer profile /\
  od_get (timer profile) timings = Some (time e) /\
  Forall2 (fun i n => realized_extent dim_sizes i = Some n) itspace (itershape e) /\
  Forall2 (fun i n => data_extent dim_sizes i = Some n) itspace (datashape e) /\
  oi e = f64_div (f64_of_Z (flops_of (ops profile) (itershape e)))
           (f64_of_Z (traffic_of (memory profile) (datashape e)
                        (itemsize (dtype_of op)))) /\
  gflopss e = f64_div (f64_div (f64_of_Z (flops_of (ops profile) (itershape e)))
                         (f64_of_Z (10 ^ 9)))
                (time e).
Proof.
  unfold section_entry. intros Hentry.
  apply result_bind_Ok in Hentry as (t & Ht & Hentry).
  apply result_bind_Ok in Hentry as (iterexts & Hiter & Hentry).
  apply result_bind_Ok in Hentry as (iterspace & ->%reduce_mul_product & Hentry).
  apply result_bind_Ok in Hentry as (flops & ->%py_float_Ok & Hentry).
  apply result_bind_Ok in Hentry as (gflops & ->%py_truediv_int_Ok & Hentry).
  apply result_bind_Ok in Hentry as (dataexts & Hdata & Hentry).
  apply result_bind_Ok in Hentry as (dataspace & ->%reduce_mul_product & Hentry).
  apply result_bind_Ok in Hentry as (o & ->%py_truediv_int_Ok & Hentry).
  apply result_bind_Ok in Hentry as (g & [-> _]%py_truediv_Ok & [= <- <-]).
  simpl. split; [done|]. split.
  { unfold od_item in Ht. by destruct (od_get (timer profile) timings); [injection Ht as ->|]. }
  split.
  { apply mapM_result_Forall2 in Hiter. eapply Forall2_impl; [exact Hiter|].
    intros i n. unfold realized_extent. simpl.
    by destruct (it_extent i _); [intros [= ->]|]. }
  split; [|done].
  apply mapM_result_Forall2 in Hdata. eapply Forall2_impl; [exact Hdata|].
  intros i n. unfold data_extent, od_item. simpl.
  destruct (dim_size (it_dim i)) as [m|]; [destruct (negb (m =? 0))|];
    try (by intros [= ->]);
    by destruct (od_get (section_dim i) dim_sizes); [intros [= ->]|].
Qed.

Lemma summarize_sections_spec op dim_sizes timings sections : forall summary0 summary,
  summarize_sections op dim_sizes timings sections summary0 = Ok summary ->
  (forall k, k ∉ map (fun s => timer s.2) sections ->
             od_get k summary = od_get k summary0) /\
  (NoDup (map (fun s : list Iteration * Profile => timer s.2) sections) ->
   forall itspace profile, (itspace, profile) ∈ sections ->
     exists e, section_entry op dim_sizes timings itspace profile = Ok (timer profile, e) /\
               od_get (timer profile) summary = Some e).
Proof.
  induction sections as [|[itspace0 profile0] sections IH]; intros summary0 summary; simpl.
  - intros [= <-]. split; [done|]. intros _ ? ? Hin. by apply not_elem_of_nil in Hin.
  - intros ([key e0] & Hentry & Hrest)%result_bind_Ok.
    pose proof (section_entry_formulas _ _ _ _ _ _ _ Hentry) as (-> & _).
    apply IH in Hrest as [Hother Hbound]. unfold setsection in *. split.
    + intros k [Hne Hk]%not_elem_of_cons. rewrite Hother by done.
      apply od_get_set_ne. congruence.
    + intros [Hnotin Hnd]%NoDup_cons itspace profile [[= -> ->]|Hin]%elem_of_cons.
      * exists e0. split; [done|]. rewrite Hother by done.
        rewrite od_get_set_eq. by destruct e0.
      * by apply Hbound.
Qed.

(** C3.  In the summary that [_profile_summary] returns, every profiled
    section has an entry, under its timer name or under [main]; the entry
    holds the measured time [t] of the section's timer, the realized
    iteration extents and the data extents, and, with
    flops = ops * product of the iteration extents and
    traffic = memory * product of the data extents * element size,
    the operational intensity [flops / traffic] and the throughput
    [(flops / 10^9) / t], each division being the binary64 division of the
    converted operands. *)
Theorem summary_reports_formulas op dim_sizes timings summary itspace profile :
  OperatorCore_profile_summary op dim_sizes timings = Ok summary ->
  (itspace, profile) ∈ sections op ->
  NoDup (map (fun s : list Iteration * Profile => timer s.2) (sections op)) ->
  timer profile <> "main" ->
  exists key e,
    (key = timer profile \/ key = "main") /\
    od_get key summary = Some e /\
    od_get (timer profile) timings = Some (time e) /\
    Forall2 (fun i n => realized_extent dim_sizes i = Some n) itspace (itershape e) /\
    Forall2 (fun i n => data_extent dim_sizes i = Some n) itspace (datashape e) /\
    let flops := flops_of (ops profile) (itershape e) in
    let traffic := traffic_of (memory profile) (datashape e) (itemsize (dtype_of op)) in
    oi e = f64_div (f64_of_Z flops) (f64_of_Z traffic) /\
    gflopss e = f64_div (f64_div (f64_of_Z flops) (f64_of_Z (10 ^ 9))) (time e).
Proof.
  unfold OperatorCore_profile_summary.
  intros (summary0 & Hsections & Hrename)%result_bind_Ok Hin Hnd Hmain.
  apply summarize_sections_spec in Hsections as [_ Hbound].
  destruct (Hbound Hnd itspace profile Hin) as (e & Hentry & Hget).
  apply section_entry_formulas in Hentry as (_ & Htime & Hiter & Hdata & Hoi & Hgf).
  unfold rename_main in Hrename.
  apply result_bind_Ok in Hrename as (k & Hk & Hrename).
  apply result_bind_Ok in Hrename as ([ek rest] & Hpop & [= <-]).
  unfold od_pop in Hpop. destruct (od_get k summary0) as [ek'|] eqn:Hek; [|discriminate].
  injection Hpop as <- <-.
  destruct (decide (k = timer profile)) as [->|Hne].
  - exists "main"%string, e. split; [by right|]. split; [|done].
    rewrite od_get_set_eq. congruence.
  - exists (timer profile), e. split; [by left|]. split; [|done].
    rewrite od_get_set_ne by done. by rewrite od_get_remove_ne.
Qed.

Lemma summary_reports_formulas_witness :
  exists key e,
    (key = "loop_x_0"%string \/ key = "main"%string) /\
    od_get key
      [("main"%string,
        {| time := millisecond;
           gflopss := f64_div (f64_div (f64_of_Z 200) (f64_of_Z (10 ^ 9))) millisecond;
           oi := S754_finite false 4503599627370496 (-54);
           itershape := [10; 10]; datashape := [10; 10] |})] = Some e /\
    od_get "loop_x_0"%string [("loop_x_0"%string, millisecond)] = Some (time e) /\
    Forall2 (fun i n => realized_extent [(dim_x, 10); (dim_y, 10)] i = Some n)
      [plain_loop dim_x; plain_loop dim_y] (itershape e) /\
    Forall2 (fun i n => data_extent [(dim_x, 10); (dim_y, 10)] i = Some n)
      [plain_loop dim_x; plain_loop dim_y] (datashape e) /\
    let flops := flops_of 2 (itershape e) in
    let traffic := traffic_of 1 (datashape e) 8 in
    oi e = f64_div (f64_of_Z flops) (f64_of_Z traffic) /\
    gflopss e = f64_div (f64_div (f64_of_Z flops) (f64_of_Z (10 ^ 9))) (time e).
Proof.
  apply (summary_reports_formulas square_operator [(dim_x, 10); (dim_y, 10)]
           [("loop_x_0"%string, millisecond)] _
           [plain_loop dim_x; plain_loop dim_y]
           {| timer := "loop_x_0"; ops := 2; memory := 1 |}).
  - vm_compute. reflexivity.
  - left.
  - apply NoDup_singleton.
  - discriminate.
Defined.

(** The numbers of the example: 200 operations, 800 bytes, an operational
    intensity of exactly 0.25, and the throughput that the formula gives. *)
Example accounting_example :
  flops_of 2 [10; 10] = 200 /\
  traffic_of 1 [10; 10] (itemsize np_float64) = 800 /\
  (apply options square_operator [] [] empty_state).1
  = Ok [("main"%string,
         {| time := millisecond;
            gflopss := f64_div (f64_div (f64_of_Z 200) (f64_of_Z (10 ^ 9))) millisecond;
            oi := S754_finite false (2 ^ 52) (-54);
            itershape := [10; 10]; datashape := [10; 10] |})].
Proof. split; [reflexivity|]. split; [reflexivity|]. vm_compute. reflexivity. Qed.

(** ** Invocation *)

(** C8.  [apply] returns the performance summary, but [__call__] evaluates
    [self.apply(...)] without returning its value: calling the operator
    returns [None] whenever [apply] returns a summary, and fails when
    [apply] fails.  On the example operator, [apply] returns a summary with
    the entry [main] and the call returns [None]. *)
Theorem call_returns_none opts op args kwargs st :
  __call__ opts op args kwargs st
  = match apply opts op args kwargs st with
    | (Ok _, st') => (Ok ReturnNone, st')
    | (Err e, st') => (Err e, st')
    end
  /\ (exists e, (apply options square_operator [] [] empty_state).1
                = Ok [("main"%string, e)])
  /\ (__call__ options square_operator [] [] empty_state).1 = Ok ReturnNone.
Proof.
  split; [|split].
  - unfold __call__. rewrite M_bind_unfold.
    by destruct (apply opts op args kwargs st) as [[summary|e] st'].
  - eexists. vm_compute. reflexivity.
  - vm_compute. reflexivity.
Qed.

(** ** Keyword overrides, from the keywords to the final binding *)

Lemma od_ext {K V} `{EqDecision K} (d : list (K * V)) : forall d' : list (K * V),
  od_keys d = od_keys d' -> NoDup (od_keys d) ->
  (forall k, od_get k d = od_get k d') -> d = d'.
Proof.
  unfold od_keys. induction d as [|[k v] d IH]; intros [|[k' v'] d']; simpl; try done.
  intros [= <- Hkeys] [Hnotin Hnd]%NoDup_cons Hget.
  pose proof (Hget k) as Hk. rewrite !decide_True in Hk by done.
  injection Hk as <-. f_equal. apply IH; [done|done|].
  intros k0. specialize (Hget k0). destruct (decide (k0 = k)) as [->|Hne]; [|done].
  assert (Hnone : forall l : list (K * V), k ∉ l.*1 -> od_get k l = None).
  { intros l. apply od_get_None. }
  rewrite !Hnone; try done. rewrite Hkeys in Hnotin. exact Hnotin.
Qed.

Lemma od_update_elem {K V} `{EqDecision K} (items : list (K * V)) :
  forall (d : list (K * V)) (kv : K * V),
    kv ∈ od_update d items -> kv ∈ d \/ kv ∈ items.
Proof.
  unfold od_update. induction items as [|[k v] items IH]; intros d kv; simpl; [by left|].
  intros Hin. apply IH in Hin as [Hin|Hin]; [|right; by right].
  assert (Hset : forall d0 : list (K * V), kv ∈ od_set k v d0 -> kv ∈ d0 \/ kv = (k, v)).
  { clear. induction d0 as [|[k0 v0] d0 IH]; simpl.
    - intros ->%list_elem_of_singleton. by right.
    - destruct (decide (k = k0)) as [->|Hne].
      + intros [-> | Hin]%elem_of_cons; [by right|left; by right].
      + intros [-> | Hin]%elem_of_cons; [left; left|].
        apply IH in Hin as [?|?]; [left; by right|by right]. }
  apply Hset in Hin as [? | ->]; [by left|right; left].
Qed.

Lemma bind_positional_arguments op kwargs pairs : forall a ds a' ds',
  bind_positional op kwargs pairs a ds = Ok (a', ds') ->
  a' = od_update a (map (fun p : SymbolicData * Param =>
                           (param_name p.2, _arg_data op p.1)) pairs).
Proof.
  induction pairs as [|[f arg] pairs IH]; intros a ds a' ds'; simpl.
  - by intros [= <- <-].
  - intros (shape & _ & Hrest)%result_bind_Ok.
    apply result_bind_Ok in Hrest as (ds1 & _ & Hrest).
    by apply IH in Hrest.
Qed.

Section OverridesEndToEnd.
Variable op : Operator.
Variable kwargs : list (string * value).
Hypothesis kwargs_dict : NoDup (od_keys kwargs).

Local Abbreviation defaults := (default_arguments op).

Lemma override_data_all_match :
  (forall k o f, od_get k kwargs = Some o ->
                 od_get k defaults = Some (VSymbolic f) ->
                 value_shape o = Ok (sd_shape f)) ->
  let a1 := od_update defaults (overriding_keywords kwargs defaults) in
  override_data (overriding_keywords kwargs defaults) defaults = Ok a1 /\
  od_keys a1 = od_keys defaults /\
  forall k, od_get k a1 =
            match od_get k defaults, od_get k kwargs with
            | Some (VSymbolic _), Some o => Some o
            | binding, _ => binding
            end.
Proof.
  intros Hmatch a1. subst a1. split; [|split].
  - apply override_data_match; [apply overriding_keywords_NoDup|].
    intros k o [Hk [f Hf]]%overriding_keywords_elem; [|done].
    exists f. split; [done|]. by apply (Hmatch k o f).
  - apply od_update_keys_present. intros k Hk.
    apply list_elem_of_fmap in Hk as ([k' o] & -> & Hin). simpl.
    apply overriding_keywords_elem in Hin as [_ [f Hf]]; [|done].
    by apply od_get_Some_keys in Hf.
  - intros k.
    destruct (decide (k ∈ (overriding_keywords kwargs defaults).*1)) as [Hin|Hnotin].
    + apply list_elem_of_fmap in Hin as ([k' o] & -> & Hin). simpl.
      rewrite (od_update_get_NoDup _ _ k' o);
        [|apply overriding_keywords_NoDup|done].
      apply overriding_keywords_elem in Hin as [Hk [f Hf]]; [|done].
      by rewrite Hf, Hk.
    + rewrite od_update_get_notin by done.
      destruct (od_get k defaults) as [[f| | | | | |]|] eqn:Hf; try done.
      destruct (od_get k kwargs) as [o|] eqn:Hk; [|done].
      exfalso. apply Hnotin. apply (list_elem_of_fmap_2 fst _ (k, o)).
      apply overriding_keywords_elem; [done|]. split; [done|by exists f].
Qed.

(** The parameters are the data parameters followed by the dimensions, as
    the constructor lists them, and have distinct names; the overriding
    keywords are symbolic objects of the declared shape. *)
Variables (fs : list SymbolicData) (ds : list Dimension).
Hypothesis parameters_order : parameters op = map PData fs ++ map PDim ds.
Hypothesis parameters_names : NoDup (map param_name (parameters op)).
Hypothesis symbolic_overrides :
  forall k o f, od_get k kwargs = Some o ->
                od_get k defaults = Some (VSymbolic f) ->
                exists g, o = VSymbolic g /\ sd_shape g = sd_shape f.

Local Abbreviation data_entry :=
  (fun f : SymbolicData => (sd_name f, VSymbolic (supplied kwargs f))).
Local Abbreviation dim_entry := (fun d : Dimension => (dim_name d, VDimension d)).

Lemma defaults_list :
  defaults = map (fun f => (sd_name f, VSymbolic f)) fs ++ map dim_entry ds.
Proof.
  unfold default_arguments. rewrite od_of_items_id.
  - by rewrite parameters_order, map_app, !map_map.
  - rewrite <- list_fmap_compose.
    by rewrite (list_fmap_ext _ param_name (parameters op)).
Qed.

Lemma names_split : NoDup (map sd_name fs ++ map dim_name ds).
Proof.
  pose proof parameters_names as Hnd.
  by rewrite parameters_order, map_app, !map_map in Hnd.
Qed.

Lemma defaults_data f : f ∈ fs -> od_get (sd_name f) defaults = Some (VSymbolic f).
Proof.
  intros Hf. apply od_get_elem_NoDup; [apply od_of_items_NoDup|].
  rewrite defaults_list, elem_of_app. left.
  by apply (list_elem_of_fmap_2 (fun f => (sd_name f, VSymbolic f)) fs f).
Qed.

Lemma overridden_list :
  od_update defaults (overriding_keywords kwargs defaults)
  = map data_entry fs ++ map dim_entry ds.
Proof.
  assert (Hmatch : forall k o f, od_get k kwargs = Some o ->
            od_get k defaults = Some (VSymbolic f) -> value_shape o = Ok (sd_shape f)).
  { intros k o f Hk Hf. destruct (symbolic_overrides k o f Hk Hf) as (g & -> & Hg).
    simpl. by rewrite Hg. }
  destruct (override_data_all_match Hmatch) as (_ & Hkeys & Hget).
  assert (Hkeys' : od_keys (map data_entry fs ++ map dim_entry ds)
                   = map sd_name fs ++ map dim_name ds).
  { unfold od_keys. by rewrite fmap_app, <- !list_fmap_compose. }
  assert (Hdefkeys : od_keys defaults = map sd_name fs ++ map dim_name ds).
  { rewrite defaults_list. unfold od_keys. by rewrite fmap_app, <- !list_fmap_compose. }
  apply od_ext.
  - by rewrite Hkeys, Hkeys'.
  - rewrite Hkeys, Hdefkeys. apply names_split.
  - intros k. rewrite Hget.
    destruct (od_get k (map data_entry fs ++ map dim_entry ds)) as [v|] eqn:Hv.
    + apply od_get_Some_elem, elem_of_app in Hv as [Hv|Hv].
      * apply list_elem_of_fmap in Hv as (f & [= -> ->] & Hf).
        rewrite (defaults_data f Hf). unfold supplied.
        destruct (od_get (sd_name f) kwargs) as [o|] eqn:Hk; [|done].
        destruct (symbolic_overrides _ o f Hk (defaults_data f Hf)) as (g & -> & _).
        done.
      * apply list_elem_of_fmap in Hv as (d & [= -> ->] & Hd).
        assert (Hdef : od_get (dim_name d) defaults = Some (VDimension d)).
        { apply od_get_elem_NoDup; [apply od_of_items_NoDup|].
          rewrite defaults_list, elem_of_app. right.
          by apply (list_elem_of_fmap_2 dim_entry ds d). }
        by rewrite Hdef.
    + apply od_get_None in Hv. rewrite Hkeys', <- Hdefkeys in Hv.
      apply od_get_None in Hv. by rewrite Hv.
Qed.

Lemma overridden_symbolic :
  omap symbolic_of (od_values (map data_entry fs ++ map dim_entry ds))
  = map (supplied kwargs) fs.
Proof.
  unfold od_values. rewrite fmap_app, omap_app.
  assert (Hdims : omap symbolic_of (map dim_entry ds).*2 = []).
  { clear. induction ds as [|d l IH]; [done|]. simpl. exact IH. }
  rewrite Hdims, app_nil_r. clear.
  induction fs as [|f l IH]; [done|]. simpl. by f_equal.
Qed.

Lemma zip_data_parameters :
  zip (map (supplied kwargs) fs) (map PData fs ++ map PDim ds)
  = map (fun f => (supplied kwargs f, PData f)) fs.
Proof.
  clear. induction fs as [|f l IH]; simpl; [by destruct (map PDim ds)|]. by f_equal.
Qed.

(** After a binding without positional arguments, every data parameter is
    bound to the data of the symbolic object supplied for it. *)
Lemma bind_arguments_data a dim_sizes m f :
  bind_arguments op [] kwargs = Ok (a, dim_sizes, m) ->
  f ∈ fs ->
  od_get (sd_name f) a = Some (_arg_data op (supplied kwargs f)).
Proof.
  unfold bind_arguments, bind_data. simpl.
  intros ([a2 ds2] & Hdata & Hsizes)%result_bind_Ok Hf.
  apply result_bind_Ok in Hdata as (a1 & Hoverride & Hpositional).
  assert (Hmatch : forall k o f, od_get k kwargs = Some o ->
            od_get k defaults = Some (VSymbolic f) -> value_shape o = Ok (sd_shape f)).
  { intros k o f' Hk Hf'. destruct (symbolic_overrides k o f' Hk Hf') as (g & -> & Hg).
    simpl. by rewrite Hg. }
  destruct (override_data_all_match Hmatch) as (Hok & _ & _).
  rewrite Hok in Hoverride. injection Hoverride as <-.
  rewrite overridden_list, overridden_symbolic, parameters_order,
    zip_data_parameters in Hpositional.
  apply bind_positional_arguments in Hpositional. rewrite map_map in Hpositional.
  simpl in Hpositional.
  assert (Hpairs_names :
    (map (fun f0 => (sd_name f0, _arg_data op (supplied kwargs f0))) fs).*1
    = map sd_name fs).
  { clear. induction fs as [|f0 l IH]; [done|]. simpl. by f_equal. }
  assert (Ha2 : od_get (sd_name f) a2 = Some (_arg_data op (supplied kwargs f))).
  { rewrite Hpositional. apply od_update_get_NoDup.
    - rewrite Hpairs_names. pose proof names_split as Hnd.
      by apply NoDup_app in Hnd as (? & _ & _).
    - by apply (list_elem_of_fmap_2
                  (fun f0 => (sd_name f0, _arg_data op (supplied kwargs f0))) fs f). }
  unfold bind_sizes in Hsizes.
  apply result_bind_Ok in Hsizes as ([dle_args m0] & _ & Hsizes).
  apply result_bind_Ok in Hsizes as (a' & Hinsert & [= <- <- <-]).
  apply insert_dimension_sizes_spec in Hinsert as [Hother _].
  rewrite Hother; [done|].
  intros Hin. apply list_elem_of_fmap in Hin as (d & Hname & Hd).
  apply list_elem_of_omap in Hd as (v & Hv & Hdim).
  destruct v; try discriminate. injection Hdim as ->.
  apply list_elem_of_fmap in Hv as ([key v] & Hv & Hin). simpl in Hv. subst v.
  rewrite Hpositional in Hin. apply od_update_elem in Hin as [Hin|Hin].
  - apply elem_of_app in Hin as [Hin|Hin].
    + by apply list_elem_of_fmap in Hin as (f0 & [=] & _).
    + apply list_elem_of_fmap in Hin as (d0 & [= -> <-] & Hd0).
      pose proof names_split as Hnd. apply NoDup_app in Hnd as (_ & Hdisj & _).
      apply (Hdisj (sd_name f)); [by apply (list_elem_of_fmap_2 sd_name fs f)|].
      rewrite Hname. by apply (list_elem_of_fmap_2 dim_name ds d).
  - apply list_elem_of_fmap in Hin as (f0 & [= _ Hv] & _).
    unfold _arg_data in Hv. destruct (cls op); try discriminate.
    by destruct (sd_data (supplied kwargs f0)).
Qed.
End OverridesEndToEnd.

(** ** An array as the value of an overriding keyword *)

Section ArrayOverride.
Variable op : Operator.
Variable kwargs : list (string * value).
Hypothesis kwargs_dict : NoDup (od_keys kwargs).

(** Two data parameters [u] and [v] followed by the dimensions, with
    distinct names; the keyword named like [u] is an array of the declared
    shape and no keyword is named like [v]. *)
Variables (u v : SymbolicData) (ds : list Dimension) (arr : ndarray).
Hypothesis parameters_order : parameters op = PData u :: PData v :: map PDim ds.
Hypothesis parameters_names : NoDup (map param_name (parameters op)).
Hypothesis keyword_u : od_get (sd_name u) kwargs = Some (VArray arr).
Hypothesis keyword_shape : arr_shape arr = sd_shape u.
Hypothesis keyword_v : od_get (sd_name v) kwargs = None.

Local Abbreviation defaults := (default_arguments op).
Local Abbreviation dim_entry := (fun d : Dimension => (dim_name d, VDimension d)).

Lemma pair_names :
  sd_name u <> sd_name v /\
  (sd_name u ∉ map dim_name ds) /\ (sd_name v ∉ map dim_name ds) /\
  NoDup (map dim_name ds).
Proof.
  pose proof parameters_names as Hnd.
  rewrite parameters_order in Hnd. simpl in Hnd. rewrite map_map in Hnd. simpl in Hnd.
  apply NoDup_cons in Hnd as [Hu Hnd]. apply NoDup_cons in Hnd as [Hv Hnd].
  apply not_elem_of_cons in Hu as [Hne Hu]. done.
Qed.

Lemma pair_defaults :
  defaults = (sd_name u, VSymbolic u) :: (sd_name v, VSymbolic v) :: map dim_entry ds.
Proof.
  unfold default_arguments. rewrite od_of_items_id.
  - by rewrite parameters_order; simpl; rewrite map_map.
  - rewrite <- list_fmap_compose.
    by rewrite (list_fmap_ext _ param_name (parameters op)).
Qed.

Lemma dimension_entries_get k val :
  od_get k (map dim_entry ds) = Some val -> exists d, d ∈ ds /\ val = VDimension d.
Proof.
  intros Hget%od_get_Some_elem.
  apply list_elem_of_fmap in Hget as (d & [= -> ->] & Hd). by exists d.
Qed.

Lemma dimension_entries_dimensions (entries : list (string * value)) :
  omap dimension_of (od_values (entries ++ map dim_entry ds))
  = omap dimension_of (od_values entries) ++ ds.
Proof.
  unfold od_values. rewrite fmap_app, omap_app. f_equal.
  clear. induction ds as [|d l IH]; [done|]. simpl. by f_equal.
Qed.

Lemma dimension_entries_symbolic :
  omap symbolic_of (od_values (map dim_entry ds)) = [].
Proof. clear. unfold od_values. induction ds as [|d l IH]; [done|]. exact IH. Qed.

(** The overriding loop stores the array. *)
Lemma array_override_stored :
  override_data (overriding_keywords kwargs defaults) defaults
  = Ok ((sd_name u, VArray arr) :: (sd_name v, VSymbolic v) :: map dim_entry ds).
Proof.
  destruct pair_names as (Hne & Hu & Hv & Hnd).
  assert (Hmatch : forall k o f, od_get k kwargs = Some o ->
            od_get k defaults = Some (VSymbolic f) -> value_shape o = Ok (sd_shape f)).
  { intros k o f Hk Hf. rewrite pair_defaults in Hf. simpl in Hf.
    destruct (decide (k = sd_name u)) as [->|_].
    - injection Hf as <-. rewrite keyword_u in Hk. injection Hk as <-.
      simpl. by rewrite keyword_shape.
    - destruct (decide (k = sd_name v)) as [->|_]; [congruence|].
      by apply dimension_entries_get in Hf as (d & _ & [=]). }
  destruct (override_data_all_match op kwargs kwargs_dict Hmatch) as (Hok & Hkeys & Hget).
  rewrite Hok. f_equal. apply od_ext.
  - rewrite Hkeys, pair_defaults. done.
  - rewrite Hkeys. unfold default_arguments. apply od_of_items_NoDup.
  - intros k. rewrite Hget, pair_defaults. simpl.
    destruct (decide (k = sd_name u)) as [->|_]; [by rewrite keyword_u|].
    destruct (decide (k = sd_name v)) as [->|_]; [by rewrite keyword_v|].
    destruct (od_get k (map dim_entry ds)) as [val|] eqn:Hval; [|done].
    by apply dimension_entries_get in Hval as (d & _ & ->).
Qed.

(** The traversal then pairs the remaining symbolic object [v] with the
    first parameter [u]. *)
Lemma array_override_bound a dim_sizes m :
  bind_arguments op [] kwargs = Ok (a, dim_sizes, m) ->
  od_get (sd_name u) a = Some (_arg_data op v) /\
  od_get (sd_name v) a = Some (VSymbolic v).
Proof.
  destruct pair_names as (Hne & Hu & Hv & Hnd).
  unfold bind_arguments, bind_data. simpl.
  intros ([a2 ds2] & Hdata & Hsizes)%result_bind_Ok.
  rewrite array_override_stored in Hdata.
  set (a1 := (sd_name u, VArray arr) :: (sd_name v, VSymbolic v) :: map dim_entry ds)
    in Hdata.
  change (bind_positional op kwargs
            (zip (omap symbolic_of (od_values a1)) (parameters op)) a1 []
          = Ok (a2, ds2)) in Hdata.
  assert (Hpairs : zip (omap symbolic_of (od_values a1)) (parameters op)
                   = [(v, PData u)]).
  { rewrite parameters_order. subst a1.
    change (omap symbolic_of (od_values (?e1 :: ?e2 :: map dim_entry ds)))
      with (v :: omap symbolic_of (od_values (map dim_entry ds))).
    by rewrite dimension_entries_symbolic. }
  rewrite Hpairs in Hdata. subst a1. simpl in Hdata.
  rewrite decide_True in Hdata by done.
  apply result_bind_Ok in Hdata as (shape & _ & Hdata).
  apply result_bind_Ok in Hdata as (ds1 & _ & [= <- <-]).
  unfold bind_sizes in Hsizes.
  apply result_bind_Ok in Hsizes as ([dle_args m0] & _ & Hsizes).
  apply result_bind_Ok in Hsizes as (a' & Hinsert & [= <- <- <-]).
  apply insert_dimension_sizes_spec in Hinsert as [Hother _].
  assert (Hdims : omap dimension_of
                    (od_values ((sd_name u, _arg_data op v)
                                :: (sd_name v, VSymbolic v) :: map dim_entry ds))
                  = ds).
  { change ((sd_name u, _arg_data op v) :: (sd_name v, VSymbolic v) :: map dim_entry ds)
      with ([(sd_name u, _arg_data op v); (sd_name v, VSymbolic v)] ++ map dim_entry ds).
    rewrite dimension_entries_dimensions.
    unfold _arg_data. by destruct (cls op), (sd_data v). }
  rewrite Hdims in Hother. split.
  - rewrite Hother by done. simpl. by rewrite decide_True.
  - rewrite Hother by done. simpl.
    rewrite decide_False by congruence. by rewrite decide_True.
Qed.
End ArrayOverride.

Section OverrideClaim.
Variable op : Operator.
Variable kwargs : list (string * value).
Hypothesis kwargs_dict : NoDup (od_keys kwargs).

Local Abbreviation defaults := (default_arguments op).

(** C4.  Keywords that name a data parameter carry an object with a shape.
    If one of them has a shape other than the parameter's declared shape,
    the binding raises [InvalidArgument] and nothing else happens: the state
    (buffers, profiler, native calls) is the one before the call, for
    [arguments] and for [apply] alike.
    With the declared shape the keyword is taken, but the supplied value is
    the final binding only when it is a symbolic object.  When the
    parameters are the data parameters followed by the dimensions, with
    distinct names, and the keywords are symbolic objects, the binding
    without positional arguments ends with every overridden data parameter
    bound to the data of the object supplied for it.
    When the keyword of the first of two data parameters [u] and [v] is an
    array of the declared shape, the overriding loop stores the array, and
    the traversal that follows no longer counts [u] among the symbolic
    objects: it pairs [v] with the parameter [u].  Every binding that
    succeeds ends with [u] bound to the data of [v], not to the supplied
    array, and with [v] bound to the symbolic object itself. *)
Theorem array_override_is_misbound :
  ((forall k o f, od_get k kwargs = Some o ->
                  od_get k defaults = Some (VSymbolic f) ->
                  exists s, value_shape o = Ok s) ->
   (exists k o f s, od_get k kwargs = Some o /\
                    od_get k defaults = Some (VSymbolic f) /\
                    value_shape o = Ok s /\ s <> sd_shape f) ->
   forall opts args st,
     arguments opts op args kwargs st = (Err InvalidArgument, st) /\
     apply opts op args kwargs st = (Err InvalidArgument, st))
  /\ (forall fs ds,
        parameters op = map PData fs ++ map PDim ds ->
        NoDup (map param_name (parameters op)) ->
        (forall k o f, od_get k kwargs = Some o ->
                       od_get k defaults = Some (VSymbolic f) ->
                       exists g, o = VSymbolic g /\ sd_shape g = sd_shape f) ->
        forall a dim_sizes m f g,
          bind_arguments op [] kwargs = Ok (a, dim_sizes, m) ->
          f ∈ fs ->
          od_get (sd_name f) kwargs = Some (VSymbolic g) ->
          od_get (sd_name f) a = Some (_arg_data op g))
  /\ (forall u v ds arr,
        parameters op = PData u :: PData v :: map PDim ds ->
        NoDup (map param_name (parameters op)) ->
        od_get (sd_name u) kwargs = Some (VArray arr) ->
        arr_shape arr = sd_shape u ->
        od_get (sd_name v) kwargs = None ->
        override_data (overriding_keywords kwargs defaults) defaults
        = Ok (od_set (sd_name u) (VArray arr) defaults) /\
        forall a dim_sizes m,
          bind_arguments op [] kwargs = Ok (a, dim_sizes, m) ->
          od_get (sd_name u) a = Some (_arg_data op v) /\
          od_get (sd_name v) a = Some (VSymbolic v)).
Proof.
  split; [|split].
  - intros Hshapes (k & o & f & s & Hk & Hf & Hs & Hne) opts args st.
    assert (Hbind : bind_arguments op args kwargs = Err InvalidArgument).
    { unfold bind_arguments, bind_data.
      rewrite (override_data_mismatch (overriding_keywords kwargs defaults) defaults);
        [done|apply overriding_keywords_NoDup| |].
      - intros k' o' [Hk' [f' Hf']]%overriding_keywords_elem; [|done].
        destruct (Hshapes k' o' f' Hk' Hf') as [s' Hs']. by exists f', s'.
      - exists k, o, f, s. split; [|done].
        apply overriding_keywords_elem; [done|]. split; [done|by exists f]. }
    assert (Hargs : arguments opts op args kwargs st = (Err InvalidArgument, st)).
    { unfold arguments, mbind, M_bind, lift. by rewrite Hbind. }
    split; [done|]. unfold apply, mbind, M_bind. by rewrite Hargs.
  - intros fs ds Horder Hnames Hsym a dim_sizes m f g Hbind Hf Hg.
    rewrite (bind_arguments_data op kwargs kwargs_dict fs ds Horder Hnames Hsym
               a dim_sizes m f Hbind Hf).
    unfold supplied. by rewrite Hg.
  - intros u v ds arr Horder Hnames Hu Hshape Hv. split.
    + rewrite (array_override_stored op kwargs kwargs_dict u v ds arr
                 Horder Hnames Hu Hshape Hv).
      rewrite (pair_defaults op u v ds Horder Hnames). simpl.
      by rewrite decide_True.
    + intros a dim_sizes m.
      apply (array_override_bound op kwargs kwargs_dict u v ds arr
               Horder Hnames Hu Hshape Hv).
Qed.
End OverrideClaim.

(** The operator over the arrays [u] and [v], called with an array of the
    declared shape for [u]: [u] is bound to the array of [v] and [v] to its
    symbolic object.  With an array of shape [(10, 21)] the shapes do not
    match.  With a symbolic object of the declared shape for the only data
    parameter of [example_operator], the array of that object is bound. *)
Lemma array_override_is_misbound_witness :
  let kwargs := [("u", VArray other_array)] in
  let a := [("u", VArray {| arr_loc := 1%nat; arr_shape := [10; 20] |});
            ("v", VSymbolic data_v); ("x", VInt 10); ("y", VInt 20)] in
  let wrong := [("u", VArray {| arr_loc := 7%nat; arr_shape := [10; 21] |})] in
  let other := {| sd_name := "u"; sd_shape := [10; 20];
                  sd_indices := [dim_x; dim_y]; sd_data := Some other_array |} in
  let b := [("u", VArray other_array); ("x", VInt 10); ("y", VInt 20)] in
  bind_arguments pair_operator [] kwargs = Ok (a, [(dim_x, 10); (dim_y, 20)], false) /\
  (od_get "u" a = Some (VArray {| arr_loc := 1%nat; arr_shape := [10; 20] |}) /\
   od_get "v" a = Some (VSymbolic data_v)) /\
  (arguments options pair_operator [] wrong empty_state
   = (Err InvalidArgument, empty_state) /\
   apply options pair_operator [] wrong empty_state
   = (Err InvalidArgument, empty_state)) /\
  bind_arguments example_operator [] [("u", VSymbolic other)]
  = Ok (b, [(dim_x, 10); (dim_y, 20)], false) /\
  od_get "u" b = Some (VArray other_array).
Proof.
  intros kwargs a wrong other b. split; [reflexivity|]. split; [|split; [|split]].
  - refine (proj2 (proj2 (proj2 (array_override_is_misbound pair_operator kwargs _))
                     data_u data_v [dim_x; dim_y] other_array
                     eq_refl _ eq_refl eq_refl eq_refl)
              a [(dim_x, 10); (dim_y, 20)] false eq_refl).
    + apply NoDup_singleton.
    + decide_by_computation.
  - refine (proj1 (array_override_is_misbound pair_operator wrong _) _ _
              options [] empty_state).
    + apply NoDup_singleton.
    + intros k o f Hk _. simpl in Hk.
      destruct (decide (k = "u")); [|done]. injection Hk as <-. by eexists.
    + exists "u", (VArray {| arr_loc := 7%nat; arr_shape := [10; 21] |}),
        data_u, [10; 21].
      split; [done|]. split; [done|]. split; [done|discriminate].
  - reflexivity.
  - refine (proj1 (proj2 (array_override_is_misbound example_operator
                            [("u", VSymbolic other)] _))
              [data_u] [dim_x; dim_y] eq_refl _ _
              b [(dim_x, 10); (dim_y, 20)] false data_u other eq_refl _ eq_refl).
    + apply NoDup_singleton.
    + decide_by_computation.
    + intros k o f Hk Hf. simpl in Hk.
      destruct (decide (k = "u")) as [->|]; [|done]. injection Hk as <-.
      injection Hf as <-. by exists other.
    + left.
Defined.

(** A symbolic object [u] of the declared shape: its array is bound. *)
Example override_with_matching_shape :
  let other := {| sd_name := "u"; sd_shape := [10; 20];
                  sd_indices := [dim_x; dim_y];
                  sd_data := Some {| arr_loc := 7%nat; arr_shape := [10; 20] |} |} in
  bind_arguments example_operator [] [("u", VSymbolic other)]
  = Ok ([("u", VArray {| arr_loc := 7%nat; arr_shape := [10; 20] |});
         ("x", VInt 10); ("y", VInt 20)],
        [(dim_x, 10); (dim_y, 20)], false).
Proof. reflexivity. Qed.

(** An array of the declared shape for the only data parameter: no
    symbolic object is left to traverse, no size is inferred, and the
    lookup of the size of [x] fails. *)
Example array_override_of_single_parameter :
  bind_arguments example_operator [] [("u", VArray other_array)] = Err KeyError.
Proof. reflexivity. Qed.

(** * Further properties of the module *)

(** ** Redundant expressions: what the pass leaves alone *)

Section TrimFacts.
Context {stencil : Type} `{EqDecision stencil}.
Implicit Types (v before : list (Scheduler.Node stencil)) (s : stencil).

Local Abbreviation seen s before := (existsb (Scheduler.has_stencil s) before).

(** Nodes whose stencils are pairwise distinct and not met before are all
    kept. *)
Lemma drop_distinct v : forall before,
  NoDup (Scheduler.expression_stencils v) ->
  (forall s, s ∈ Scheduler.expression_stencils v -> seen s before = false) ->
  Scheduler.drop_later_duplicates before v = v.
Proof.
  induction v as [|n v IH]; intros before Hnd Hnew; simpl; [done|].
  assert (Hn : Scheduler.duplicates_earlier before n = false).
  { destruct n as [s t| |]; simpl; [|done..]. apply Hnew. simpl. left. }
  rewrite Hn. f_equal. apply IH.
  - destruct n as [s t| |]; simpl in Hnd; [|done..]. by apply NoDup_cons in Hnd as [_ ?].
  - intros s Hs. rewrite seen_snoc.
    destruct n as [s' t| |]; simpl in *.
    + apply NoDup_cons in Hnd as [Hnotin _].
      rewrite Hnew by (by right). simpl. apply bool_decide_eq_false. by intros ->.
    + by rewrite Hnew.
    + by rewrite Hnew.
Qed.

(** X1.  The removal of redundant expressions is idempotent, and it
    returns a body unchanged exactly when the stencils of its expressions
    are pairwise distinct. *)
Theorem trim_is_idempotent v :
  Scheduler.trim (Scheduler.trim v) = Scheduler.trim v /\
  (Scheduler.trim v = v <-> NoDup (Scheduler.expression_stencils v)).
Proof.
  assert (Hfix : forall w : list (Scheduler.Node stencil),
            NoDup (Scheduler.expression_stencils w) -> Scheduler.trim w = w).
  { intros w Hnd. rewrite trim_drop. by apply drop_distinct. }
  split.
  - apply Hfix. rewrite trim_drop. apply drop_stencils_NoDup.
  - split; [|apply Hfix]. intros Heq. rewrite <- Heq, trim_drop.
    apply drop_stencils_NoDup.
Qed.

(** X2.  The pass rewrites nothing but perfect innermost iterations: every
    entry of the mapper replaces the last iteration of a section, that
    iteration is perfect, and the replacement has its arguments and the
    trimmed nodes of the section as its body.  There is one entry for every
    section with a perfect innermost iteration, in the order of the
    sections. *)
Theorem only_perfect_iterations_rewritten
    (perfect : Scheduler.Node stencil -> bool)
    (sections : list (list (Scheduler.Node stencil) * list (Scheduler.Node stencil)))
    (mapper : list (Scheduler.Node stencil * Scheduler.Node stencil)) :
  Scheduler.redundancy_mapper perfect sections [] = Ok mapper ->
  Forall2 (fun (section : list (Scheduler.Node stencil) * list (Scheduler.Node stencil))
               (entry : Scheduler.Node stencil * Scheduler.Node stencil) =>
             last section.1 = Some entry.1 /\
             perfect entry.1 = true /\
             exists body args,
               entry.1 = Scheduler.Iteration body args /\
               entry.2 = Scheduler.Iteration (Scheduler.trim section.2) args)
          (List.filter (fun section =>
                          match last section.1 with
                          | Some candidate => perfect candidate
                          | None => false
                          end) sections)
          mapper.
Proof.
  assert (Hgen : forall mapper0,
    Scheduler.redundancy_mapper perfect sections mapper0 = Ok mapper ->
    exists new, mapper = mapper0 ++ new /\
      Forall2 (fun (section : list (Scheduler.Node stencil) * list (Scheduler.Node stencil))
                   (entry : Scheduler.Node stencil * Scheduler.Node stencil) =>
                 last section.1 = Some entry.1 /\
                 perfect entry.1 = true /\
                 exists body args,
                   entry.1 = Scheduler.Iteration body args /\
                   entry.2 = Scheduler.Iteration (Scheduler.trim section.2) args)
              (List.filter (fun section =>
                              match last section.1 with
                              | Some candidate => perfect candidate
                              | None => false
                              end) sections)
              new).
  { induction sections as [|[k v] rest IH]; intros mapper0; simpl.
    - intros [= <-]. exists []. rewrite app_nil_r. split; [done|constructor].
    - unfold Scheduler.py_last. destruct (last k) as [candidate|] eqn:Hlast; simpl;
        [|discriminate].
      destruct (perfect candidate) eqn:Hperfect; simpl.
      + destruct candidate as [|body args|]; [discriminate| |discriminate].
        intros Hrest. apply IH in Hrest as (new & -> & Hnew).
        eexists (_ :: new). rewrite <- app_assoc. split; [done|].
        constructor; [|done]. simpl. split; [done|]. split; [done|]. by eexists _, _.
      + apply IH. }
  intros Hmapper. apply Hgen in Hmapper as (new & -> & Hnew). done.
Qed.
End TrimFacts.

(** Two sections: the innermost loop of the first is perfect, that of the
    second is not. *)
Lemma only_perfect_iterations_rewritten_witness :
  let args := {| Scheduler.dimension := Dim "x" None;
                 Scheduler.limits := None; Scheduler.offsets := [] |} in
  let a := Scheduler.Expression "a" np_float32 in
  let inner := Scheduler.Iteration [a; a] args in
  let outer := Scheduler.Iteration [inner] args in
  let perfect := fun n : Scheduler.Node string =>
                   match n with
                   | Scheduler.Iteration (Scheduler.Expression _ _ :: _) _ => true
                   | _ => false
                   end in
  Forall2 (fun (section : list (Scheduler.Node string) * list (Scheduler.Node string))
               (entry : Scheduler.Node string * Scheduler.Node string) =>
             last section.1 = Some entry.1 /\
             perfect entry.1 = true /\
             exists body args',
               entry.1 = Scheduler.Iteration body args' /\
               entry.2 = Scheduler.Iteration (Scheduler.trim section.2) args')
          [([outer; inner], [a; a])]
          [(inner, Scheduler.Iteration [a] args)].
Proof.
  intros args a inner outer perfect.
  exact (only_perfect_iterations_rewritten perfect
           [([outer; inner], [a; a]); ([outer], [inner])]
           [(inner, Scheduler.Iteration [a] args)] eq_refl).
Defined.

(** ** Argument binding: sizes of dimensions *)

Lemma define_parents_in_inv (ds : list (Dimension * Z)) (order : list Dimension) :
  forall acc,
    (forall d, d ∈ order -> d ∈ od_keys ds) ->
    (forall d n, od_get d ds = Some n -> od_get d acc = Some n) ->
    (forall p m, od_get p ds = None -> od_get p acc = Some m ->
       exists d, dim_parent d = Some p /\ od_get d ds = Some m) ->
    (forall d n, od_get d ds = Some n ->
                 od_get d (define_parents_in order acc) = Some n) /\
    (forall p m, od_get p ds = None ->
       od_get p (define_parents_in order acc) = Some m ->
       exists d, dim_parent d = Some p /\ od_get d ds = Some m) /\
    (forall p, is_Some (od_get p acc) ->
               is_Some (od_get p (define_parents_in order acc))) /\
    (forall d p, d ∈ order -> dim_parent d = Some p ->
                 is_Some (od_get p (define_parents_in order acc))).
Proof.
  unfold define_parents_in.
  induction order as [|d0 order IH]; intros acc Hkeys Hkept Hnew; simpl.
  - split; [done|]. split; [done|]. split; [done|].
    intros d p Hd. by apply not_elem_of_nil in Hd.
  - assert (Hstep :
      (forall d n, od_get d ds = Some n -> od_get d (define_parent acc d0) = Some n) /\
      (forall p m, od_get p ds = None -> od_get p (define_parent acc d0) = Some m ->
         exists d, dim_parent d = Some p /\ od_get d ds = Some m) /\
      (forall p, is_Some (od_get p acc) -> is_Some (od_get p (define_parent acc d0))) /\
      (forall p, dim_parent d0 = Some p -> is_Some (od_get p (define_parent acc d0)))).
    { destruct d0 as [name size|name size parent]; simpl.
      { split; [done|]. split; [done|]. split; [done|]. intros p [=]. }
      unfold od_contains.
      destruct (od_get parent acc) as [m0|] eqn:Hparent.
      { split; [done|]. split; [done|]. split; [done|].
        intros p [= <-]. by rewrite Hparent. }
      destruct (od_get_elem_of (BufferedDim name size parent) ds) as (n0 & Hn0 & _).
      { apply Hkeys. left. }
      rewrite (Hkept _ _ Hn0).
      split; [|split; [|split]].
      - intros d n Hd. rewrite od_get_set_ne; [by apply Hkept|].
        intros <-. apply Hkept in Hd. congruence.
      - intros p m Hp. rewrite od_get_set. destruct (decide (parent = p)) as [<-|Hne].
        + intros [= <-]. by exists (BufferedDim name size parent).
        + by apply Hnew.
      - intros p Hp. rewrite od_get_set. by destruct (decide (parent = p)).
      - intros p [= <-]. by rewrite od_get_set_eq. }
    destruct Hstep as (Hkept1 & Hnew1 & Hmono1 & Hdef1).
    destruct (IH (define_parent acc d0)) as (Hkept' & Hnew' & Hmono' & Hdef');
      [intros d Hd; apply Hkeys; by right|done|done|].
    split; [done|]. split; [done|]. split.
    + intros p Hp. by apply Hmono', Hmono1.
    + intros d p [->|Hd]%elem_of_cons Hparent.
      * by apply Hmono', Hdef1.
      * by apply (Hdef' d).
Qed.

(** X3.  "Ensure parent for buffered dims is defined": whatever the order in
    which the buffered keys of [dim_sizes] are visited, no size that was
    there is changed, the parent of every buffered key has a size
    afterwards, and a parent that had no size gets the size of one of its
    buffered children.  The binding visits the keys in insertion order. *)
Theorem parents_of_buffered_dimensions
    (dim_sizes : list (Dimension * Z)) (buf_dims : list Dimension) :
  buf_dims ≡ₚ List.filter is_Buffered (od_keys dim_sizes) ->
  (forall d n, od_get d dim_sizes = Some n ->
               od_get d (define_parents_in buf_dims dim_sizes) = Some n) /\
  (forall d p, d ∈ od_keys dim_sizes -> dim_parent d = Some p ->
               is_Some (od_get p (define_parents_in buf_dims dim_sizes))) /\
  (forall p m, od_get p dim_sizes = None ->
     od_get p (define_parents_in buf_dims dim_sizes) = Some m ->
     exists d, dim_parent d = Some p /\ od_get d dim_sizes = Some m) /\
  define_parents dim_sizes
  = define_parents_in (List.filter is_Buffered (od_keys dim_sizes)) dim_sizes.
Proof.
  intros Hperm.
  assert (Hin : forall d, d ∈ buf_dims <-> d ∈ od_keys dim_sizes /\ is_Buffered d = true).
  { intros d. by rewrite Hperm, elem_of_filter_bool. }
  destruct (define_parents_in_inv dim_sizes buf_dims dim_sizes)
    as (Hkept & Hnew & _ & Hdef); [by intros d [? _]%Hin|done|congruence|].
  split; [done|]. split; [|split; [done|]].
  - intros d p Hd Hparent. apply (Hdef d); [|done]. apply Hin. split; [done|].
    by destruct d.
  - unfold define_parents, define_parents_in.
    apply (f_equal (fun step => fold_left step _ dim_sizes)). done.
Qed.

(** A buffered time dimension of size 5 whose parent has no size. *)
Lemma parents_of_buffered_dimensions_witness :
  let time := Dim "time" None in
  let t := BufferedDim "t" None time in
  od_get time (define_parents [(t, 5)]) = Some 5.
Proof.
  intros time t.
  destruct (parents_of_buffered_dimensions [(t, 5)] [t] (reflexivity _))
    as (_ & _ & _ & ->).
  reflexivity.
Defined.


Section FixedDimensions.
Variable kwargs : list (string * value).

Lemma infer_dimension_fixed shape i dim ds ds' s :
  infer_dimension kwargs shape i dim ds = Ok ds' ->
  dim_size dim = Some s ->
  ds' = ds /\ (is_Buffered dim = false -> shape !! i = Some s).
Proof.
  unfold infer_dimension. intros Hrun Hsize. rewrite Hsize in Hrun.
  destruct (is_Buffered dim); simpl in Hrun.
  - by injection Hrun as <-.
  - apply result_bind_Ok in Hrun as (s' & Hs' & Hrun).
    apply result_bind_Ok in Hrun as (u & Hassert & [= <-]).
    apply py_assert_Ok, Z.eqb_eq in Hassert as ->.
    split; [done|]. intros _. by apply py_index_Ok.
Qed.

Lemma infer_indices_fixed shape indices : forall i0 ds ds' j dim s,
  infer_indices kwargs shape i0 indices ds = Ok ds' ->
  indices !! j = Some dim ->
  dim_size dim = Some s ->
  is_Buffered dim = false ->
  shape !! (i0 + j)%nat = Some s.
Proof.
  induction indices as [|dim0 indices IH]; intros i0 ds ds' j dim s; simpl; [done|].
  intros (ds1 & H1 & Hrest)%result_bind_Ok Hj Hsize Hbuf.
  destruct j as [|j]; simpl in Hj.
  - injection Hj as ->. rewrite Nat.add_0_r.
    by apply (infer_dimension_fixed _ _ _ _ _ _ H1 Hsize).
  - replace (i0 + S j)%nat with (S i0 + j)%nat by lia. by eapply IH.
Qed.

Lemma infer_dimension_sized shape i dim0 ds ds' dim s :
  infer_dimension kwargs shape i dim0 ds = Ok ds' ->
  dim_size dim = Some s ->
  od_get dim ds' = od_get dim ds.
Proof.
  intros Hrun Hsize. destruct (decide (dim = dim0)) as [->|Hne].
  - by destruct (infer_dimension_fixed _ _ _ _ _ _ Hrun Hsize) as [-> _].
  - by apply (infer_dimension_other kwargs shape i dim0 ds ds' dim Hrun).
Qed.

Lemma infer_indices_sized shape indices : forall i0 ds ds' dim s,
  infer_indices kwargs shape i0 indices ds = Ok ds' ->
  dim_size dim = Some s ->
  od_get dim ds' = od_get dim ds.
Proof.
  induction indices as [|dim0 indices IH]; intros i0 ds ds' dim s; simpl.
  - by intros [= <-].
  - intros (ds1 & H1 & Hrest)%result_bind_Ok Hsize.
    rewrite (IH _ _ _ _ _ Hrest Hsize). by eapply infer_dimension_sized.
Qed.

(** X5.  A dimension with a declared size is never given another one by
    the traversal of the data parameters, whatever the keywords say: its
    entry in [dim_sizes] is left as it was.  Unless the dimension is
    buffered, a binding that succeeds has checked that every array indexed
    by it has exactly the declared extent on that axis. *)
Theorem fixed_dimensions_match_arrays (op : Operator)
    (pairs : list (SymbolicData * Param))
    (a0 a' : list (string * value)) (ds0 ds' : list (Dimension * Z))
    (dim : Dimension) (s : Z) :
  bind_positional op kwargs pairs a0 ds0 = Ok (a', ds') ->
  dim_size dim = Some s ->
  od_get dim ds' = od_get dim ds0 /\
  (is_Buffered dim = false ->
   forall f arg i, (f, arg) ∈ pairs -> sd_indices f !! i = Some dim ->
     exists shape, _arg_shape op f = Ok shape /\ shape !! i = Some s).
Proof.
  revert a0 ds0. induction pairs as [|[f0 arg0] pairs IH]; intros a0 ds0; simpl.
  - intros [= <- <-] _. split; [done|]. intros _ f arg i Hin.
    by apply not_elem_of_nil in Hin.
  - intros (shape & Hshape & Hbind)%result_bind_Ok Hsize.
    apply result_bind_Ok in Hbind as (ds1 & H1 & Hrest).
    destruct (IH _ _ Hrest Hsize) as [Hsame Hchecked]. split.
    + rewrite Hsame. by eapply infer_indices_sized.
    + intros Hbuf f arg i [[= -> ->]|Hin]%elem_of_cons Hi.
      * exists shape. split; [done|].
        by apply (infer_indices_fixed shape _ 0%nat _ _ i dim s H1).
      * by apply (Hchecked Hbuf f arg i).
Qed.
End FixedDimensions.

(** An array of shape [(10, 20)] indexed by [(x, y)], where [x] is declared
    with size 10: the keyword [x=4] changes nothing. *)
Lemma fixed_dimensions_match_arrays_witness :
  let x10 := Dim "x" (Some 10) in
  let f := {| sd_name := "u"; sd_shape := [10; 20]; sd_indices := [x10; dim_y];
              sd_data := Some {| arr_loc := 0%nat; arr_shape := [10; 20] |} |} in
  od_get x10 [(dim_y, 20)] = @od_get Dimension Z _ x10 [] /\
  (is_Buffered x10 = false ->
   forall g arg i, (g, arg) ∈ [(f, PData f)] -> sd_indices g !! i = Some x10 ->
     exists shape, _arg_shape example_operator g = Ok shape /\ shape !! i = Some 10).
Proof.
  intros x10 f.
  exact (fixed_dimensions_match_arrays [("x", VInt 4)] example_operator
           [(f, PData f)] [] [("u", VArray {| arr_loc := 0%nat; arr_shape := [10; 20] |})]
           [] [(dim_y, 20)] x10 10 eq_refl eq_refl).
Defined.

(** ** Argument binding and the state *)

(** X6.  Binding the arguments reads and writes nothing outside the
    mapping unless the autotuner really runs: when autotuning is not
    requested, or the operator is not an [OperatorCore], or no blocking was
    applied, [arguments] leaves the state as it is (no native call, no
    buffer allocated), and its result is that of the pure binding followed
    by the profiler structure. *)
Theorem binding_without_autotuning_is_pure (opts : Options) (op : Operator)
    (args : list Param) (kwargs : list (string * value)) (st : State) :
  autotune_requested kwargs = false \/ cls op <> OperatorCore
    \/ has_applied_blocking op = false ->
  arguments opts op args kwargs st
  = (match bind_arguments op args kwargs with
     | Ok (a, dim_sizes, _) => Ok (od_update a (_extra_arguments op), dim_sizes)
     | Err e => Err e
     end, st).
Proof.
  intros Hidle. unfold arguments. rewrite M_bind_unfold. unfold lift.
  destruct (bind_arguments op args kwargs) as [[[a ds] m]|e] eqn:Hbind; [|done].
  assert (Hauto : (if m then _autotune opts op a else mret a) st = (Ok a, st)).
  { destruct m; [|done].
    unfold _autotune, OperatorCore_autotune.
    destruct (cls op) eqn:Hcls; try done.
    destruct (has_applied_blocking op) eqn:Hblocking; [|done].
    destruct Hidle as [Hreq|[?|?]]; [|done..].
    exfalso. unfold bind_arguments in Hbind.
    apply result_bind_Ok in Hbind as ([a1 ds1] & _ & Hsizes).
    unfold bind_sizes in Hsizes.
    apply result_bind_Ok in Hsizes as ([dle_args m0] & Hblock & Hsizes).
    apply result_bind_Ok in Hsizes as (a' & _ & [= _ _ ->]).
    apply bind_block_sizes_spec in Hblock as [Hm _].
    rewrite Hreq in Hm. done. }
  rewrite M_bind_unfold, Hauto. done.
Qed.

(** The example operator has no blocking. *)
Lemma binding_without_autotuning_is_pure_witness :
  arguments options example_operator [] [("autotune", VBool true)] empty_state
  = (Ok ([("u", VArray {| arr_loc := 0%nat; arr_shape := [10; 20] |});
          ("x", VInt 10); ("y", VInt 20); ("timings", VProfiler)],
         [(dim_x, 10); (dim_y, 20)]), empty_state).
Proof.
  exact (binding_without_autotuning_is_pure options example_operator []
           [("autotune", VBool true)] empty_state (or_intror (or_intror eq_refl))).
Defined.

(** ** The mapping handed to the native routine *)

Lemma od_set_elem {K V} `{EqDecision K} (k : K) (v : V) (d : list (K * V))
    (kv : K * V) :
  kv ∈ od_set k v d -> kv ∈ d \/ kv = (k, v).
Proof.
  intros Hin. apply (od_update_elem [(k, v)] d kv) in Hin as [?|Hin]; [by left|].
  right. by apply list_elem_of_singleton in Hin.
Qed.

Lemma od_get_Some_present {K V} `{EqDecision K} (k : K) (v : V) (d : list (K * V)) :
  od_item k d = Ok v -> k ∈ od_keys d.
Proof.
  unfold od_item. destruct (od_get k d) eqn:Hget; [|discriminate].
  intros _. by apply od_get_Some_keys in Hget.
Qed.

(** The overriding loop keeps the keys and writes only values that have a
    shape. *)
Lemma override_data_elem items : forall a a',
  override_data items a = Ok a' ->
  od_keys a' = od_keys a /\
  forall kv, kv ∈ a' -> kv ∈ a \/ exists shape, value_shape kv.2 = Ok shape.
Proof.
  induction items as [|[k o] items IH]; intros a a'; simpl.
  - intros [= <-]. split; [done|]. by left.
  - intros (v & Hv & Hrun)%result_bind_Ok.
    apply result_bind_Ok in Hrun as (declared & _ & Hrun).
    apply result_bind_Ok in Hrun as (shape & Hshape & Hrun).
    destruct (negb (bool_decide (declared = shape))); [discriminate|].
    apply IH in Hrun as [Hkeys Helem]. split.
    + rewrite Hkeys. apply od_keys_set_present. by apply od_get_Some_present in Hv.
    + intros kv Hkv. apply Helem in Hkv as [Hkv|?]; [|by right].
      apply od_set_elem in Hkv as [?| ->]; [by left|]. right. by exists shape.
Qed.

(** The loop over the dimension parameters binds each of their names to an
    integer. *)
Lemma insert_dimension_sizes_elem d_args ds : forall a a',
  insert_dimension_sizes d_args ds a = Ok a' ->
  (forall d, d ∈ d_args -> dim_name d ∈ od_keys a) ->
  od_keys a' = od_keys a /\
  (forall kv, kv ∈ a' -> kv ∈ a \/ exists n, kv.2 = VInt n) /\
  (forall k, k ∈ map dim_name d_args -> exists n, od_get k a' = Some (VInt n)).
Proof.
  induction d_args as [|d0 d_args IH]; intros a a'; simpl.
  - intros [= <-] _. split; [done|]. split; [by left|].
    intros k Hk. by apply not_elem_of_nil in Hk.
  - intros (n & Hn & Hrun)%result_bind_Ok Hnames.
    assert (Hd0 : dim_name d0 ∈ od_keys a) by (apply Hnames; left).
    pose proof Hrun as Hrest.
    apply IH in Hrun as (Hkeys & Helem & Hints).
    2:{ intros d Hd. rewrite od_keys_set_present by done. apply Hnames. by right. }
    split; [by rewrite Hkeys, od_keys_set_present|]. split.
    + intros kv Hkv. apply Helem in Hkv as [Hkv|?]; [|by right].
      apply od_set_elem in Hkv as [?| ->]; [by left|]. right. by exists n.
    + intros k [->|Hk]%elem_of_cons; [|by apply Hints].
      destruct (decide (dim_name d0 ∈ map dim_name d_args)) as [Hin|Hnotin];
        [by apply Hints|].
      exists n.
      apply insert_dimension_sizes_spec in Hrest as [Hother _].
      rewrite Hother by done. apply od_get_set_eq.
Qed.

Lemma write_back_elem (mapper : list (string * DleArgument))
    (best : list (string * Z)) items : forall a a',
  write_back mapper best items a = Ok a' ->
  (forall k, k ∈ items.*1 -> k ∈ od_keys a) ->
  od_keys a' = od_keys a /\
  forall kv, kv ∈ a' -> kv ∈ a \/ exists n, kv.2 = VInt n.
Proof.
  induction items as [|[k v] items IH]; intros a a'; cbn [write_back].
  - intros [= <-] _. split; [done|]. by left.
  - intros Hrun Hkeys.
    assert (Hk : k ∈ od_keys a) by (apply Hkeys; left).
    assert (Hrest : forall k', k' ∈ items.*1 -> k' ∈ od_keys a).
    { intros k' Hk'. apply Hkeys. by right. }
    destruct (od_contains k mapper); [|by apply IH].
    apply result_bind_Ok in Hrun as (b & _ & Hrun).
    apply IH in Hrun as [Hkeys' Helem].
    + split; [by rewrite Hkeys', od_keys_set_present|].
      intros kv Hkv. apply Helem in Hkv as [Hkv|?]; [|by right].
      apply od_set_elem in Hkv as [?| ->]; [by left|]. right. by exists b.
    + intros k' Hk'. rewrite od_keys_set_present by done. by apply Hrest.
Qed.

(** The autotuner returns the keys it was given and writes integers
    only. *)
Lemma autotune_elem opts op a st a' st' :
  _autotune opts op a st = (Ok a', st') ->
  od_keys a' = od_keys a /\
  forall kv, kv ∈ a' -> kv ∈ a \/ exists n, kv.2 = VInt n.
Proof.
  assert (Hidle : (Ok a, st) = (Ok a', st') ->
    od_keys a' = od_keys a /\
    forall kv, kv ∈ a' -> kv ∈ a \/ exists n, kv.2 = VInt n).
  { intros [= <- <-]. split; [done|]. by left. }
  unfold _autotune, OperatorCore_autotune.
  destruct (cls op); try exact Hidle.
  destruct (has_applied_blocking op); [|exact Hidle]. simpl.
  rewrite M_bind_unfold.
  destruct (autotune_trials opts op a st) as [[timings|e] st1]; [|discriminate].
  rewrite M_bind_unfold. unfold lift.
  destruct (fastest timings) as [best|e]; [|discriminate].
  intros [= Hwrite <-]. by apply write_back_elem in Hwrite.
Qed.

Lemma default_arguments_dimensions op k d :
  (k, VDimension d) ∈ default_arguments op -> k = dim_name d.
Proof.
  unfold default_arguments, od_of_items. intros Hin.
  apply od_update_elem in Hin as [Hin|Hin]; [by apply not_elem_of_nil in Hin|].
  apply list_elem_of_fmap in Hin as (p & Hp & _).
  destruct p as [f|d']; simpl in Hp; [discriminate|]. by injection Hp as -> ->.
Qed.

Lemma default_arguments_keys op :
  NoDup (map param_name (parameters op)) ->
  od_keys (default_arguments op) = map param_name (parameters op).
Proof.
  intros Hnd. unfold default_arguments.
  assert (Hnames : (map (fun p => (param_name p, param_value p)) (parameters op)).*1
                   = map param_name (parameters op)).
  { induction (parameters op) as [|p l IH]; simpl; [done|]. f_equal. apply IH.
    by apply NoDup_cons in Hnd as [_ ?]. }
  rewrite od_of_items_id by (by rewrite Hnames). exact Hnames.
Qed.

Lemma elem_of_zip {A B} (l : list A) (k : list B) (a : A) (b : B) :
  (a, b) ∈ zip l k -> a ∈ l /\ b ∈ k.
Proof.
  intros Hin. split.
  - by apply elem_of_zip_l in Hin.
  - by apply elem_of_zip_r in Hin.
Qed.



(** ** The native call *)


(** ** Data parameters without an array *)

Lemma override_data_other items : forall a a' k,
  override_data items a = Ok a' -> k ∉ items.*1 -> od_get k a' = od_get k a.
Proof.
  induction items as [|[k0 o] items IH]; intros a a' k; simpl.
  - by intros [= <-].
  - intros (v & _ & Hrun)%result_bind_Ok [Hne Hnotin]%not_elem_of_cons.
    apply result_bind_Ok in Hrun as (declared & _ & Hrun).
    apply result_bind_Ok in Hrun as (shape & _ & Hrun).
    destruct (negb (bool_decide (declared = shape))); [discriminate|].
    rewrite (IH _ _ _ Hrun Hnotin). apply od_get_set_ne. congruence.
Qed.

Lemma overriding_keywords_keys kwargs a k :
  k ∈ (overriding_keywords kwargs a).*1 -> k ∈ od_keys kwargs.
Proof.
  unfold overriding_keywords. intros Hk.
  apply (proj1 (od_of_items_keys _ k)) in Hk.
  apply list_elem_of_fmap in Hk as (kv & -> & Hkv).
  apply elem_of_filter_bool in Hkv as [Hkv _]. by apply list_elem_of_fmap_2.
Qed.

Lemma zip_covers {A B} (l : list A) : forall (k : list B) (x : A),
  x ∈ l -> (length l <= length k)%nat -> exists y, (x, y) ∈ zip l k.
Proof.
  induction l as [|x0 l IH]; intros k x Hx Hlen.
  - by apply not_elem_of_nil in Hx.
  - destruct k as [|y0 k]; simpl in Hlen; [lia|].
    apply elem_of_cons in Hx as [->|Hx].
    + exists y0. left.
    + destruct (IH k x Hx) as [y Hy]; [lia|]. exists y. by right.
Qed.

Lemma length_omap_le {A B} (f : A -> option B) (l : list A) :
  (length (omap f l) <= length l)%nat.
Proof.
  induction l as [|x l IH]; [done|]. cbn. destruct (f x); cbn in *; lia.
Qed.

(** An [OperatorCore] cannot traverse a data parameter that has no
    array. *)
Lemma bind_positional_needs_data op kwargs pairs f arg :
  cls op = OperatorCore -> (f, arg) ∈ pairs -> sd_data f = None ->
  forall a ds, exists e, bind_positional op kwargs pairs a ds = Err e.
Proof.
  intros Hcls Hin Hdata.
  induction pairs as [|[f0 arg0] pairs IH]; intros a ds; simpl.
  - by apply not_elem_of_nil in Hin.
  - destruct (_arg_shape op f0) as [shape|e] eqn:Hshape; simpl; [|by eexists].
    destruct (infer_indices kwargs shape 0 (sd_indices f0) ds) as [ds1|e];
      simpl; [|by eexists].
    apply elem_of_cons in Hin as [[= -> ->]|Hin]; [|by apply IH].
    unfold _arg_shape in Hshape. rewrite Hcls, Hdata in Hshape. discriminate.
Qed.

(** X9.  A data parameter without an array stops the binding of an
    [OperatorCore]: if a data parameter of the operator has no data and no
    keyword is named like it, the binding fails, and so does [apply], with
    the state left as it was, whenever the call passes no positional
    arguments or at least as many as the operator has parameters.  (With
    fewer positional arguments the traversal stops early and may not reach
    that parameter.) *)
Theorem core_requires_array_data (opts : Options) (op : Operator)
    (args : list Param) (kwargs : list (string * value)) (st : State)
    (f : SymbolicData) :
  cls op = OperatorCore ->
  NoDup (map param_name (parameters op)) ->
  PData f ∈ parameters op ->
  sd_data f = None ->
  od_get (sd_name f) kwargs = None ->
  args = [] \/ (length (parameters op) <= length args)%nat ->
  exists e, arguments opts op args kwargs st = (Err e, st) /\
            apply opts op args kwargs st = (Err e, st).
Proof.
  intros Hcls Hnd Hf Hdata Hkw Hargs.
  assert (Hbind : exists e, bind_arguments op args kwargs = Err e).
  { unfold bind_arguments, bind_data.
    set (passed := if (length args =? 0)%nat then parameters op else args).
    assert (Hpassed : (length (parameters op) <= length passed)%nat).
    { subst passed. destruct Hargs as [-> | Hlen]; [done|].
      destruct (length args =? 0)%nat; [done|exact Hlen]. }
    clearbody passed.
    destruct (override_data (overriding_keywords kwargs (default_arguments op))
                (default_arguments op)) as [a1|e] eqn:Hoverride; simpl; [|by eexists].
    assert (Hdefault : od_get (sd_name f) (default_arguments op) = Some (VSymbolic f)).
    { apply od_get_elem_NoDup; [apply od_of_items_NoDup|].
      unfold default_arguments.
      assert (Hnames : (map (fun p => (param_name p, param_value p)) (parameters op)).*1
                       = map param_name (parameters op)).
      { clear. induction (parameters op) as [|p l IH]; simpl; [done|]. by f_equal. }
      rewrite od_of_items_id by (by rewrite Hnames).
      by apply (list_elem_of_fmap_2 (fun p => (param_name p, param_value p))) in Hf. }
    assert (Hf1 : od_get (sd_name f) a1 = Some (VSymbolic f)).
    { rewrite (override_data_other _ _ _ _ Hoverride); [done|].
      intros Hin%overriding_keywords_keys. by apply od_get_None in Hkw. }
    pose proof (override_data_elem _ _ _ Hoverride) as [Hkeys1 _].
    destruct (zip_covers (omap symbolic_of (od_values a1)) passed f)
      as [arg Harg].
    { apply list_elem_of_omap. exists (VSymbolic f). split; [|done].
      apply od_get_Some_elem in Hf1. by apply (list_elem_of_fmap_2 snd) in Hf1. }
    { etransitivity; [apply length_omap_le|].
      unfold od_values. rewrite length_fmap.
      rewrite <- (length_fmap fst a1). fold (od_keys a1).
      rewrite Hkeys1, (default_arguments_keys op Hnd), length_map. done. }
    destruct (bind_positional_needs_data op kwargs _ f arg Hcls Harg Hdata a1 [])
      as [e He].
    rewrite He. simpl. by eexists. }
  destruct Hbind as [e Hbind]. exists e.
  assert (Hfails : arguments opts op args kwargs st = (Err e, st)).
  { unfold arguments. rewrite M_bind_unfold. unfold lift. by rewrite Hbind. }
  split; [done|]. unfold apply. by rewrite M_bind_unfold, Hfails.
Qed.

(** An operator over [u], which has an array, and [w], which has none:
    the call without positional arguments fails, and so does the call that
    passes all four parameters. *)
Lemma core_requires_array_data_witness :
  let bare := {| sd_name := "w"; sd_shape := [10; 20]; sd_indices := [dim_x; dim_y];
                 sd_data := None |} in
  let op := {| cls := OperatorCore;
               parameters := [PData data_u; PData bare; PDim dim_x; PDim dim_y];
               dtype_of := np_float64;
               sections := [];
               dle_arguments := [];
               has_applied_blocking := false;
               needs_aggressive_autotuning := false;
               output_fields := ["u"];
               body_iterations := [];
               s_name := "timings";
               cfunction := timed_routine "loop_x_0" millisecond |} in
  (exists e, arguments options op [] [] empty_state = (Err e, empty_state) /\
             apply options op [] [] empty_state = (Err e, empty_state)) /\
  (exists e, arguments options op (parameters op) [] empty_state
             = (Err e, empty_state) /\
             apply options op (parameters op) [] empty_state
             = (Err e, empty_state)).
Proof.
  intros bare op. split.
  - apply (core_requires_array_data options op [] [] empty_state bare eq_refl).
    + decide_by_computation.
    + right. left.
    + reflexivity.
    + reflexivity.
    + by left.
  - apply (core_requires_array_data options op (parameters op) [] empty_state bare
             eq_refl).
    + decide_by_computation.
    + right. left.
    + reflexivity.
    + reflexivity.
    + right. simpl. lia.
Defined.

(** With one positional argument the traversal stops after [u]: the
    binding succeeds and leaves [w] bound to its symbolic object. *)
Example fewer_positional_arguments :
  let bare := {| sd_name := "w"; sd_shape := [10; 20]; sd_indices := [dim_x; dim_y];
                 sd_data := None |} in
  let op := {| cls := OperatorCore;
               parameters := [PData data_u; PData bare; PDim dim_x; PDim dim_y];
               dtype_of := np_float64;
               sections := [];
               dle_arguments := [];
               has_applied_blocking := false;
               needs_aggressive_autotuning := false;
               output_fields := ["u"];
               body_iterations := [];
               s_name := "timings";
               cfunction := timed_routine "loop_x_0" millisecond |} in
  bind_arguments op [PData data_u] []
  = Ok ([("u", VArray {| arr_loc := 0%nat; arr_shape := [10; 20] |});
         ("w", VSymbolic bare); ("x", VInt 10); ("y", VInt 20)],
        [(dim_x, 10); (dim_y, 20)], false).
Proof. reflexivity. Qed.

(** ** The performance summary: when it exists, and which section is [main] *)

Lemma summarize_sections_entries op dim_sizes timings sections :
  forall summary0 summary,
    summarize_sections op dim_sizes timings sections summary0 = Ok summary ->
    (forall itspace profile, (itspace, profile) ∈ sections ->
       exists e, section_entry op dim_sizes timings itspace profile
                 = Ok (timer profile, e)) /\
    (forall k e, od_get k summary = Some e ->
       od_get k summary0 = Some e \/
       exists itspace profile,
         (itspace, profile) ∈ sections /\ timer profile = k /\
         od_get k timings = Some (time e)) /\
    (forall k, k ∈ od_keys summary0 -> k ∈ od_keys summary) /\
    (forall itspace profile, (itspace, profile) ∈ sections ->
       timer profile ∈ od_keys summary).
Proof.
  induction sections as [|[itspace0 profile0] sections IH]; intros summary0 summary; simpl.
  - intros [= <-]. split; [|split; [by left|split; [done|]]];
      intros ? ? Hin; by apply not_elem_of_nil in Hin.
  - intros ([key e0] & Hentry & Hrest)%result_bind_Ok.
    pose proof (section_entry_formulas _ _ _ _ _ _ _ Hentry) as (-> & Htime & _).
    apply IH in Hrest as (Hall & Hfrom & Hmono & Hcover). unfold setsection in *.
    assert (He0 : {| time := time e0; gflopss := gflopss e0; oi := oi e0;
                     itershape := itershape e0; datashape := datashape e0 |} = e0)
      by (by destruct e0).
    rewrite He0 in *.
    split; [|split; [|split]].
    + intros itspace profile [[= -> ->]|Hin]%elem_of_cons; [by exists e0|by apply Hall].
    + intros k e Hget. apply Hfrom in Hget as [Hget|(its & pr & Hin & Hk & Ht)].
      * rewrite od_get_set in Hget. destruct (decide (timer profile0 = k)) as [<-|Hne].
        -- injection Hget as <-. right. exists itspace0, profile0.
           split; [left|done].
        -- by left.
      * right. exists its, pr. split; [by right|done].
    + intros k Hk. apply Hmono. apply od_keys_set_elem. by right.
    + intros itspace profile [[= -> ->]|Hin]%elem_of_cons;
        [|by apply (Hcover itspace)].
      apply Hmono. apply od_keys_set_elem. by left.
Qed.

Lemma product_nonzero (l : list Z) : product l <> 0 <-> forall n, n ∈ l -> n <> 0.
Proof.
  unfold product. induction l as [|x l IH]; simpl.
  - split; [|done]. intros _ n Hn. by apply not_elem_of_nil in Hn.
  - split.
    + intros Hmul n [->|Hn]%elem_of_cons.
      * intros ->. by apply Hmul.
      * apply IH; [|done]. intros Hl. apply Hmul. rewrite Hl. lia.
    + intros Hall Hmul. apply Z.mul_eq_0 in Hmul as [Hx|Hl].
      * by apply (Hall x); [left|].
      * revert Hl. apply IH. intros n Hn. apply Hall. by right.
Qed.

Lemma py_truediv_nonzero (x y q : spec_float) :
  py_truediv x y = Ok q -> f64_is_zero y = false.
Proof. unfold py_truediv. by destruct (f64_is_zero y). Qed.

Lemma py_truediv_int_nonzero (x q : spec_float) (n : Z) :
  py_truediv_int x n = Ok q -> n <> 0.
Proof.
  unfold py_truediv_int. intros (y & Hy & Hq)%result_bind_Ok ->.
  apply py_truediv_nonzero in Hq. vm_compute in Hy. injection Hy as <-. done.
Qed.

Lemma Forall2_elem_l {A B} (P : A -> B -> Prop) (l : list A) (k : list B) (x : A) :
  Forall2 P l k -> x ∈ l -> exists y, y ∈ k /\ P x y.
Proof.
  induction 1 as [|x0 y0 l k Hxy _ IH]; intros Hx.
  - by apply not_elem_of_nil in Hx.
  - apply elem_of_cons in Hx as [->|Hx].
    + exists y0. split; [left|done].
    + destruct (IH Hx) as (y & Hy & HP). exists y. split; [by right|done].
Qed.

(** X10.  [_profile_summary] returns a summary only if the operator has a
    profiled section and every section has at least one loop, a timer that
    the profiler reports with a nonzero time, a nonzero count of memory
    accesses, and, for each of its loops, a realized extent and a nonzero
    data extent.  In every other case the call raises (after the native
    routine has run). *)
Theorem summary_needs_measurements (op : Operator) (dim_sizes : list (Dimension * Z))
    (timings : list (string * spec_float)) (summary : list (string * PerfEntry)) :
  OperatorCore_profile_summary op dim_sizes timings = Ok summary ->
  sections op <> [] /\
  forall itspace profile, (itspace, profile) ∈ sections op ->
    itspace <> [] /\
    (exists t, od_get (timer profile) timings = Some t /\ f64_is_zero t = false) /\
    memory profile <> 0 /\
    forall i, i ∈ itspace ->
      exists n m, realized_extent dim_sizes i = Some n /\
                  data_extent dim_sizes i = Some m /\ m <> 0.
Proof.
  unfold OperatorCore_profile_summary.
  intros (summary0 & Hsections & Hrename)%result_bind_Ok. split.
  - intros Hnil. rewrite Hnil in Hsections. injection Hsections as <-.
    discriminate.
  - intros itspace profile Hin.
    apply summarize_sections_entries in Hsections as (Hall & _).
    destruct (Hall itspace profile Hin) as (e & Hentry).
    pose proof (section_entry_formulas _ _ _ _ _ _ _ Hentry)
      as (_ & Htime & Hiter & Hdata & _).
    unfold section_entry in Hentry.
    apply result_bind_Ok in Hentry as (t & Ht & Hentry).
    apply result_bind_Ok in Hentry as (iterexts & _ & Hentry).
    apply result_bind_Ok in Hentry as (iterspace & Hreduce & Hentry).
    apply result_bind_Ok in Hentry as (flops & _ & Hentry).
    apply result_bind_Ok in Hentry as (gflops & _ & Hentry).
    apply result_bind_Ok in Hentry as (dataexts & _ & Hentry).
    apply result_bind_Ok in Hentry as (dataspace & ->%reduce_mul_product & Hentry).
    apply result_bind_Ok in Hentry as (o & Htraffic%py_truediv_int_nonzero & Hentry).
    apply result_bind_Ok in Hentry as (g & Hzero%py_truediv_nonzero & [= <-]).
    simpl in *.
    assert (Hmemory : memory profile <> 0) by (intros Hm; rewrite Hm in Htraffic; lia).
    assert (Hextents : product dataexts <> 0).
    { intros Hp; rewrite Hp in Htraffic; lia. }
    split; [|split; [|split; [done|]]].
    + intros ->. apply Forall2_nil_inv_l in Hiter as ->. discriminate.
    + exists t. split; [|done]. unfold od_item in Ht.
      by destruct (od_get (timer profile) timings); [injection Ht as ->|].
    + intros i Hi.
      destruct (Forall2_elem_l _ _ _ i Hiter Hi) as (n & _ & Hn).
      destruct (Forall2_elem_l _ _ _ i Hdata Hi) as (m & Hm & Hm').
      exists n, m. split; [done|]. split; [done|].
      by apply (proj1 (product_nonzero dataexts) Hextents).
Qed.

(** The loops of the example have extent 10 and its timer reports one
    millisecond. *)
Lemma summary_needs_measurements_witness :
  exists t, od_get "loop_x_0" [("loop_x_0", millisecond)] = Some t /\
            f64_is_zero t = false.
Proof.
  destruct (summary_needs_measurements square_operator [(dim_x, 10); (dim_y, 10)]
              [("loop_x_0"%string, millisecond)] _ ltac:(vm_compute; reflexivity))
    as [_ Hsections].
  destruct (Hsections [plain_loop dim_x; plain_loop dim_y]
              {| timer := "loop_x_0"; ops := 2; memory := 1 |}) as (_ & Ht & _);
    [left|exact Ht].
Defined.

(** *** The section renamed to [main] *)

Section SelectBound.
Context {A B : Type}.
Variable better : B -> B -> bool.
Variable key : A -> B.
Variable ok : A -> Prop.
Variable covers : A -> A -> Prop.   (* [covers b z]: [z] does not beat [b] *)

Hypothesis covers_refl : forall x, ok x -> covers x x.
Hypothesis replaced : forall x b z, ok x -> ok b -> ok z ->
  better (key x) (key b) = true -> covers b z -> covers x z.
Hypothesis kept : forall x b, ok x -> ok b ->
  better (key x) (key b) = false -> covers b x.

Lemma py_select_covers (l : list A) (b : A) :
  (forall z, z ∈ l -> ok z) ->
  py_select better key l = Ok b ->
  forall z, z ∈ l -> covers b z.
Proof.
  destruct l as [|x0 l]; simpl; [discriminate|]. intros Hok [= <-].
  assert (Hgen : forall later best seen,
    (forall z, z ∈ best :: seen ++ later -> ok z) ->
    (forall z, z ∈ best :: seen -> covers best z) ->
    forall z, z ∈ best :: seen ++ later ->
      covers (fold_left (py_select_step better key) later best) z).
  { induction later as [|x later IH]; intros best seen Hall Hseen z Hz; simpl.
    - rewrite app_nil_r in Hz. by apply Hseen.
    - assert (Hx : ok x).
      { apply Hall. right. apply elem_of_app. right. left. }
      assert (Hb : ok best) by (apply Hall; left).
      unfold py_select_step at 2.
      destruct (better (key x) (key best)) eqn:Hbetter.
      + apply (IH x (best :: seen)).
        * intros z' [->|Hz']%elem_of_cons; [done|]. apply Hall.
          apply elem_of_cons in Hz' as [->|Hz']; [left|].
          right. rewrite elem_of_app in *. destruct Hz'; [by left|right; by right].
        * intros z' [->|Hz']%elem_of_cons; [by apply covers_refl|].
          apply (replaced x best z'); try done; [|by apply Hseen].
          apply Hall. apply elem_of_cons in Hz' as [->|Hz']; [left|].
          right. apply elem_of_app. by left.
        * apply elem_of_cons in Hz as [->|Hz]; [right; left|].
          apply elem_of_app in Hz as [Hz|[->|Hz]%elem_of_cons].
          -- right. right. apply elem_of_app. by left.
          -- left.
          -- right. right. apply elem_of_app. by right.
      + apply (IH best (seen ++ [x])).
        * intros z' Hz'. apply Hall. by rewrite <- app_assoc in Hz'.
        * intros z' [->|Hz']%elem_of_cons; [by apply covers_refl|].
          apply elem_of_app in Hz' as [Hz'|Hz'].
          -- apply Hseen. by right.
          -- apply list_elem_of_singleton in Hz' as ->. by apply kept.
        * by rewrite <- app_assoc. }
  intros z Hz. apply (Hgen l x0 []); [done| |done].
  intros z' Hz'. apply list_elem_of_singleton in Hz' as ->. apply covers_refl, Hok. left.
Qed.
End SelectBound.

Lemma SFeqb_not_lt (a b : spec_float) :
  SFeqb a b = true -> SFltb a b = false /\ SFltb b a = false.
Proof.
  unfold SFeqb, SFltb, SFcompare.
  destruct a as [sa|sa| |sa ma ea], b as [sb|sb| |sb mb eb];
    try discriminate; try done;
    repeat match goal with s : bool |- _ => destruct s end;
    try discriminate; try done; intros Hab; compare_cases;
    rewrite ?Z.compare_refl, ?Pos.compare_refl; try done;
    change (Pos.compare_cont Eq mb mb) with (Pos.compare mb mb);
    by rewrite Pos.compare_refl.
Qed.

(** An entry that [max] prefers has a time that is not smaller. *)
Lemma perf_gt_time (x b : PerfEntry) :
  (perf_gt x b = true -> SFltb (time x) (time b) = false) /\
  (perf_gt x b = false -> SFltb (time b) (time x) = false).
Proof.
  unfold perf_gt. destruct (SFeqb (time x) (time b)) eqn:Heq; simpl.
  - apply SFeqb_not_lt in Heq as [? ?]. done.
  - split; [|done]. apply SFltb_asym.
Qed.

(** X11.  "Rename the most time consuming section as 'main'": when the
    profiler reports numbers, the summary has an entry [main], its time is
    the time measured for one of the sections, and no section was measured
    with a larger time. *)
Theorem main_is_the_slowest_section (op : Operator) (dim_sizes : list (Dimension * Z))
    (timings : list (string * spec_float)) (summary : list (string * PerfEntry)) :
  OperatorCore_profile_summary op dim_sizes timings = Ok summary ->
  (forall k t, od_get k timings = Some t -> is_number t) ->
  exists e,
    od_get "main" summary = Some e /\
    (exists itspace profile,
       (itspace, profile) ∈ sections op /\
       od_get (timer profile) timings = Some (time e)) /\
    (forall itspace profile, (itspace, profile) ∈ sections op ->
       exists t, od_get (timer profile) timings = Some t /\
                 SFltb (time e) t = false).
Proof.
  unfold OperatorCore_profile_summary.
  intros (summary0 & Hsections & Hrename)%result_bind_Ok Hnumbers.
  apply summarize_sections_entries in Hsections as (_ & Hfrom & _ & Hcover).
  assert (Hentry : forall k e, od_get k summary0 = Some e ->
            exists itspace profile,
              (itspace, profile) ∈ sections op /\ timer profile = k /\
              od_get k timings = Some (time e)).
  { intros k e Hget. by apply Hfrom in Hget as [?|?]. }
  unfold rename_main in Hrename.
  apply result_bind_Ok in Hrename as (k & Hk & Hrename).
  apply result_bind_Ok in Hrename as ([ek rest] & Hpop & [= <-]).
  unfold od_pop in Hpop. destruct (od_get k summary0) as [e|] eqn:He; [|discriminate].
  injection Hpop as <- <-.
  exists e. split; [apply od_get_set_eq|]. split.
  - destruct (Hentry k e He) as (its & pr & Hin & <- & Ht). by exists its, pr.
  - intros itspace profile Hin.
    destruct (od_get_elem_of (timer profile) summary0 (Hcover _ _ Hin))
      as (e' & He' & _).
    destruct (Hentry _ _ He') as (_ & _ & _ & _ & Ht').
    exists (time e'). split; [done|].
    pose (ok := fun k : string =>
                  exists e, od_get k summary0 = Some e /\ is_number (time e)).
    pose (covers := fun b z : string =>
                      forall eb ez, od_get b summary0 = Some eb ->
                                    od_get z summary0 = Some ez ->
                                    SFltb (time eb) (time ez) = false).
    assert (Hcovers : covers k (timer profile)).
    { apply (py_select_covers entry_gt (fun k => od_get k summary0) ok covers)
        with (l := od_keys summary0).
      - intros x (ex & Hx & Hnum) eb ez Hb Hz.
        assert (eb = ex) as -> by congruence. assert (ez = ex) as -> by congruence.
        destruct (SFltb (time ex) (time ex)) eqn:Hlt; [|done].
        by rewrite (SFltb_asym _ _ Hlt) in Hlt.
      - intros x b z (ex & Hx & Hnx) (eb & Hb & Hnb) (ez & Hz & Hnz) Hbetter Hbz
          ex' ez' Hx' Hz'.
        assert (ex' = ex) as -> by congruence. assert (ez' = ez) as -> by congruence.
        rewrite Hx, Hb in Hbetter. simpl in Hbetter.
        apply perf_gt_time in Hbetter.
        destruct (SFltb (time ex) (time ez)) eqn:Hlt; [|done].
        destruct (SFltb_cotrans (time ex) (time eb) (time ez) Hnb Hlt) as [Hxb|Hbz'].
        + congruence.
        + rewrite (Hbz eb ez Hb Hz) in Hbz'. discriminate.
      - intros x b (ex & Hx & Hnx) (eb & Hb & Hnb) Hbetter eb' ex' Hb' Hx'.
        assert (ex' = ex) as -> by congruence. assert (eb' = eb) as -> by congruence.
        rewrite Hx, Hb in Hbetter. simpl in Hbetter.
        by apply perf_gt_time in Hbetter.
      - intros z Hz. apply od_get_elem_of in Hz as (ez & Hz & _).
        exists ez. split; [done|].
        destruct (Hentry _ _ Hz) as (_ & _ & _ & _ & Ht). by apply (Hnumbers z).
      - done.
      - by apply Hcover in Hin. }
    by apply (Hcovers e e').
Qed.

(** The example has one section, measured with one millisecond. *)
Lemma main_is_the_slowest_section_witness :
  exists e summary,
    OperatorCore_profile_summary square_operator [(dim_x, 10); (dim_y, 10)]
      [("loop_x_0", millisecond)] = Ok summary /\
    od_get "main" summary = Some e /\
    SFltb (time e) millisecond = false.
Proof.
  assert (Hnumbers : forall k t,
    od_get k [("loop_x_0", millisecond)] = Some t -> is_number t).
  { intros k t. simpl. destruct (decide (k = "loop_x_0")); [|discriminate].
    by intros [= <-]. }
  destruct (main_is_the_slowest_section square_operator [(dim_x, 10); (dim_y, 10)]
              [("loop_x_0", millisecond)] _ ltac:(vm_compute; reflexivity) Hnumbers)
    as (e & Hmain & _ & Hall).
  destruct (Hall [plain_loop dim_x; plain_loop dim_y]
              {| timer := "loop_x_0"; ops := 2; memory := 1 |}) as (t & Ht & Hle);
    [left|].
  injection Ht as <-.
  eexists e, _. split; [vm_compute; reflexivity|]. split; [exact Hmain|exact Hle].
Defined.

(** ** The candidates of the autotuner *)

Lemma mapM_result_Err {A B} (f : A -> result B) (l : list A) (e : exn) :
  mapM_result f l = Err e -> exists x, x ∈ l /\ f x = Err e.
Proof.
  induction l as [|x l IH]; simpl; [discriminate|].
  destruct (f x) as [y|e'] eqn:Hx; simpl.
  - destruct (mapM_result f l) as [ys|e'']; simpl; [discriminate|].
    intros [= ->]. destruct IH as (x' & Hx' & Hf); [done|].
    exists x'. split; [by right|done].
  - intros [= ->]. exists x. split; [left|done].
Qed.

Lemma removelast_fst {A B} (l : list (A * B)) : (removelast l).*1 = removelast l.*1.
Proof.
  induction l as [|a l IH]; [done|]. destruct l as [|b l]; [done|].
  change (removelast (a :: b :: l)) with (a :: removelast (b :: l)).
  rewrite fmap_cons, IH. done.
Qed.

Lemma blocking_mapper_empty op : od_keys (blocking_mapper op) = [] -> dle_arguments op = [].
Proof.
  unfold blocking_mapper. destruct (dle_arguments op) as [|i l]; [done|].
  intros Hkeys. exfalso.
  assert (Hin : dim_name (argument i) ∈ od_keys (od_of_items
            (map (fun i => (dim_name (argument i), i)) (i :: l)))).
  { apply od_of_items_keys. simpl. left. }
  rewrite Hkeys in Hin. by apply not_elem_of_nil in Hin.
Qed.

Section Candidates.
Variables (opts : Options) (op : Operator).

Local Abbreviation keys := (od_keys (blocking_mapper op)).
Local Abbreviation base :=
  (map (fun v => map (fun k => (k, v)) keys) (at_blocksize opts)).

(** A candidate binds the blocking parameters, each to a listed size or to
    twice a listed size. *)
Local Abbreviation listed :=
  (fun c : list (string * Z) =>
     od_keys c = keys /\
     forall k v, (k, v) ∈ c ->
       exists b, b ∈ at_blocksize opts /\ (v = b \/ v = b * 2)).

Lemma keys_distinct : NoDup keys.
Proof. apply od_of_items_NoDup. Qed.

Lemma base_listed (c : list (string * Z)) :
  c ∈ base -> od_keys c = keys /\ forall k v, (k, v) ∈ c -> v ∈ at_blocksize opts.
Proof.
  intros (b & -> & Hb)%list_elem_of_fmap. split; [apply uniform_keys|].
  intros k v (k' & [= -> ->] & _)%list_elem_of_fmap. done.
Qed.

Lemma elaborated_listed (elaborated : list (list (string * Z))) :
  elaborated_blocksizes base = Ok elaborated ->
  forall c, c ∈ elaborated -> listed c.
Proof.
  intros Hel c Hc. unfold elaborated_blocksizes in Hel.
  apply result_bind_Ok in Hel as (swapped & Hswapped & [= <-]).
  apply elem_of_app in Hc as [Hc|Hc].
  - apply list_elem_of_In, in_concat in Hc as (group & Hgroup & Hc).
    apply list_elem_of_In in Hgroup, Hc.
    destruct (mapM_result_elem _ _ _ _ Hswapped Hgroup) as (blocksize & Hin & Hinner).
    destruct (mapM_result_elem _ _ _ _ Hinner Hc) as (i & Hi & Hmake).
    apply result_bind_Ok in Hmake as (handle & Hhandle & [= <-]).
    unfold Scheduler.py_last in Hhandle.
    destruct (last i) as [h|] eqn:Hlast; [|discriminate]. injection Hhandle as ->.
    apply (subseteq_take 3) in Hin.
    destruct (base_listed _ Hin) as [Hkeys Hvalues].
    destruct (base_listed _ Hi) as [Hkeys' Hvalues'].
    assert (Hlast' : last keys = Some handle.1).
    { rewrite <- Hkeys'. unfold od_keys. by rewrite fmap_last, Hlast. }
    assert (Hitems : (removelast blocksize ++ [handle]).*1 = keys).
    { rewrite fmap_app, removelast_fst. fold (od_keys blocksize). rewrite Hkeys.
      simpl. symmetry. by apply last_removelast. }
    rewrite od_of_items_id by (rewrite Hitems; apply keys_distinct).
    split; [done|]. intros k v [Hkv|Hkv]%elem_of_app.
    + exists v. split; [|by left]. apply (Hvalues k). by apply elem_of_removelast.
    + apply list_elem_of_singleton in Hkv as <-. exists v. split; [|by left].
      apply (Hvalues' k). by apply last_Some_elem_of.
  - apply list_elem_of_In, in_flat_map in Hc as (blocksize & Hin & Hc).
    apply in_flat_map in Hc as (i & _ & Hc).
    apply in_map_iff in Hc as (j & <- & _).
    apply list_elem_of_In in Hin.
    destruct (base_listed _ Hin) as [Hkeys Hvalues].
    set (double := fun kv : string * Z =>
                     (kv.1, if bool_decide (kv.1 ∈ j)
                            then default kv.2 (od_get kv.1 blocksize) * 2
                            else kv.2)).
    assert (Hitems : (map double blocksize).*1 = keys).
    { rewrite <- Hkeys. unfold od_keys. generalize blocksize at 1 2.
      intros l. induction l as [|kv l IH]; [done|].
      rewrite !fmap_cons. f_equal. exact IH. }
    rewrite od_of_items_id by (rewrite Hitems; apply keys_distinct).
    split; [done|]. intros k v (kv & [= -> ->] & Hkv)%list_elem_of_fmap.
    destruct kv as [k0 v0]. simpl.
    destruct (bool_decide (k0 ∈ j)).
    + destruct (od_get k0 blocksize) as [v1|] eqn:Hget; simpl.
      * exists v1. split; [|by right]. apply (Hvalues k0). by apply od_get_Some_elem.
      * exists v0. split; [|by right]. by apply (Hvalues k0).
    + exists v0. split; [|by left]. by apply (Hvalues k0).
Qed.

Lemma elaborated_fails (e : exn) :
  elaborated_blocksizes base = Err e ->
  e = IndexError /\ keys = [] /\ at_blocksize opts <> [].
Proof.
  unfold elaborated_blocksizes.
  destruct (mapM_result _ (take 3 base)) as [swapped|e'] eqn:Hswapped; simpl;
    [discriminate|].
  intros [= ->].
  apply mapM_result_Err in Hswapped as (blocksize & Hin & Hinner).
  apply mapM_result_Err in Hinner as (i & Hi & Hmake).
  unfold Scheduler.py_last in Hmake.
  destruct (last i) as [h|] eqn:Hlast; simpl in Hmake; [discriminate|].
  injection Hmake as <-. split; [done|].
  destruct (base_listed _ Hi) as [Hkeys _].
  apply last_None in Hlast. subst i. split; [done|].
  intros Hnil. rewrite Hnil in Hi. by apply not_elem_of_nil in Hi.
Qed.

(** X12.  "Attempted block sizes": every candidate binds exactly the
    blocking parameters, in their order, each to a size listed in
    [options['at_blocksize']] or, with aggressive autotuning, to twice a
    listed size.  Building the candidates fails only with aggressive
    autotuning, sizes to try and no blocking parameter, where the last item
    of an empty candidate is taken ([IndexError]); and in that case it does
    fail. *)
Theorem candidates_bind_listed_sizes :
  match attempted_blocksizes opts op with
  | Ok candidates =>
      forall c, c ∈ candidates ->
        od_keys c = od_keys (blocking_mapper op) /\
        forall k v, (k, v) ∈ c ->
          exists b, b ∈ at_blocksize opts /\
                    (v = b \/ (needs_aggressive_autotuning op = true /\ v = b * 2))
  | Err e => e = IndexError
  end /\
  (attempted_blocksizes opts op = Err IndexError <->
   needs_aggressive_autotuning op = true /\ dle_arguments op = [] /\
   at_blocksize opts <> []).
Proof.
  unfold attempted_blocksizes.
  destruct (needs_aggressive_autotuning op) eqn:Haggressive.
  - destruct (elaborated_blocksizes base) as [elaborated|e] eqn:Hel; simpl.
    + split.
      * intros c [Hc|Hc]%elem_of_app.
        -- destruct (base_listed _ Hc) as [Hkeys Hvalues]. split; [done|].
           intros k v Hkv. exists v. split; [by apply (Hvalues k)|by left].
        -- destruct (elaborated_listed _ Hel c Hc) as [Hkeys Hvalues].
           split; [done|]. intros k v Hkv.
           destruct (Hvalues k v Hkv) as (b & Hb & [->| ->]); exists b; auto.
      * split; [discriminate|]. intros (_ & Hdle & Hsizes). exfalso.
        unfold elaborated_blocksizes, blocking_mapper in Hel.
        rewrite Hdle in Hel. destruct (at_blocksize opts); [done|]. discriminate.
    + apply elaborated_fails in Hel as (-> & Hkeys & Hsizes). split; [done|].
      split; [|done]. intros _. split; [done|]. split; [|done].
      by apply blocking_mapper_empty.
  - split.
    + intros c Hc. destruct (base_listed _ Hc) as [Hkeys Hvalues]. split; [done|].
      intros k v Hkv. exists v. split; [by apply (Hvalues k)|by left].
    + split; [discriminate|]. by intros [[=] _].
Qed.
End Candidates.

(** ** Squeezed dimensions in the trial runs *)

Section Squeeze.
Variables (opts : Options) (op : Operator).

Local Abbreviation mapper := (blocking_mapper op).
Local Abbreviation squeezer := (Some (VInt (at_squeezer opts))).

(** A pass over the keys that meets no illegal value leaves every squeezable
    key that is not a key of the candidate bound to [at_squeezer]. *)
Lemma try_blocksize_squeezes (blocksize : list (string * Z)) (k : string) keys :
  od_contains k blocksize = false -> k ∈ squeezable op ->
  forall at_arguments at_arguments',
    try_blocksize opts mapper (squeezable op) blocksize keys at_arguments
    = Ok (false, at_arguments') ->
    (k ∈ keys -> od_get k at_arguments' = squeezer) /\
    (od_get k at_arguments = squeezer -> od_get k at_arguments' = squeezer).
Proof.
  intros Hfree Hsq.
  induction keys as [|k0 keys IH]; intros at_args at_args'; simpl.
  - intros [= <-]. split; [|done]. intros Hk. by apply not_elem_of_nil in Hk.
  - destruct (od_contains k0 blocksize) eqn:Hk0.
    + intros (val & _ & Hrun)%result_bind_Ok.
      apply result_bind_Ok in Hrun as (i & _ & Hrun).
      destruct (le_end val _); [|discriminate].
      assert (Hne : k0 <> k) by congruence.
      apply IH in Hrun as [Hin Hkept]. split.
      * intros [->|Hk]%elem_of_cons; [done|by apply Hin].
      * intros Hget. apply Hkept. by rewrite od_get_set_ne.
    + destruct (bool_decide (k0 ∈ squeezable op)) eqn:Hsq0.
      * intros Hrun. apply IH in Hrun as [Hin Hkept]. split.
        -- intros [->|Hk]%elem_of_cons; [|by apply Hin].
           apply Hkept, od_get_set_eq.
        -- intros Hget. apply Hkept. rewrite od_get_set.
           by destruct (decide (k0 = k)).
      * apply bool_decide_eq_false in Hsq0.
        intros Hrun. apply IH in Hrun as [Hin Hkept]. split; [|done].
        intros [->|Hk]%elem_of_cons; [done|by apply Hin].
Qed.

Lemma run_trials_squeeze (k : string) candidates :
  k ∈ squeezable op -> k ∉ od_keys mapper -> k ∉ od_keys (_extra_arguments op) ->
  (forall bs, bs ∈ candidates -> forall k', k' ∈ od_keys bs <-> k' ∈ od_keys mapper) ->
  forall at_arguments timings st r st',
    run_trials opts op mapper (squeezable op) candidates at_arguments timings st
    = (r, st') ->
    k ∈ od_keys at_arguments ->
    exists new, invocations st' = invocations st ++ new /\
                forall m, m ∈ new -> od_get k m = squeezer.
Proof.
  intros Hsq Hfree Hextra.
  induction candidates as [|blocksize candidates IH];
    intros Hcands at_args timings st r st' Hrun Hk.
  - injection Hrun as <- <-. exists []. rewrite app_nil_r. split; [done|].
    intros m Hm. by apply not_elem_of_nil in Hm.
  - assert (Hrest : forall bs, bs ∈ candidates ->
              forall k', k' ∈ od_keys bs <-> k' ∈ od_keys mapper).
    { intros bs Hbs. apply Hcands. by right. }
    assert (Hout : od_contains k blocksize = false).
    { apply od_contains_false. intros Hin. apply Hfree.
      by apply (Hcands blocksize); [left|]. }
    simpl in Hrun. rewrite M_bind_unfold in Hrun. unfold lift in Hrun.
    destruct (try_blocksize opts mapper (squeezable op) blocksize
                (od_keys at_args) at_args) as [[illegal at1]|e] eqn:Htry.
    + pose proof Htry as Hframe.
      apply try_blocksize_frame in Hframe as [Hkeys1 _]; [|done].
      destruct illegal.
      * apply (IH Hrest _ _ _ _ _ Hrun). by rewrite Hkeys1.
      * apply (try_blocksize_squeezes blocksize k) in Htry as [Hset _]; [|done..].
        simpl in Hrun. rewrite invoke_then, get_state_then in Hrun.
        apply (IH Hrest) in Hrun as (new & Hnew & Hcalls).
        -- eexists (_ :: new). split; [rewrite Hnew; simpl; by rewrite <- app_assoc|].
           intros m [->|Hm]%elem_of_cons; [|by apply Hcalls].
           rewrite od_update_get_notin by done. by apply Hset.
        -- apply od_update_keys. left. by rewrite Hkeys1.
    + injection Hrun as <- <-. exists []. rewrite app_nil_r. split; [done|].
      intros m Hm. by apply not_elem_of_nil in Hm.
Qed.

(** X13.  "Squeeze dimensions to minimize auto-tuning time": in every
    native call made by the autotuner, the parent of each buffered
    dimension with a sequential loop is bound to [options['at_squeezer']],
    provided its name is a key of the mapping and is neither a blocking
    parameter nor the profiler structure; the mapping returned to the
    caller keeps the caller's size for it. *)
Theorem trials_squeeze_sequential_dimensions (bound : list (string * value))
    (st st' : State) (r : result (list (string * value))) (k : string) :
  _autotune opts op bound st = (r, st') ->
  k ∈ squeezable op ->
  k ∈ od_keys bound ->
  k ∉ od_keys (blocking_mapper op) ->
  k ∉ od_keys (_extra_arguments op) ->
  (exists new, invocations st' = invocations st ++ new /\
               forall m, m ∈ new -> od_get k m = Some (VInt (at_squeezer opts))) /\
  (forall bound', r = Ok bound' -> od_get k bound' = od_get k bound).
Proof.
  intros Hrun Hsq Hk Hfree Hextra.
  assert (Hidle : (Ok bound, st) = (r, st') ->
    (exists new, invocations st' = invocations st ++ new /\
                 forall m, m ∈ new -> od_get k m = squeezer) /\
    (forall bound', r = Ok bound' -> od_get k bound' = od_get k bound)).
  { intros [= <- <-]. split; [|by intros ? [= <-]].
    exists []. rewrite app_nil_r. split; [done|].
    intros m Hm. by apply not_elem_of_nil in Hm. }
  unfold _autotune, OperatorCore_autotune in Hrun.
  destruct (cls op); try by apply Hidle.
  destruct (has_applied_blocking op); [|by apply Hidle]. simpl in Hrun.
  rewrite M_bind_unfold in Hrun.
  assert (Htrials : forall res st1,
    autotune_trials opts op bound st = (res, st1) ->
    exists new, invocations st1 = invocations st ++ new /\
                forall m, m ∈ new -> od_get k m = squeezer).
  { intros res st1. unfold autotune_trials. rewrite M_bind_unfold.
    destruct (copy_outputs (output_fields op) bound bound st)
      as [[at0|e] st0] eqn:Hcopy.
    - apply (copy_outputs_frame op (heap st)) in Hcopy as (Hinv0 & _ & _ & Hok);
        [|done].
      destruct (Hok at0 eq_refl) as (Hkeys0 & _); [done|].
      rewrite M_bind_unfold. unfold lift.
      destruct (attempted_blocksizes opts op) as [candidates|e] eqn:Hcands.
      + rewrite M_bind_unfold.
        destruct (run_trials opts op mapper (squeezable op) candidates at0 [] st0)
          as [r1 st2] eqn:Hrun1.
        apply (run_trials_squeeze k) in Hrun1 as (new & Hnew & Hcalls);
          [|done|done|done|by apply (attempted_keys opts op)|by rewrite Hkeys0].
        intros Hres. assert (st1 = st2) as ->.
        { destruct r1 as [[? ?]|?]; by injection Hres. }
        exists new. by rewrite Hnew, Hinv0.
      + intros [= <- <-]. exists []. rewrite app_nil_r, Hinv0. split; [done|].
        intros m Hm. by apply not_elem_of_nil in Hm.
    - apply (copy_outputs_frame op (heap st)) in Hcopy as (Hinv0 & _); [|done].
      intros [= <- <-]. exists []. rewrite app_nil_r, Hinv0. split; [done|].
      intros m Hm. by apply not_elem_of_nil in Hm. }
  destruct (autotune_trials opts op bound st) as [[timings|e] st1] eqn:Hrun1.
  - rewrite M_bind_unfold in Hrun. unfold lift in Hrun.
    destruct (fastest timings) as [best|e].
    + injection Hrun as Hwrite <-. split; [by apply (Htrials (Ok timings))|].
      intros bound' ->. apply write_back_sound in Hwrite as [_ Hget]; [|done].
      rewrite Hget, bool_decide_eq_false_2; [done|]. by intros [_ ?].
    + injection Hrun as <- <-. split; [by apply (Htrials (Ok timings))|].
      intros ? [=].
  - injection Hrun as <- <-. split; [by apply (Htrials (Err e))|]. intros ? [=].
Qed.
End Squeeze.

(** The operator that steps through time is called with 100 time steps; its
    three trials (block sizes 8, 16 and 32) run with [time = 3]. *)
Lemma trials_squeeze_sequential_dimensions_witness :
  let run := _autotune trial_options stepping_operator stepping_mapping empty_state in
  (exists new, invocations run.2 = invocations empty_state ++ new /\
               forall m, m ∈ new -> od_get "time" m = Some (VInt 3)) /\
  (forall bound', run.1 = Ok bound' ->
                  od_get "time" bound' = od_get "time" stepping_mapping).
Proof.
  intros run.
  apply (trials_squeeze_sequential_dimensions trial_options stepping_operator
           stepping_mapping empty_state run.2 run.1 "time").
  - apply surjective_pairing.
  - decide_by_computation.
  - decide_by_computation.
  - decide_by_computation.
  - decide_by_computation.
Defined.

Example stepping_trials :
  map (fun m => (od_get "time" m, od_get "x_block_size" m))
      (invocations (_autotune trial_options stepping_operator stepping_mapping
                      empty_state).2)
  = [(Some (VInt 3), Some (VInt 8)); (Some (VInt 3), Some (VInt 16));
     (Some (VInt 3), Some (VInt 32))].
Proof. vm_compute. reflexivity. Qed.

(** ** The number of candidates *)

Lemma list_sum_add {A} (f g : A -> nat) (l : list A) :
  list_sum (map (fun x => f x + g x)%nat l)
  = (list_sum (map f l) + list_sum (map g l))%nat.
Proof. induction l as [|x l IH]; simpl; [done|]. rewrite IH. lia. Qed.

Lemma list_sum_const {A} (f : A -> nat) (c : nat) (l : list A) :
  (forall x, x ∈ l -> f x = c) -> list_sum (map f l) = (length l * c)%nat.
Proof.
  induction l as [|x l IH]; intros Hall; simpl; [done|].
  rewrite IH, (Hall x); [lia|left|]. intros y Hy. apply Hall. by right.
Qed.

Lemma list_sum_seq_S (f : nat -> nat) (k : nat) :
  list_sum (map f (seq 0 (S k)))
  = (f 0%nat + list_sum (map (fun r => f (S r)) (seq 0 k)))%nat.
Proof.
  change (seq 0 (S k)) with (0%nat :: seq 1 k). simpl.
  by rewrite <- seq_shift, map_map.
Qed.

Lemma combinations_beyond {A} (l : list A) : forall r,
  (length l < r)%nat -> combinations l r = [].
Proof.
  induction l as [|x l IH]; intros r Hr; simpl in *.
  - destruct r; [lia|done].
  - destruct r as [|r]; [lia|]. rewrite !IH by lia. done.
Qed.

(** The subsets of a list of [n] items, counted by size: there are [2^n]. *)
Lemma combinations_total {A} (l : list A) : forall k,
  (length l <= k)%nat ->
  list_sum (map (fun r => length (combinations l r)) (seq 0 (S k)))
  = (2 ^ length l)%nat.
Proof.
  induction l as [|x l IH]; intros k Hk.
  - rewrite list_sum_seq_S. simpl.
    rewrite (list_sum_const _ 0%nat); [lia|done].
  - rewrite list_sum_seq_S.
    change (length (combinations (x :: l) 0)) with 1%nat.
    assert (Hstep : forall r, length (combinations (x :: l) (S r))
              = (length (combinations l r) + length (combinations l (S r)))%nat).
    { intros r. simpl. by rewrite length_app, length_map. }
    rewrite (map_ext _ _ Hstep), list_sum_add.
    simpl in Hk. destruct k as [|k]; [lia|].
    rewrite (IH k) by lia.
    pose proof (IH (S k) ltac:(lia)) as Hfull.
    rewrite list_sum_seq_S in Hfull.
    assert (Hzero : length (combinations l 0) = 1%nat) by (by destruct l).
    rewrite Hzero in Hfull.
    change (length (x :: l)) with (S (length l)). rewrite Nat.pow_succ_r'. lia.
Qed.

Lemma combinations_nonempty {A} (l : list A) :
  list_sum (map (fun i => length (combinations l (S i))) (seq 0 (length l)))
  = (2 ^ length l - 1)%nat.
Proof.
  pose proof (combinations_total l (length l) ltac:(lia)) as Hfull.
  rewrite list_sum_seq_S in Hfull.
  assert (Hzero : length (combinations l 0) = 1%nat) by (by destruct l).
  lia.
Qed.

Lemma mapM_result_length {A B} (f : A -> result B) (l : list A) (ys : list B) :
  mapM_result f l = Ok ys -> length ys = length l.
Proof. intros Hm%mapM_result_Forall2. symmetry. by eapply Forall2_length. Qed.

(** X14.  The size of the search: without aggressive autotuning there is
    one candidate for each listed size; with it, and [m] listed sizes for
    [n] blocking parameters, the candidates are the [m] listed ones, then
    one for every pair of one of the first three listed candidates and any
    listed candidate, then one for every listed candidate and every
    non-empty set of blocking parameters:
    [m + min(m, 3) * m + m * (2^n - 1)] in all (duplicates included). *)
Theorem number_of_candidates (opts : Options) (op : Operator)
    (candidates : list (list (string * Z))) :
  attempted_blocksizes opts op = Ok candidates ->
  length candidates
  = if needs_aggressive_autotuning op
    then (length (at_blocksize opts)
          + (length (at_blocksize opts) `min` 3) * length (at_blocksize opts)
          + length (at_blocksize opts) * (2 ^ length (blocking_mapper op) - 1))%nat
    else length (at_blocksize opts).
Proof.
  unfold attempted_blocksizes.
  set (keys := od_keys (blocking_mapper op)).
  set (base := map (fun v => map (fun k => (k, v)) keys) (at_blocksize opts)).
  assert (Hbase : length base = length (at_blocksize opts)) by apply length_map.
  assert (Hsize : forall bs, bs ∈ base ->
            od_keys bs = keys /\ length bs = length (blocking_mapper op)).
  { intros bs (v & -> & _)%list_elem_of_fmap. split; [apply uniform_keys|].
    rewrite length_map. apply length_fmap. }
  destruct (needs_aggressive_autotuning op); [|by intros [= <-]].
  intros (elaborated & Hel & [= <-])%result_bind_Ok.
  unfold elaborated_blocksizes in Hel.
  apply result_bind_Ok in Hel as (swapped & Hswapped & [= <-]).
  rewrite !length_app, length_concat, length_flat_map, Hbase.
  assert (Hgroups : list_sum (map length swapped)
                    = (length swapped * length (at_blocksize opts))%nat).
  { apply list_sum_const. intros group Hgroup.
    destruct (mapM_result_elem _ _ _ _ Hswapped Hgroup) as (blocksize & _ & Hinner).
    apply mapM_result_length in Hinner. by rewrite Hinner. }
  rewrite Hgroups, (mapM_result_length _ _ _ Hswapped), length_take, Hbase.
  rewrite (list_sum_const _ (2 ^ length (blocking_mapper op) - 1)%nat).
  - rewrite ?Hbase, (Nat.min_comm 3). lia.
  - intros bs Hbs. destruct (Hsize bs Hbs) as [Hkeys Hlen].
    rewrite length_flat_map.
    rewrite (map_ext _ (fun i => length (combinations (od_keys bs) (S i))))
      by (intros i; apply length_map).
    rewrite <- Hlen.
    replace (length bs) with (length (od_keys bs)) by apply length_fmap.
    apply combinations_nonempty.
Qed.

(** Four listed sizes and the two blocking parameters of
    [aggressive_operator], with aggressive autotuning:
    4 + 3 * 4 + 4 * (2^2 - 1) = 28 candidates. *)
Lemma number_of_candidates_witness :
  exists candidates,
    attempted_blocksizes trial_options aggressive_operator = Ok candidates /\
    length candidates = 28%nat.
Proof.
  eexists. split.
  - vm_compute. reflexivity.
  - apply (number_of_candidates trial_options aggressive_operator). reflexivity.
Defined.

(** ** Timers of the profiled sections *)

Lemma od_set_fresh {K V} `{EqDecision K} (k : K) (v : V) (d : list (K * V)) :
  od_contains k d = false -> od_set k v d = d ++ [(k, v)].
Proof.
  unfold od_contains. induction d as [|[k' v'] d IH]; simpl; [done|].
  destruct (decide (k = k')); [discriminate|]. intros Hget. by rewrite IH.
Qed.

(** Assigning to a key a value whose image under [g] is new keeps the
    images distinct. *)
Lemma od_set_NoDup_image {K V W} `{EqDecision K} (g : K * V -> W) (k : K) (v : V)
    (d : list (K * V)) :
  NoDup (map g d) -> g (k, v) ∉ map g d -> NoDup (map g (od_set k v d)).
Proof.
  induction d as [|[k' v'] d IH]; simpl.
  - intros _ _. apply NoDup_singleton.
  - intros [Hnotin Hnd]%NoDup_cons [Hne Hnew]%not_elem_of_cons.
    destruct (decide (k = k')) as [->|Hk]; simpl.
    + apply NoDup_cons. split; [done|done].
    + apply NoDup_cons. split; [|by apply IH].
      intros Hin. apply list_elem_of_fmap in Hin as (kv & Hg & Hkv).
      apply od_set_elem in Hkv as [Hkv| ->]; [|done].
      apply Hnotin. rewrite Hg. by apply list_elem_of_fmap_2.
Qed.

(** *** Decimal numerals *)

Lemma numeral_has_no_underscore (d : Decimal.uint) (a b : string) :
  NilEmpty.string_of_uint d <> a +:+ "_" +:+ b.
Proof.
  revert a. induction d; intros [|c a]; simpl; try discriminate;
    intros [= _ Hrest]; by apply IHd in Hrest.
Qed.

Lemma numeral_after_underscore (a : string) : forall (b : string) (d d' : Decimal.uint),
  a +:+ "_" +:+ NilEmpty.string_of_uint d = b +:+ "_" +:+ NilEmpty.string_of_uint d' ->
  d = d'.
Proof.
  assert (Hinj : forall d d' : Decimal.uint,
    NilEmpty.string_of_uint d = NilEmpty.string_of_uint d' -> d = d').
  { intros d d' Heq. apply (f_equal NilEmpty.uint_of_string) in Heq.
    rewrite !NilEmpty.usu in Heq. by injection Heq. }
  induction a as [|c a IH]; intros [|c' b] d d'; simpl.
  - intros [= Heq]. by apply Hinj.
  - intros [= _ Heq]. by apply numeral_has_no_underscore in Heq.
  - intros [= _ Heq]. symmetry in Heq. by apply numeral_has_no_underscore in Heq.
  - intros [= _ Heq]. by apply IH in Heq.
Qed.

Section ProfilingFacts.
Context {node J : Type} `{EqDecision J}.
Variable FindSections : node -> list (list J).
Variable IsPerfectIteration : J -> bool.
Variable index : J -> string.
Variable estimate_cost : J -> Z.
Variable estimate_memory : J -> Z.

Local Abbreviation loop_name := (Profiling.loop_name index).
Local Abbreviation time_section :=
  (Profiling.time_section IsPerfectIteration index estimate_cost estimate_memory).
Local Abbreviation timers :=
  (fun st : Profiling.Timed =>
     map (fun s : list J * Profile => timer s.2) (Profiling.sections st)).

(** The number in a timer name determines the name. *)
Lemma loop_name_inj (j j' : J) (n n' : nat) :
  loop_name j n = loop_name j' n' -> n = n'.
Proof.
  unfold Profiling.loop_name, Profiling.decimal. simpl. intros [= Heq].
  apply numeral_after_underscore in Heq.
  apply (f_equal Nat.of_uint) in Heq. by rewrite !Unsigned.of_to in Heq.
Qed.

Local Abbreviation timed_wf :=
  (Profiling.timed_wf IsPerfectIteration index estimate_cost estimate_memory).

Lemma timed_names_distinct fields st :
  timed_wf fields st -> NoDup (Profiling.mapper st).*2.
Proof.
  intros wf. apply NoDup_alt. intros n n' name Hn Hn'.
  rewrite list_lookup_fmap in Hn, Hn'.
  destruct (Profiling.mapper st !! n) as [[j x]|] eqn:Hj; [|discriminate].
  destruct (Profiling.mapper st !! n') as [[j' x']|] eqn:Hj'; [|discriminate].
  simpl in Hn, Hn'. injection Hn as ->. injection Hn' as ->.
  apply (Profiling.wf_names _ _ _ _ _ _ wf) in Hj as [Hj _].
  apply (Profiling.wf_names _ _ _ _ _ _ wf) in Hj' as [Hj' _].
  apply (loop_name_inj j j'). congruence.
Qed.

Lemma time_section_wf fields itspace js : forall st,
  (forall j, j ∈ js -> j ∈ itspace) ->
  timed_wf fields st -> timed_wf fields (time_section itspace js st).
Proof.
  induction js as [|j js IH]; intros st Hjs wf; simpl; [done|].
  destruct (IsPerfectIteration j) eqn:Hperfect; simpl;
    [|apply IH; [intros j' Hj'; apply Hjs; by right|done]].
  destruct (od_contains j (Profiling.mapper st)) eqn:Htimed; simpl;
    [apply IH; [intros j' Hj'; apply Hjs; by right|done]|].
  destruct wf as [Hnames Hkeys Hfields Htimers Hsections].
  set (lname := loop_name j (length (Profiling.mapper st))).
  assert (Hmapper : od_set j lname (Profiling.mapper st)
                    = Profiling.mapper st ++ [(j, lname)]) by (by apply od_set_fresh).
  split; simpl.
  - rewrite Hmapper. intros n j' name Hn.
    apply lookup_app_Some in Hn as [Hn|[Hlen Hn]]; [by apply Hnames|].
    apply list_lookup_singleton_Some in Hn as [Hn [= <- <-]].
    replace n with (length (Profiling.mapper st)) by lia. done.
  - by apply od_keys_set_NoDup.
  - rewrite Hmapper, Hfields, fmap_app, <- app_assoc. done.
  - apply (od_set_NoDup_image (fun s : list J * Profile => timer s.2)); [done|].
    simpl. intros Hin. apply list_elem_of_fmap in Hin as ([its p] & Hname & Hin).
    simpl in Hname. destruct (Hsections its p Hin) as (j' & _ & Hj' & _).
    apply list_elem_of_lookup in Hj' as [n Hn].
    pose proof (lookup_lt_Some _ _ _ Hn) as Hlt.
    apply Hnames in Hn as [Hn _]. rewrite <- Hname in Hn.
    apply loop_name_inj in Hn. lia.
  - intros its p Hin. apply od_set_elem in Hin as [Hin|[= -> ->]].
    + destruct (Hsections its p Hin) as (j' & Hj' & Hmap & Hops & Hmem).
      exists j'. split; [done|]. split; [|done].
      rewrite Hmapper. apply elem_of_app. by left.
    + exists j. split; [apply Hjs; left|]. split; [|done].
      rewrite Hmapper. apply elem_of_app. right. left.
Qed.

(** X15.  [_profile_sections]: the sections it records have pairwise
    distinct timers, and so have the timed loops.  The [n]-th loop that gets
    a timer is a perfect iteration, is timed only once, and its timer is
    named [loop_<index>_<n>]; the names are appended to the profiler's
    fields in that order; and the timer of a section is the timer of one of
    the iterations of its own iteration space, whose estimated operations
    and memory accesses the section records. *)
Theorem profiled_sections_have_distinct_timers (nodes : list node)
    (fields : list string) :
  let st := Profiling._profile_sections FindSections IsPerfectIteration index
              estimate_cost estimate_memory nodes fields in
  timed_wf fields st /\ NoDup (Profiling.mapper st).*2.
Proof.
  intros st.
  assert (wf : timed_wf fields st).
  { subst st. unfold Profiling._profile_sections.
    assert (Hspaces : forall (spaces : list (list J)) st0,
      timed_wf fields st0 ->
      timed_wf fields (fold_left (fun st itspace => time_section itspace itspace st)
                                 spaces st0)).
    { induction spaces as [|itspace spaces IHs]; intros st0 Hst0; simpl; [done|].
      apply IHs. by apply time_section_wf. }
    assert (Hnodes : forall (l : list node) st0,
      timed_wf fields st0 ->
      timed_wf fields
        (fold_left (fun st expr =>
                      fold_left (fun st itspace => time_section itspace itspace st)
                                (FindSections expr) st) l st0)).
    { induction l as [|expr l IH]; intros st0 Hst0; simpl; [done|].
      apply IH. by apply Hspaces. }
    apply Hnodes. split; simpl; try done; try apply NoDup_nil_2.
    - by rewrite app_nil_r.
    - intros ? ? Hin. by apply not_elem_of_nil in Hin. }
  split; [done|]. by eapply timed_names_distinct.
Qed.
End ProfilingFacts.

(** Two expressions under the loops [t; x] and [t; y]: the outer loop is
    not perfect, the inner ones are. *)
Example profile_two_sections :
  let st := Profiling._profile_sections
              (fun expr : string => [["t"; expr]])
              (fun j : string => negb (bool_decide (j = "t")))
              (fun j : string => j) (fun _ => 2) (fun _ => 1)
              ["x"; "y"; "x"] [] in
  Profiling.t_fields st = ["loop_x_0"; "loop_y_1"] /\
  Profiling.sections st
  = [(["t"; "x"], {| timer := "loop_x_0"; ops := 2; memory := 1 |});
     (["t"; "y"], {| timer := "loop_y_1"; ops := 2; memory := 1 |})].
Proof. vm_compute. done. Qed.

(** ** Compilation happens once *)

Section JitFacts.
Context {Code Compiler Library Pointer : Type}.
Variable jit_compile : Code -> Compiler -> string.
Variable load : string -> Compiler -> Library.
Variable symbol : Library -> string -> Pointer.
Variable data_dtype : SymbolicData -> dtype.
Variables (ccode : Code) (compiler : Compiler) (name : string).
Variable parameters : list Param.

Local Abbreviation compile :=
  (Jit.compile (Library:=Library) (Pointer:=Pointer) jit_compile ccode compiler).
Local Abbreviation cfunction :=
  (Jit.cfunction jit_compile load symbol data_dtype ccode compiler name parameters).
Local Abbreviation basename := (jit_compile ccode compiler).

(** X16.  [cfunction] compiles and loads at most once: whatever the state,
    after one access a second access returns the same function and calls
    neither [jit_compile] nor [load], and [compile] returns the name of the
    loaded library without compiling.  The first access compiles and then
    loads exactly when no library was loaded.  From the state that
    [__init__] leaves, the function is the symbol [name] of the library
    loaded from the compiled file, with one argument type for each
    parameter: [c_int] for a dimension, a pointer for data. *)
Theorem cfunction_compiles_once (st : Jit.JitState) :
  let f := (cfunction st).1 in
  let st1 := (cfunction st).2 in
  cfunction st1 = (f, st1) /\
  (exists lib, Jit._lib st1 = Some lib /\ compile st1 = (Jit.lib_name lib, st1)) /\
  Jit.log st1 = Jit.log st ++
                match Jit._lib st with
                | None => [Jit.Compiled basename; Jit.Loaded basename]
                | Some _ => []
                end /\
  (cfunction Jit.initial).1
  = {| Jit.pointer := symbol (load basename compiler) name;
       Jit.argtypes := map (fun v => match v with
                                     | PDim _ => Jit.c_int
                                     | PData f => Jit.ndpointer (data_dtype f)
                                     end) parameters |}.
Proof.
  unfold Jit.cfunction, Jit.compile.
  destruct st as [[lib|] [f|] log]; simpl; rewrite ?app_nil_r, <- ?app_assoc;
    (split; [done|]); (split; [by eexists|]); done.
Qed.

(** X17.  [compile] itself records nothing: as long as no library is loaded
    (that is, until [cfunction] is accessed), every access to [compile]
    calls [jit_compile] again. *)
Theorem compile_alone_compiles_again (st : Jit.JitState) (n : nat) :
  Jit._lib st = None ->
  let st' := Nat.iter n (fun s => (compile s).2) st in
  Jit._lib st' = None /\
  Jit._cfunction st' = Jit._cfunction st /\
  Jit.log st' = Jit.log st ++ replicate n (Jit.Compiled basename).
Proof.
  intros Hlib. induction n as [|n IH]; simpl.
  - by rewrite app_nil_r.
  - destruct IH as (Hlib' & Hf' & Hlog'). unfold Jit.compile at 1 3 5.
    rewrite Hlib'. simpl. split; [done|]. split; [done|].
    rewrite Hlog', <- app_assoc. f_equal.
    change (?x :: replicate n ?x) with (replicate (S n) x).
    by rewrite replicate_S_end.
Qed.
End JitFacts.

(** Three accesses to [compile] before any access to [cfunction]. *)
Lemma compile_alone_compiles_again_witness :
  Jit.log (Nat.iter 3 (fun s => (Jit.compile (Library:=unit) (Pointer:=unit)
                                   (fun (code : string) (_ : unit) => code)
                                   "kernel.c" tt s).2)
             Jit.initial)
  = [Jit.Compiled "kernel.c"; Jit.Compiled "kernel.c"; Jit.Compiled "kernel.c"].
Proof.
  exact (proj2 (proj2 (compile_alone_compiles_again (Library:=unit) (Pointer:=unit)
                         (fun (code : string) (_ : unit) => code) "kernel.c" tt
                         Jit.initial 3 eq_refl))).
Defined.

(** ** The mode handed to the loop engine *)

Section DleModeFacts.
Variable as_tuple : pyobj -> list pyobj.
Variable openmp : bool.

(** X18.  [set_dle_mode]: a mode that counts as false becomes ['noop'].
    Any other mode becomes a tuple whose last item is a dictionary of
    parameters in which ['openmp'] is the compiler's setting, whatever the
    caller wrote there: when the mode already ends with a dictionary, that
    dictionary is kept with its other entries and the items before it are
    kept; otherwise the items are kept and a dictionary with the single
    entry ['openmp'] is appended. *)
Theorem dle_mode_carries_openmp (mode : pyobj) :
  (py_truth mode = false -> set_dle_mode as_tuple openmp mode = Ok (PyStr "noop")) /\
  (py_truth mode = true -> as_tuple mode <> [] ->
   exists items params,
     set_dle_mode as_tuple openmp mode = Ok (PyTuple (items ++ [PyDict params])) /\
     od_get "openmp" params = Some (PyBool openmp) /\
     ((exists old, as_tuple mode = items ++ [PyDict old] /\
                   od_keys params = od_keys (od_set "openmp" PyNone old) /\
                   forall k, k <> "openmp" -> od_get k params = od_get k old) \/
      (as_tuple mode = items /\ params = [("openmp", PyBool openmp)] /\
       forall old, last items <> Some (PyDict old)))) /\
  (py_truth mode = true -> as_tuple mode = [] -> set_dle_mode as_tuple openmp mode = Err IndexError).
Proof.
  unfold set_dle_mode. split; [|split].
  - by intros ->.
  - intros -> Hne. simpl. unfold Scheduler.py_last.
    destruct (last (as_tuple mode)) as [params|] eqn:Hlast;
      [|by apply last_None in Hlast].
    pose proof (last_removelast _ _ Hlast) as Hsplit. simpl.
    assert (Hother : exists items,
      Ok (PyTuple (as_tuple mode ++ [PyDict [("openmp", PyBool openmp)]]))
      = Ok (PyTuple (items ++ [PyDict [("openmp", PyBool openmp)]])) /\
      as_tuple mode = items /\
      ((forall old, params <> PyDict old) -> forall old, last items <> Some (PyDict old))).
    { exists (as_tuple mode). split; [done|]. split; [done|].
      intros Hnot old. rewrite Hlast. intros [= ->]. by apply (Hnot old). }
    destruct params as [|b|s|items'|old];
      try (destruct Hother as (items & Hrun & Hitems & Hlast');
           exists items, [("openmp", PyBool openmp)];
           split; [exact Hrun|]; split; [done|]; right;
           split; [done|]; split; [done|]; by apply Hlast').
    exists (removelast (as_tuple mode)), (od_set "openmp" (PyBool openmp) old).
    split; [done|]. split; [apply od_get_set_eq|]. left. exists old.
    split; [done|]. split; [by apply od_keys_set_congr|].
    intros k Hk. apply od_get_set_ne. congruence.
  - intros -> ->. done.
Qed.
End DleModeFacts.

(** The mode [('advanced', {'openmp': False, 'blockshape': ...})] with a
    compiler that uses OpenMP. *)
Lemma dle_mode_carries_openmp_witness :
  let as_tuple := fun o => match o with PyTuple items => items | _ => [o] end in
  let mode := PyTuple [PyStr "advanced";
                       PyDict [("openmp", PyBool false); ("blockshape", PyNone)]] in
  exists items params,
    set_dle_mode as_tuple true mode = Ok (PyTuple (items ++ [PyDict params])) /\
    od_get "openmp" params = Some (PyBool true) /\
    ((exists old, as_tuple mode = items ++ [PyDict old] /\
                  od_keys params = od_keys (od_set "openmp" PyNone old) /\
                  forall k, k <> "openmp" -> od_get k params = od_get k old) \/
     (as_tuple mode = items /\ params = [("openmp", PyBool true)] /\
      forall old, last items <> Some (PyDict old))).
Proof.
  intros as_tuple mode.
  apply (proj1 (proj2 (dle_mode_carries_openmp as_tuple true mode))).
  - reflexivity.
  - discriminate.
Defined.

(** ** The class of the operator *)

Lemma od_get_remove_eq {K V} `{EqDecision K} (k : K) (d : list (K * V)) :
  NoDup (od_keys d) -> od_get k (od_remove k d) = None.
Proof.
  unfold od_keys. induction d as [|[k0 v0] d IH]; simpl; [done|].
  intros [Hnotin Hnd]%NoDup_cons.
  destruct (decide (k = k0)) as [->|Hne]; simpl.
  - by apply od_get_None.
  - rewrite decide_False by done. by apply IH.
Qed.

Lemma od_remove_elem {K V} `{EqDecision K} (k : K) (d : list (K * V)) (kv : K * V) :
  kv ∈ od_remove k d -> kv ∈ d.
Proof.
  induction d as [|[k0 v0] d IH]; simpl; [done|].
  destruct (decide (k = k0)); [by right|].
  intros [->|Hin]%elem_of_cons; [left|right; by apply IH].
Qed.

Lemma od_remove_NoDup {K V} `{EqDecision K} (k : K) (d : list (K * V)) :
  NoDup (od_keys d) -> NoDup (od_keys (od_remove k d)).
Proof.
  unfold od_keys. induction d as [|[k0 v0] d IH]; simpl; [done|].
  intros [Hnotin Hnd]%NoDup_cons. destruct (decide (k = k0)); [done|].
  simpl. apply NoDup_cons. split; [|by apply IH].
  intros Hin. apply Hnotin. apply list_elem_of_fmap in Hin as (kv & -> & Hin).
  apply list_elem_of_fmap_2. by apply od_remove_elem in Hin.
Qed.

Section StencilKernelFacts.
Context {V : Type}.
Variable truth : V -> bool.
Variable get_compiler_from_env : V.

(** X19.  [StencilKernel(..., **kwargs)]: the operator is an
    [OperatorForeign] when the keyword [external] is given with a true
    value and an [OperatorCore] otherwise, never a bare [OperatorBasic];
    its compiler is the keyword [compiler] when given, else the one of the
    environment; and [__init__] receives the other keywords unchanged,
    without [external] and [compiler]. *)
Theorem stencil_kernel_class (kwargs : list (string * V)) :
  NoDup (od_keys kwargs) ->
  let '(cls, compiler, init_kwargs) :=
    StencilKernel_new truth get_compiler_from_env kwargs in
  cls = (if match od_get "external" kwargs with
            | Some v => truth v
            | None => false
            end
         then OperatorForeign else OperatorCore) /\
  cls <> OperatorBasic /\
  compiler = default get_compiler_from_env (od_get "compiler" kwargs) /\
  od_get "external" init_kwargs = None /\
  od_get "compiler" init_kwargs = None /\
  forall k, k <> "external" -> k <> "compiler" ->
            od_get k init_kwargs = od_get k kwargs.
Proof.
  intros Hnd. unfold StencilKernel_new.
  pose proof (od_remove_NoDup "external" kwargs Hnd) as Hnd'.
  split; [done|]. split; [by destruct (match od_get "external" kwargs with
                                        | Some v => truth v | None => false end)|].
  split; [by rewrite od_get_remove_ne|]. split.
  - rewrite od_get_remove_ne by done. by apply od_get_remove_eq.
  - split; [by apply od_get_remove_eq|].
    intros k Hk Hk'. rewrite !od_get_remove_ne by done. done.
Qed.
End StencilKernelFacts.

(** [StencilKernel(eq, external=True, dse='basic')] *)
Lemma stencil_kernel_class_witness :
  let kwargs := [("external", VBool true); ("dse", VInt 1)] in
  let '(cls, compiler, init_kwargs) := StencilKernel_new truthy VNone kwargs in
  cls = OperatorForeign /\
  cls <> OperatorBasic /\
  compiler = VNone /\
  od_get "external" init_kwargs = None /\
  od_get "compiler" init_kwargs = None /\
  forall k, k <> "external" -> k <> "compiler" ->
            od_get k init_kwargs = od_get k kwargs.
Proof.
  exact (stencil_kernel_class truthy VNone
           [("external", VBool true); ("dse", VInt 1)]
           ltac:(decide_by_computation)).
Defined.

(** ** The views of the summary *)

Lemma od_of_items_view {V W} (g : V -> W) (d : list (string * V)) :
  NoDup (od_keys d) ->
  od_of_items (map (fun kv : string * V => (kv.1, g kv.2)) d)
  = map (fun kv : string * V => (kv.1, g kv.2)) d.
Proof.
  intros Hnd. apply od_of_items_id.
  replace ((map (fun kv : string * V => (kv.1, g kv.2)) d).*1) with (od_keys d); [done|].
  unfold od_keys. induction d as [|kv d IH]; simpl; [done|]. f_equal. apply IH.
  by apply NoDup_cons in Hnd as [_ ?].
Qed.

Lemma od_get_view {V W} (g : V -> W) (d : list (string * V)) (k : string) :
  od_keys (map (fun kv : string * V => (kv.1, g kv.2)) d) = od_keys d /\
  od_get k (map (fun kv : string * V => (kv.1, g kv.2)) d) = g <$> od_get k d.
Proof.
  unfold od_keys. induction d as [|[k0 v0] d [IHk IHg]]; simpl; [done|]. split.
  - by f_equal.
  - by destruct (decide (k = k0)).
Qed.

(** X20.  The views [timings], [gflopss] and [oi] of a summary list its
    sections in the order of the summary, each with the time, the
    throughput or the operational intensity of its entry; right after
    [setsection], the views hold what was given for that section. *)
Theorem summary_views_follow_entries (summary : list (string * PerfEntry)) :
  NoDup (od_keys summary) ->
  (od_keys (PerformanceSummary_timings summary) = od_keys summary /\
   od_keys (PerformanceSummary_gflopss summary) = od_keys summary /\
   od_keys (PerformanceSummary_oi summary) = od_keys summary) /\
  (forall k,
     od_get k (PerformanceSummary_timings summary) = time <$> od_get k summary /\
     od_get k (PerformanceSummary_gflopss summary) = gflopss <$> od_get k summary /\
     od_get k (PerformanceSummary_oi summary) = oi <$> od_get k summary) /\
  (forall key t g o itershape datashape,
     let summary' := setsection summary key t g o itershape datashape in
     od_get key (PerformanceSummary_timings summary') = Some t /\
     od_get key (PerformanceSummary_gflopss summary') = Some g /\
     od_get key (PerformanceSummary_oi summary') = Some o).
Proof.
  intros Hnd.
  assert (Hviews : forall s : list (string * PerfEntry), NoDup (od_keys s) ->
    forall k,
      (od_keys (PerformanceSummary_timings s) = od_keys s /\
       od_get k (PerformanceSummary_timings s) = time <$> od_get k s) /\
      (od_keys (PerformanceSummary_gflopss s) = od_keys s /\
       od_get k (PerformanceSummary_gflopss s) = gflopss <$> od_get k s) /\
      (od_keys (PerformanceSummary_oi s) = od_keys s /\
       od_get k (PerformanceSummary_oi s) = oi <$> od_get k s)).
  { intros s Hs k.
    unfold PerformanceSummary_timings, PerformanceSummary_gflopss,
      PerformanceSummary_oi.
    rewrite !od_of_items_view by done.
    split; [apply (od_get_view time)|split; [apply (od_get_view gflopss)|
                                             apply (od_get_view oi)]]. }
  split; [|split].
  - destruct (Hviews summary Hnd "") as ((? & _) & (? & _) & (? & _)). done.
  - intros k. destruct (Hviews summary Hnd k) as ((_ & ?) & (_ & ?) & (_ & ?)). done.
  - intros key t g o itershape datashape summary'.
    destruct (Hviews summary' (od_keys_set_NoDup _ _ _ Hnd) key)
      as ((_ & Ht) & (_ & Hg) & (_ & Ho)).
    rewrite Ht, Hg, Ho. unfold summary', setsection. by rewrite od_get_set_eq.
Qed.

(** The views of the summary of the example. *)
Lemma summary_views_follow_entries_witness :
  let entry := {| time := millisecond; gflopss := f64_of_Z 2; oi := f64_of_Z 1;
                  itershape := [10; 10]; datashape := [10; 10] |} in
  od_get "main" (PerformanceSummary_timings [("main", entry)]) = Some millisecond.
Proof.
  intros entry.
  destruct (summary_views_follow_entries [("main", entry)] (NoDup_singleton _))
    as (_ & Hget & _).
  destruct (Hget "main") as (-> & _). reflexivity.
Defined.

(** ** [OperatorForeign.arguments] *)

Lemma override_data_from items : forall a a' kv,
  override_data items a = Ok a' -> kv ∈ a' ->
  kv ∈ a \/ (kv ∈ items /\ exists shape, value_shape kv.2 = Ok shape).
Proof.
  induction items as [|[k o] items IH]; intros a a' kv; simpl.
  - intros [= <-]. by left.
  - intros (v & _ & Hrun)%result_bind_Ok.
    apply result_bind_Ok in Hrun as (declared & _ & Hrun).
    apply result_bind_Ok in Hrun as (shape & Hshape & Hrun).
    destruct (negb (bool_decide (declared = shape))); [discriminate|].
    intros Hin. apply (IH _ _ _ Hrun) in Hin as [Hin|[Hin ?]].
    + apply od_set_elem in Hin as [?| ->]; [by left|].
      right. split; [left|by exists shape].
    + right. split; [by right|done].
Qed.

Lemma overriding_keywords_from kwargs a kv :
  kv ∈ overriding_keywords kwargs a -> kv ∈ kwargs.
Proof.
  unfold overriding_keywords, od_of_items. intros Hin.
  apply od_update_elem in Hin as [Hin|Hin]; [by apply not_elem_of_nil in Hin|].
  by apply elem_of_filter_bool in Hin as [? _].
Qed.

Lemma insert_dimension_sizes_from d_args ds : forall a a' kv,
  insert_dimension_sizes d_args ds a = Ok a' -> kv ∈ a' ->
  kv ∈ a \/ exists n, kv.2 = VInt n.
Proof.
  induction d_args as [|d d_args IH]; intros a a' kv; simpl.
  - intros [= <-]. by left.
  - intros (n & _ & Hrest)%result_bind_Ok Hkv.
    apply (IH _ _ _ Hrest) in Hkv as [Hkv|?]; [|by right].
    apply od_set_elem in Hkv as [?| ->]; [by left|right; by exists n].
Qed.


